(** * libfork: the task frame, the join protocol and the promise state machine

    A shallow embedding of the promise of libfork tasks ([promise.hpp]:
    [join_awaitable], [final_await_suspend], [promise_type]), of the first
    argument of async functions ([first_arg.hpp]), of the Fibonacci
    benchmarks and tests, and of the in-place scan of the algorithm tests.

    Thread-local state ([tls::get_ctx], [tls::get_asp]) is indexed by the
    identifier of the executing worker, coroutine frames live in a store
    keyed by their address, and every function of the protocol is a
    computation in a state-and-failure monad over that store.  The workers
    of a scheduler are interleaved by a schedule, a list of actions (a
    worker runs its coroutine up to the next suspension point, or an idle
    worker steals); memory is sequentially consistent, the memory orders
    of the atomic operations are recorded in the trace only.

    The first part gives the definitions: the runtime, the scan, the
    sequential meaning of a task and the invariant of the runtime.  The
    second part proves the properties of the protocol functions, of the
    scan, and of whole runs of [sync_wait]. *)

From stdpp Require Import base numbers list gmap option.

Open Scope Z_scope.

(** ** Machine integers *)

Definition k_u32_max : Z := 4294967295.

(** Arithmetic on [std::uint32_t] wraps modulo [2^32]. *)
Definition wrap_u32 (z : Z) : Z := z `mod` 4294967296.

Definition u32_sub (a b : Z) : Z := wrap_u32 (a - b).
Definition u32_add (a b : Z) : Z := wrap_u32 (a + b).

(** Arithmetic on [int] in two's complement on 32 bits. *)
Definition wrap_int (z : Z) : Z := (z + 2147483648) `mod` 4294967296 - 2147483648.

Definition int_add (a b : Z) : Z := wrap_int (a + b).
Definition int_sub (a b : Z) : Z := wrap_int (a - b).

Definition is_int (z : Z) : Prop := -2147483648 ≤ z ≤ 2147483647.
Definition is_u32 (z : Z) : Prop := 0 ≤ z ≤ k_u32_max.

(** ** Tasks *)

Abbreviation frame_ptr := nat.
Abbreviation stack_ptr := nat.

Inductive tag := root | call | fork.

#[export] Instance tag_eq_dec : EqDecision tag.
Proof. solve_decision. Defined.

(** The body of an async function between two suspension points is ordinary
    sequential code, so a body is the tree of its suspension points.  A
    packet [fork(a, f)(args...)] or [call(b, f)(args...)] is given by the body
    that the child will run.  The result variable of a fork is a fresh local
    of the parent, which the body reads after the next join (it gets the
    locals of all forks since the previous join, in program order); the
    result variable of a call is read by the code after the call. *)
Inductive task :=
| co_return (v : Z)
| co_throw
| co_await_fork (child : task) (k : task)
| co_await_call (child : task) (k : Z → task)
| co_await_join (k : list Z → task).

(** Where a suspended (or running) coroutine will continue. *)
Inductive body :=
| at_code (c : task)
| at_call (k : Z → task)
| at_join (k : list Z → task).

(** Where [return_value] writes the result of a task. *)
Inductive return_address :=
| ret_root
| ret_local (i : nat)
| ret_call.

Inductive exception_ptr := current_exception.

(** Modelled from the spec: the control block [frame_block] of a task frame
    (its header is not part of the sources at hand): the parent link, the
    stack the frame lives on, the steal counter, the join counter stored as
    [k_u32_max] minus the number of joins, the exception slot; [m_count] is
    the debug counter behind [debug_inc], [debug_count] and [debug_reset].
    The remaining fields are the promise (tag and return address) and the
    coroutine state (resume point and result locals of the forks since the
    last join). *)
Record frame := {
  m_parent : option frame_ptr;
  m_top : stack_ptr;
  m_steal : Z;
  m_join : Z;
  m_count : Z;
  m_except : option exception_ptr;
  f_tag : tag;
  f_ret : return_address;
  f_body : body;
  f_locals : list (option Z)
}.

Definition with_steal (s : Z) (f : frame) : frame :=
  {| m_parent := m_parent f; m_top := m_top f; m_steal := s; m_join := m_join f;
     m_count := m_count f; m_except := m_except f; f_tag := f_tag f;
     f_ret := f_ret f; f_body := f_body f; f_locals := f_locals f |}.

Definition with_join (j : Z) (f : frame) : frame :=
  {| m_parent := m_parent f; m_top := m_top f; m_steal := m_steal f; m_join := j;
     m_count := m_count f; m_except := m_except f; f_tag := f_tag f;
     f_ret := f_ret f; f_body := f_body f; f_locals := f_locals f |}.

Definition with_count (c : Z) (f : frame) : frame :=
  {| m_parent := m_parent f; m_top := m_top f; m_steal := m_steal f; m_join := m_join f;
     m_count := c; m_except := m_except f; f_tag := f_tag f;
     f_ret := f_ret f; f_body := f_body f; f_locals := f_locals f |}.

Definition with_except (e : option exception_ptr) (f : frame) : frame :=
  {| m_parent := m_parent f; m_top := m_top f; m_steal := m_steal f; m_join := m_join f;
     m_count := m_count f; m_except := e; f_tag := f_tag f;
     f_ret := f_ret f; f_body := f_body f; f_locals := f_locals f |}.

Definition with_body (b : body) (f : frame) : frame :=
  {| m_parent := m_parent f; m_top := m_top f; m_steal := m_steal f; m_join := m_join f;
     m_count := m_count f; m_except := m_except f; f_tag := f_tag f;
     f_ret := f_ret f; f_body := b; f_locals := f_locals f |}.

Definition with_locals (l : list (option Z)) (f : frame) : frame :=
  {| m_parent := m_parent f; m_top := m_top f; m_steal := m_steal f; m_join := m_join f;
     m_count := m_count f; m_except := m_except f; f_tag := f_tag f;
     f_ret := f_ret f; f_body := f_body f; f_locals := l |}.

(** Modelled from the spec: [locale] is the pair of [is_root] and the stack
    top; the root is the frame without a parent. *)
Definition is_root (f : frame) : bool := bool_decide (m_parent f = None).

(** ** Workers and the shared state *)

Inductive coroutine_handle :=
| coro (p : frame_ptr)
| noop_coroutine.

(** What a worker thread is doing: it is in its executor loop, it runs the
    body of a frame, or it stands between the [await_ready] that returned
    false and the [await_suspend] of a join. *)
Inductive status :=
| idle
| running (p : frame_ptr)
| suspending (p : frame_ptr).

(** The thread-local state of a worker: the deque of its context (the owner
    pushes and pops at the head, thieves take the last entry) and its active
    stack pointer. *)
Record worker := {
  w_deque : list frame_ptr;
  w_asp : stack_ptr;
  w_status : status
}.

Inductive memory_order := relaxed | acquire | release.

Inductive assertion :=
| assert_steals_nonzero
| assert_parent_task
| assert_steals_zero
| assert_joins_max
| assert_debug_count
| assert_top_is_asp.

Inductive failure :=
| terminate
| assertion_failed (a : assertion)
| bad_pointer.

(** Operations on shared or thread-local runtime state leave a mark in the
    trace of the run. *)
Inductive event :=
| ev_load_joins (p : frame_ptr) (o : memory_order)
| ev_fetch_sub_joins (p : frame_ptr) (n : Z) (o : memory_order)
| ev_fence (o : memory_order)
| ev_reset (p : frame_ptr)
| ev_push_asp (s : stack_ptr)
| ev_set_asp (s : stack_ptr)
| ev_stack_pop (s : stack_ptr)
| ev_task_push (p : frame_ptr)
| ev_task_pop (r : option frame_ptr)
| ev_semaphore_release
| ev_destroy (p : frame_ptr)
| ev_steal (p : frame_ptr).

Record state := {
  frames : gmap nat frame;
  workers : list worker;
  semaphore : nat;
  root_result : option Z;
  next_frame : frame_ptr;
  next_stack : stack_ptr;
  trace : list event
}.

Definition with_frames (h : gmap nat frame) (σ : state) : state :=
  {| frames := h; workers := workers σ; semaphore := semaphore σ;
     root_result := root_result σ; next_frame := next_frame σ;
     next_stack := next_stack σ; trace := trace σ |}.

Definition with_workers (ws : list worker) (σ : state) : state :=
  {| frames := frames σ; workers := ws; semaphore := semaphore σ;
     root_result := root_result σ; next_frame := next_frame σ;
     next_stack := next_stack σ; trace := trace σ |}.

Definition with_semaphore (n : nat) (σ : state) : state :=
  {| frames := frames σ; workers := workers σ; semaphore := n;
     root_result := root_result σ; next_frame := next_frame σ;
     next_stack := next_stack σ; trace := trace σ |}.

Definition with_root_result (r : option Z) (σ : state) : state :=
  {| frames := frames σ; workers := workers σ; semaphore := semaphore σ;
     root_result := r; next_frame := next_frame σ;
     next_stack := next_stack σ; trace := trace σ |}.

Definition with_next_frame (n : frame_ptr) (σ : state) : state :=
  {| frames := frames σ; workers := workers σ; semaphore := semaphore σ;
     root_result := root_result σ; next_frame := n;
     next_stack := next_stack σ; trace := trace σ |}.

Definition with_next_stack (n : stack_ptr) (σ : state) : state :=
  {| frames := frames σ; workers := workers σ; semaphore := semaphore σ;
     root_result := root_result σ; next_frame := next_frame σ;
     next_stack := n; trace := trace σ |}.

Definition with_trace (t : list event) (σ : state) : state :=
  {| frames := frames σ; workers := workers σ; semaphore := semaphore σ;
     root_result := root_result σ; next_frame := next_frame σ;
     next_stack := next_stack σ; trace := t |}.

(** ** The monad of the runtime *)

Inductive outcome (A : Type) :=
| Ok (a : A) (σ : state)
| Abort (why : failure).

Arguments Ok {A} a σ.
Arguments Abort {A} why.

Definition M (A : Type) : Type := state → outcome A.

#[export] Instance M_ret : MRet M := λ A a σ, Ok a σ.

#[export] Instance M_bind : MBind M := λ A B f m σ,
  match m σ with
  | Ok a σ' => f a σ'
  | Abort why => Abort why
  end.

Definition throw {A} (why : failure) : M A := λ _, Abort why.

Definition emit (e : event) : M unit :=
  λ σ, Ok () (with_trace (trace σ ++ [e]) σ).

(** [LF_ASSERT]: a failed assertion stops the program. *)
Definition lf_assert (a : assertion) (b : bool) : M unit :=
  if b then mret () else throw (assertion_failed a).

Definition get_frame (p : frame_ptr) : M frame :=
  λ σ, match frames σ !! p with
       | Some f => Ok f σ
       | None => Abort bad_pointer
       end.

Definition put_frame (p : frame_ptr) (f : frame) : M unit :=
  λ σ, Ok () (with_frames (<[p:=f]> (frames σ)) σ).

Definition get_worker (me : nat) : M worker :=
  λ σ, match workers σ !! me with
       | Some w => Ok w σ
       | None => Abort bad_pointer
       end.

Definition put_worker (me : nat) (w : worker) : M unit :=
  λ σ, Ok () (with_workers (<[me:=w]> (workers σ)) σ).

Definition with_deque (d : list frame_ptr) (w : worker) : worker :=
  {| w_deque := d; w_asp := w_asp w; w_status := w_status w |}.

Definition with_asp (s : stack_ptr) (w : worker) : worker :=
  {| w_deque := w_deque w; w_asp := s; w_status := w_status w |}.

Definition with_status (s : status) (w : worker) : worker :=
  {| w_deque := w_deque w; w_asp := w_asp w; w_status := s |}.

(** ** The control block *)

(** Modelled from the spec: the member functions of [frame_block] that the
    promise calls.  [steals] reads the steal counter, [load_joins] and
    [fetch_sub_joins] are the atomic operations on the join counter (the
    latter returns the value before the subtraction), [reset] restores
    [steals = 0] and [joins = k_u32_max]. *)
Module frame_block.

Definition steals (p : frame_ptr) : M Z :=
  f ← get_frame p; mret (m_steal f).

Definition load_joins (p : frame_ptr) (o : memory_order) : M Z :=
  f ← get_frame p; emit (ev_load_joins p o);; mret (m_join f).

Definition fetch_sub_joins (p : frame_ptr) (n : Z) (o : memory_order) : M Z :=
  f ← get_frame p;
  emit (ev_fetch_sub_joins p n o);;
  put_frame p (with_join (u32_sub (m_join f) n) f);;
  mret (m_join f).

Definition reset (p : frame_ptr) : M unit :=
  f ← get_frame p;
  emit (ev_reset p);;
  put_frame p (with_steal 0 (with_join k_u32_max f)).

Definition top (p : frame_ptr) : M stack_ptr :=
  f ← get_frame p; mret (m_top f).

Definition parent (p : frame_ptr) : M (option frame_ptr) :=
  f ← get_frame p; mret (m_parent f).

Definition locale (p : frame_ptr) : M (bool * stack_ptr) :=
  f ← get_frame p; mret (is_root f, m_top f).

Definition debug_inc (p : frame_ptr) : M unit :=
  f ← get_frame p; put_frame p (with_count (m_count f + 1) f).

Definition debug_count (p : frame_ptr) : M Z :=
  f ← get_frame p; mret (m_count f).

Definition debug_reset (p : frame_ptr) : M unit :=
  f ← get_frame p; put_frame p (with_count 0 f).

Definition capture_exception (p : frame_ptr) : M unit :=
  f ← get_frame p; put_frame p (with_except (Some current_exception) f).

End frame_block.

(** Modelled from the spec: the thread-local active stack pointer and the
    worker context (deque of tasks, supply of fresh stacks). *)
Module tls.

Definition get_asp (me : nat) : M stack_ptr :=
  w ← get_worker me; mret (w_asp w).

Definition set_asp (me : nat) (s : stack_ptr) : M unit :=
  w ← get_worker me; emit (ev_set_asp s);; put_worker me (with_asp s w).

Definition push_asp (me : nat) (s : stack_ptr) : M unit :=
  w ← get_worker me; emit (ev_push_asp s);; put_worker me (with_asp s w).

End tls.

Module context.

Definition task_push (me : nat) (p : frame_ptr) : M unit :=
  w ← get_worker me;
  emit (ev_task_push p);;
  put_worker me (with_deque (p :: w_deque w) w).

Definition task_pop (me : nat) : M (option frame_ptr) :=
  w ← get_worker me;
  match w_deque w with
  | [] => emit (ev_task_pop None);; mret None
  | p :: d =>
      emit (ev_task_pop (Some p));;
      put_worker me (with_deque d w);;
      mret (Some p)
  end.

Definition stack_pop (me : nat) : M stack_ptr :=
  λ σ, Ok (next_stack σ)
          (with_trace (trace σ ++ [ev_stack_pop (next_stack σ)])
             (with_next_stack (S (next_stack σ)) σ)).

End context.

Definition atomic_thread_fence (o : memory_order) : M unit := emit (ev_fence o).

Definition semaphore_release : M unit :=
  λ σ, Ok () (with_trace (trace σ ++ [ev_semaphore_release])
                (with_semaphore (S (semaphore σ)) σ)).

(** [child.destroy()] frees the coroutine frame. *)
Definition coroutine_destroy (child : frame_ptr) : M unit :=
  λ σ, Ok () (with_trace (trace σ ++ [ev_destroy child])
                (with_frames (delete child (frames σ)) σ)).

(** [impl::destroy]: reads the parent of the child, then frees the child. *)
Definition destroy (child : frame_ptr) : M (option frame_ptr) :=
  parent ← frame_block.parent child;
  coroutine_destroy child;;
  mret parent.

(** ** [detail::join_awaitable] *)

Module join_awaitable.
Section join_awaitable.

Context (me : nat) (IsRoot : bool) (self : frame_ptr).

Definition take_stack_reset_control : M unit :=
s ← frame_block.steals self;
lf_assert assert_steals_nonzero (negb (s =? 0));;
(if negb IsRoot
 then t ← frame_block.top self; tls.push_asp me t
 else mret ());;
frame_block.reset self.

Definition await_ready : M bool :=
s ← frame_block.steals self;
if s =? 0 then mret true
else
j ← frame_block.load_joins self acquire;
let joined := u32_sub k_u32_max j in
s' ← frame_block.steals self;
if s' =? joined
then take_stack_reset_control;; mret true
else mret false.

Definition await_suspend (task : coroutine_handle) : M coroutine_handle :=
steals ← frame_block.steals self;
joined ← frame_block.fetch_sub_joins self (u32_sub k_u32_max steals) release;
if steals =? u32_sub k_u32_max joined
then
atomic_thread_fence acquire;;
take_stack_reset_control;;
mret task
else mret noop_coroutine.

Definition await_resume : M unit :=
s ← frame_block.steals self;
lf_assert assert_steals_zero (s =? 0);;
j ← frame_block.load_joins self relaxed;
lf_assert assert_joins_max (j =? k_u32_max);;
frame_block.debug_reset self;;
if negb IsRoot
then
t ← frame_block.top self;
a ← tls.get_asp me;
lf_assert assert_top_is_asp (t =? a)%nat
else mret ().

End join_awaitable.
End join_awaitable.

(** ** [detail::final_await_suspend] *)

Definition final_await_suspend (me : nat) (parent : frame_ptr) : M coroutine_handle :=
  _ ← get_worker me;
  popped ← context.task_pop me;
  match popped with
  | Some parent_task =>
      lf_assert assert_parent_task (parent_task =? parent)%nat;;
      mret (coro parent)
  | None =>
      '(is_root, top) ← frame_block.locale parent;
      old ← frame_block.fetch_sub_joins parent 1 release;
      if old =? 1
      then
        atomic_thread_fence acquire;;
        (if negb is_root
         then
           a ← tls.get_asp me;
           if negb (top =? a)%nat then tls.push_asp me top else mret ()
         else mret ());;
        frame_block.reset parent;;
        mret (coro parent)
      else
        (if negb is_root
         then
           a ← tls.get_asp me;
           if (top =? a)%nat
           then s ← context.stack_pop me; tls.set_asp me s
           else mret ()
         else mret ());;
        mret noop_coroutine
  end.

(** ** [promise_type] *)

Module promise_type.

Module final_awaitable.

Definition await_suspend (me : nat) (Tag : tag) (child : frame_ptr) : M coroutine_handle :=
  match Tag with
  | root =>
      semaphore_release;;
      destroy child;;
      mret noop_coroutine
  | call =>
      parent ← destroy child;
      match parent with
      | Some parent => mret (coro parent)
      | None => throw bad_pointer
      end
  | fork =>
      parent ← destroy child;
      match parent with
      | Some parent => final_await_suspend me parent
      | None => throw bad_pointer
      end
  end.

End final_awaitable.

(** [unhandled_exception] rethrows inside a [noexcept] call: the program
    is terminated. *)
Definition unhandled_exception {A} : M A := throw terminate.

Definition final_suspend (this : frame_ptr) : M unit :=
  c ← frame_block.debug_count this;
  lf_assert assert_debug_count (c =? 0);;
  s ← frame_block.steals this;
  lf_assert assert_steals_zero (s =? 0);;
  j ← frame_block.load_joins this relaxed;
  lf_assert assert_joins_max (j =? k_u32_max).

End promise_type.

(** [first_arg_t::stash_exception], with [LF_COMPILER_EXCEPTIONS]. *)
Module first_arg_t.

Definition stash_exception (m_frame : frame_ptr) : M unit :=
  frame_block.capture_exception m_frame.

End first_arg_t.

(** ** Packets and the await transforms *)

(** A packet: the tagged first argument, the return address and the body
    that the invocation will run. *)
Record packet := {
  p_tag : tag;
  p_ret : return_address;
  p_body : task
}.

(** [rewrite_tag]: the same head with [tag::call]. *)
Definition rewrite_tag (p : packet) : packet :=
  {| p_tag := call; p_ret := p_ret p; p_body := p_body p |}.

Inductive awaitable :=
| fork_awaitable (m_parent m_child : frame_ptr)
| call_awaitable (m_child : frame_ptr).

(** Modelled from the spec: [packet::invoke(parent)] creates the frame of
    the child, suspended at its initial suspend point, with [steals = 0] and
    [joins = k_u32_max]; the frame is allocated on the active stack of the
    creating worker. *)
Definition allocate (f : frame) : M frame_ptr :=
  λ σ, Ok (next_frame σ)
          (with_next_frame (S (next_frame σ))
             (with_frames (<[next_frame σ := f]> (frames σ)) σ)).

Definition invoke (me : nat) (parent : option frame_ptr) (p : packet) : M frame_ptr :=
  w ← get_worker me;
  allocate {| m_parent := parent; m_top := w_asp w; m_steal := 0;
              m_join := k_u32_max; m_count := 0; m_except := None;
              f_tag := p_tag p; f_ret := p_ret p;
              f_body := at_code (p_body p); f_locals := [] |}.

Module fork_awaitable_.

Definition await_suspend (me : nat) (m_parent m_child : frame_ptr) : M coroutine_handle :=
  frame_block.debug_inc m_parent;;
  let child := coro m_child in
  context.task_push me m_parent;;
  mret child.

End fork_awaitable_.

Module call_awaitable_.

Definition await_suspend (m_child : frame_ptr) : M coroutine_handle :=
  mret (coro m_child).

End call_awaitable_.

Section await_transform.

(** [single_thread_context<Context>]: [Context::max_threads() == 1]. *)
Context (single_thread_context : bool) (me : nat) (this : frame_ptr).

Definition await_transform_fork (p : packet) : M awaitable :=
  child ← invoke me (Some this) p; mret (fork_awaitable this child).

Definition await_transform_call (p : packet) : M awaitable :=
  child ← invoke me (Some this) p; mret (call_awaitable child).

(** Overload resolution: for a fork packet on a single-threaded context
    the constrained overload is chosen, which rewrites the tag and
    transforms the packet again. *)
Definition await_transform (p : packet) : M awaitable :=
  match p_tag p with
  | fork =>
      if single_thread_context
      then await_transform_call (rewrite_tag p)
      else await_transform_fork p
  | call => await_transform_call p
  | root => throw bad_pointer
  end.

End await_transform.

Definition awaitable_await_suspend (me : nat) (a : awaitable) : M coroutine_handle :=
  match a with
  | fork_awaitable m_parent m_child => fork_awaitable_.await_suspend me m_parent m_child
  | call_awaitable m_child => call_awaitable_.await_suspend m_child
  end.

(** ** Running coroutines *)

Definition set_status (me : nat) (s : status) : M unit :=
  w ← get_worker me; put_worker me (with_status s w).

Fixpoint read_locals (l : list (option Z)) : option (list Z) :=
  match l with
  | [] => Some []
  | Some v :: l => cons v <$> read_locals l
  | None :: _ => None
  end.

(** Modelled from the spec: [return_value] writes the value through the
    return address of the task: into the result block of the root, into the
    result local of a fork, or into the variable that the code after a call
    reads. *)
Definition set_root_result (v : Z) : M unit :=
  λ σ, Ok () (with_root_result (Some v) σ).

Definition return_value (p : frame_ptr) (v : Z) : M unit :=
  f ← get_frame p;
  match f_ret f, m_parent f with
  | ret_root, _ => set_root_result v
  | ret_local i, Some parent =>
      g ← get_frame parent;
      put_frame parent (with_locals (<[i:=Some v]> (f_locals g)) g)
  | ret_call, Some parent =>
      g ← get_frame parent;
      match f_body g with
      | at_call k => put_frame parent (with_body (at_code (k v)) g)
      | _ => throw bad_pointer
      end
  | _, None => throw bad_pointer
  end.

Definition tag_is_root (t : tag) : bool := bool_decide (t = root).

(** Symmetric transfer: the worker resumes the coroutine of the handle, or
    goes back to its executor loop.  A coroutine that is resumed at a join
    runs [await_resume] and goes on with the code after the join. *)
Definition transfer (me : nat) (h : coroutine_handle) : M unit :=
  match h with
  | noop_coroutine => set_status me idle
  | coro p =>
      f ← get_frame p;
      match f_body f with
      | at_code _ => set_status me (running p)
      | at_join k =>
          join_awaitable.await_resume me (tag_is_root (f_tag f)) p;;
          g ← get_frame p;
          match read_locals (f_locals g) with
          | Some rs =>
              put_frame p (with_body (at_code (k rs)) (with_locals [] g));;
              set_status me (running p)
          | None => throw bad_pointer
          end
      | at_call _ => throw bad_pointer
      end
  end.

Section run.

Context (single_thread_context : bool) (me : nat).

(** One stretch of a body, from a resume point to the next suspension. *)
Definition run_code (p : frame_ptr) (f : frame) (c : task) : M unit :=
  match c with
  | co_return v =>
      return_value p v;;
      promise_type.final_suspend p;;
      h ← promise_type.final_awaitable.await_suspend me (f_tag f) p;
      transfer me h
  | co_throw => promise_type.unhandled_exception
  | co_await_fork child k =>
      put_frame p (with_body (at_code k) (with_locals (f_locals f ++ [None]) f));;
      a ← await_transform single_thread_context me p
            {| p_tag := fork; p_ret := ret_local (length (f_locals f)); p_body := child |};
      h ← awaitable_await_suspend me a;
      transfer me h
  | co_await_call child k =>
      put_frame p (with_body (at_call k) f);;
      a ← await_transform single_thread_context me p
            {| p_tag := call; p_ret := ret_call; p_body := child |};
      h ← awaitable_await_suspend me a;
      transfer me h
  | co_await_join k =>
      ready ← join_awaitable.await_ready me (tag_is_root (f_tag f)) p;
      g ← get_frame p;
      put_frame p (with_body (at_join k) g);;
      if (ready : bool) then transfer me (coro p) else set_status me (suspending p)
  end.

Definition resume (p : frame_ptr) : M unit :=
  f ← get_frame p;
  match f_body f with
  | at_code c => run_code p f c
  | _ => throw bad_pointer
  end.

Definition finish_join (p : frame_ptr) : M unit :=
  f ← get_frame p;
  h ← join_awaitable.await_suspend me (tag_is_root (f_tag f)) p (coro p);
  transfer me h.

End run.

(** Thieves take the oldest entry of a deque. *)
Definition take_last (d : list frame_ptr) : option (frame_ptr * list frame_ptr) :=
  match reverse d with
  | [] => None
  | p :: r => Some (p, reverse r)
  end.

(** Modelled from the spec: [stack_for_steal], which the thief calls when
    it steals a continuation (the stack is not part of the sources at
    hand): the current segment of the victim becomes the active segment of
    the thief, and the victim swaps to a fresh segment. *)
Definition stack_for_steal (me victim : nat) : M unit :=
  v ← get_worker victim;
  tls.set_asp me (w_asp v);;
  s ← context.stack_pop victim;
  tls.set_asp victim s.

(** Modelled from the spec: a steal (the worker loops are not part of the
    sources at hand).  The oldest entry leaves the deque of the victim, the
    thief takes the stack, counts the steal in the stolen frame and resumes
    it. *)
Definition steal_from (me victim : nat) (p : frame_ptr) (d : list frame_ptr) : M unit :=
  v ← get_worker victim;
  put_worker victim (with_deque d v);;
  emit (ev_steal p);;
  stack_for_steal me victim;;
  f ← get_frame p;
  put_frame p (with_steal (u32_add (m_steal f) 1) f);;
  transfer me (coro p).

(** ** The scheduler *)

(** Modelled from the spec: the schedulers ([unit_pool], [busy_pool],
    [lazy_pool]) and their worker loops are not part of the sources at hand.
    What a scheduler lets happen next: a worker goes on with what it is
    doing, or an idle worker steals from a victim. *)
Inductive action :=
| act_step (me : nat)
| act_steal (me victim : nat).

(** [exec] is [None] when the action cannot happen in the state. *)
Definition exec (single_thread_context : bool) (a : action) (σ : state) : option (outcome unit) :=
  match a with
  | act_step me =>
      match workers σ !! me with
      | Some w =>
          match w_status w with
          | idle => None
          | running p => Some (resume single_thread_context me p σ)
          | suspending p => Some (finish_join me p σ)
          end
      | None => None
      end
  | act_steal me victim =>
      match workers σ !! me, workers σ !! victim with
      | Some w, Some v =>
          match w_status w, take_last (w_deque v) with
          | idle, Some (p, d) =>
              if bool_decide (me = victim) then None
              else Some (steal_from me victim p d σ)
          | _, _ => None
          end
      | _, _ => None
      end
  end.

(** A run under a schedule: actions that cannot happen are skipped. *)
Fixpoint run (single_thread_context : bool) (sched : list action) (σ : state) : outcome unit :=
  match sched with
  | [] => Ok () σ
  | a :: sched =>
      match exec single_thread_context a σ with
      | None => run single_thread_context sched σ
      | Some (Ok _ σ') => run single_thread_context sched σ'
      | Some (Abort why) => Abort why
      end
  end.

(** Modelled from the spec: [sync_wait] makes the root frame on the heap,
    submits it to a worker of the scheduler and waits on the semaphore of
    the root; when the semaphore has been released it returns the value of
    the root. *)
Definition initial_worker (i : nat) : worker :=
  {| w_deque := []; w_asp := i; w_status := idle |}.

Definition submit (nworkers first : nat) (c : task) : state :=
  {| frames := {[ 0%nat := {| m_parent := None; m_top := 0%nat; m_steal := 0;
                              m_join := k_u32_max; m_count := 0; m_except := None;
                              f_tag := root; f_ret := ret_root;
                              f_body := at_code c; f_locals := [] |} ]};
     workers := <[first := with_status (running 0%nat) (initial_worker first)]>
                  (initial_worker <$> seq 0 nworkers);
     semaphore := 0%nat;
     root_result := None;
     next_frame := 1%nat;
     next_stack := nworkers;
     trace := [] |}.

Definition sync_wait_result (σ : state) : option Z :=
  match semaphore σ with
  | O => None
  | S _ => root_result σ
  end.

(** ** Fibonacci *)

(** [fib] of the benchmark (the sequential baseline), with enough fuel for
    the recursion. *)
Fixpoint fib_rec (fuel : nat) (n : Z) : Z :=
  match fuel with
  | O => n
  | S fuel =>
      if n <? 2 then n
      else int_add (fib_rec fuel (int_sub n 1)) (fib_rec fuel (int_sub n 2))
  end.

Definition fib (n : Z) : Z := fib_rec (Z.to_nat n) n.

(** The async [fib] of the benchmark: fork [fib(n - 1)] into [a], call
    [fib(n - 2)] into [b], join, return [a + b]. *)
Fixpoint fib_task_rec (fuel : nat) (n : Z) : task :=
  match fuel with
  | O => co_return n
  | S fuel =>
      if n <? 2 then co_return n
      else
        co_await_fork (fib_task_rec fuel (int_sub n 1))
          (co_await_call (fib_task_rec fuel (int_sub n 2)) (λ b,
             co_await_join (λ locals,
               match locals with
               | [a] => co_return (int_add a b)
               | _ => co_throw
               end)))
  end.

Definition fib_task (n : Z) : task := fib_task_rec (Z.to_nat n) n.


(** Small states on which the statements below are tried. *)
Definition example_frame (steals joins : Z) (parent : option frame_ptr) : frame :=
  {| m_parent := parent; m_top := 7%nat; m_steal := steals; m_join := joins;
     m_count := 0; m_except := None; f_tag := fork; f_ret := ret_local 0;
     f_body := at_join (λ _, co_return 0); f_locals := [None] |}.

Definition example_state (steals joins : Z) (deque : list frame_ptr) : state :=
  {| frames := {[ 1%nat := example_frame steals joins (Some 0%nat) ]};
     workers := [ {| w_deque := deque; w_asp := 3%nat; w_status := idle |} ];
     semaphore := 0%nat; root_result := None;
     next_frame := 2%nat; next_stack := 9%nat; trace := [] |}.


(** * The in-place scan of the algorithm tests *)

Module scan.

(** A call returns, runs forever (the fuel of the model runs out) or goes
    through an iterator outside of the vector. *)
Inductive res (A : Type) :=
| Val (a : A)
| Diverge
| Fault.

Arguments Val {A} a.
Arguments Diverge {A}.
Arguments Fault {A}.

Definition bind {A B} (m : res A) (k : A → res B) : res B :=
  match m with
  | Val a => k a
  | Diverge => Diverge
  | Fault => Fault
  end.

Notation "x <- m ;; k" := (bind m (λ x, k))
  (at level 100, m at next level, right associativity).

(** Iterators are positions in the vector; [*it] and [*it = x]. *)
Definition deref (v : list Z) (it : Z) : option Z :=
  if decide (0 ≤ it) then v !! Z.to_nat it else None.

Definition load (v : list Z) (it : Z) : res Z :=
  match deref v it with
  | Some x => Val x
  | None => Fault
  end.

Definition store (v : list Z) (it : Z) (x : Z) : res (list Z) :=
  match deref v it with
  | Some _ => Val (<[Z.to_nat it := x]> v)
  | None => Fault
  end.

Definition bop (lhs rhs : Z) (v : list Z) : res (Z * list Z) :=
  l <- load v lhs ;;
  r <- load v rhs ;;
  v' <- store v rhs (int_add l r) ;;
  Val (rhs, v').

Fixpoint scan_up (fuel : nat) (beg end_ : Z) (v : list Z) : res (Z * list Z) :=
  match fuel with
  | O => Diverge
  | S fuel =>
      let size := end_ - beg in
      if size =? 1 then Val (beg, v)
      else if size =? 2 then bop beg (end_ - 1) v
      else
        let mid := beg + size ÷ 2 in
        r1 <- scan_up fuel beg mid v ;;
        r2 <- scan_up fuel mid end_ r1.2 ;;
        bop (mid - 1) (end_ - 1) r2.2
  end.

Fixpoint scan_down_r (fuel : nat) (beg end_ : Z) (v : list Z) : res (list Z) :=
  match fuel with
  | O => Diverge
  | S fuel =>
      let size := end_ - beg in
      if size =? 1 then Val v
      else if size =? 2 then
        x <- load v beg ;;
        y <- load v (beg - 1) ;;
        store v beg (int_add x y)
      else
        let mid := beg + size ÷ 2 in
        x <- load v (mid - 1) ;;
        y <- load v (beg - 1) ;;
        v1 <- store v (mid - 1) (int_add x y) ;;
        v2 <- scan_down_r fuel beg mid v1 ;;
        scan_down_r fuel mid end_ v2
  end.

Fixpoint scan_down_l (fuel : nat) (beg end_ : Z) (v : list Z) : res (list Z) :=
  match fuel with
  | O => Diverge
  | S fuel =>
      let size := end_ - beg in
      if (size =? 1) || (size =? 2) then Val v
      else
        let mid := beg + size ÷ 2 in
        v1 <- scan_down_l fuel beg mid v ;;
        scan_down_r fuel mid end_ v1
  end.

(** [scan(v.begin(), v.end())] *)
Definition scan (fuel : nat) (v : list Z) : res (list Z) :=
  r <- scan_up fuel 0 (Z.of_nat (length v)) v ;;
  scan_down_l fuel 0 (Z.of_nat (length v)) r.2.

End scan.



(** * What the scan should compute *)

Module scan_spec.

Import scan.

(** The sum of the [n] entries of the vector from position [b] on. *)
Fixpoint seg (orig : list Z) (n : nat) (b : Z) : Z :=
  match n with
  | O => 0
  | S n => default 0 (deref orig b) + seg orig n (b + 1)
  end.

Definition segsum (orig : list Z) (b e : Z) : Z := seg orig (Z.to_nat (e - b)) b.

Definition middle (b e : Z) : Z := b + (e - b) ÷ 2.

(** The state of the positions [b .. e - 2] after the up sweep over
    [b .. e - 1]: the last position of every left half holds the sum of
    that half. *)
Inductive upswept (orig v : list Z) : Z → Z → Prop :=
| upswept_1 b e : e - b = 1 → upswept orig v b e
| upswept_2 b e x :
    e - b = 2 → deref orig b = Some x → deref v b = Some x → upswept orig v b e
| upswept_n b e :
    3 ≤ e - b →
    upswept orig v b (middle b e) →
    deref v (middle b e - 1) = Some (wrap_int (segsum orig b (middle b e))) →
    upswept orig v (middle b e) e →
    upswept orig v b e.

(** The inclusive prefix sum from [base] up to position [i]. *)
Definition prefix (orig : list Z) (base i : Z) : Z :=
  wrap_int (segsum orig base (i + 1)).

End scan_spec.

Definition sumZ (l : list Z) : Z := foldr Z.add 0 l.

(** * The sequential meaning of a task and the invariant of the runtime *)

(** The value of a body run sequentially: a fork is a call, a join does
    nothing.  [locals] are the results of the forks since the last join. *)
Fixpoint sequential (c : task) (locals : list Z) : option Z :=
  match c with
  | co_return v => Some v
  | co_throw => None
  | co_await_fork child k =>
      match sequential child [] with
      | Some a => sequential k (locals ++ [a])
      | None => None
      end
  | co_await_call child k =>
      match sequential child [] with
      | Some b => sequential (k b) locals
      | None => None
      end
  | co_await_join k => sequential (k locals) []
  end.

(** A body is structured when no failure escapes it, every fork is joined
    before the task returns, and fewer than [k_u32_max] forks are made
    between two joins (the counters of the frame count them on 32 bits). *)
Fixpoint structured (c : task) (locals : list Z) : Prop :=
  match c with
  | co_return _ => locals = []
  | co_throw => False
  | co_await_fork child k =>
      Z.of_nat (length locals) + 1 < k_u32_max
      ∧ structured child []
      ∧ match sequential child [] with
        | Some a => structured k (locals ++ [a])
        | None => False
        end
  | co_await_call child k =>
      structured child []
      ∧ match sequential child [] with
        | Some b => structured (k b) locals
        | None => False
        end
  | co_await_join k => structured (k locals) []
  end.

(** A bound on the number of scheduler actions that a body can cause. *)
Fixpoint cost (c : task) (locals : list Z) : nat :=
  match c with
  | co_return _ => 1
  | co_throw => 0
  | co_await_fork child k =>
      2 + cost child [] + cost k (locals ++ [default 0 (sequential child [])])
  | co_await_call child k =>
      1 + cost child [] + cost (k (default 0 (sequential child []))) locals
  | co_await_join k => 3 + cost (k locals) []
  end.

(** The number of actions of a schedule that could happen when their turn
    came. *)
Fixpoint effective (single_thread_context : bool) (sched : list action) (σ : state) : nat :=
  match sched with
  | [] => 0
  | a :: sched =>
      match exec single_thread_context a σ with
      | None => effective single_thread_context sched σ
      | Some (Ok _ σ') => S (effective single_thread_context sched σ')
      | Some (Abort _) => 1
      end
  end.

(** ** What the runtime knows about a frame but does not store *)

(** Who will resume a frame next: the worker that runs it, the worker in
    whose deque it waits (for a pop or a steal), the child that returns
    straight into it, or the last of its stolen children. *)
Inductive mode :=
| own (w : nat)
| queued (w : nat)
| inline
| lost.

(** The value that the frame will return, the values that the locals of its
    forks will hold at the next join, and the value of the call it waits
    for. *)
Record ghost := {
  gv : Z;
  gl : list Z;
  gc : Z;
  gm : mode
}.

Definition with_mode (m : mode) (g : ghost) : ghost :=
  {| gv := gv g; gl := gl g; gc := gc g; gm := m |}.

#[export] Instance return_address_eq_dec : EqDecision return_address.
Proof. solve_decision. Defined.

#[export] Instance mode_eq_dec : EqDecision mode.
Proof. solve_decision. Defined.

Definition is_queued (m : mode) : bool :=
  match m with
  | queued _ => true
  | _ => false
  end.

(** The result locals that no child has written yet. *)
Fixpoint pending (l : list (option Z)) : nat :=
  match l with
  | [] => 0
  | None :: l => S (pending l)
  | Some _ :: l => pending l
  end.

Definition agrees (l : list (option Z)) (rs : list Z) : Prop :=
  length rs = length l ∧ ∀ i v, l !! i = Some (Some v) → rs !! i = Some v.

(** One for a frame whose latest child returns straight into it. *)
Definition inline_pending (f : frame) (g : ghost) : nat :=
  match gm g, f_body f with
  | queued _, _ => 1
  | inline, at_code _ => 1
  | _, _ => 0
  end.

(** The stolen children of the frame that still run. *)
Definition live (f : frame) (g : ghost) : Z :=
  Z.of_nat (pending (f_locals f)) - Z.of_nat (inline_pending f g).

Definition body_ok (b : body) (g : ghost) : Prop :=
  match b with
  | at_code c => structured c (gl g) ∧ sequential c (gl g) = Some (gv g)
  | at_call k =>
      structured (k (gc g)) (gl g) ∧ sequential (k (gc g)) (gl g) = Some (gv g)
  | at_join k =>
      structured (k (gl g)) [] ∧ sequential (k (gl g)) [] = Some (gv g)
  end.

(** The steal counter counts the stolen children of the frame since the
    last join; the join counter is [k_u32_max] minus the stolen children
    that have returned, until the frame loses the race at its join, and the
    number of stolen children that still run from then on. *)
Definition counters_ok (single : bool) (f : frame) (g : ghost) : Prop :=
  Z.of_nat (length (f_locals f)) < k_u32_max
  ∧ 0 ≤ live f g ≤ m_steal f
  ∧ m_steal f + Z.of_nat (inline_pending f g) ≤ Z.of_nat (length (f_locals f))
  ∧ (single = true → m_steal f = 0)
  ∧ m_count f = (if single then 0 else Z.of_nat (length (f_locals f)))
  ∧ match gm g with
    | lost => m_join f = live f g ∧ 1 ≤ live f g
    | _ => m_join f = k_u32_max - (m_steal f - live f g)
    end.

Definition mode_ok (single : bool) (f : frame) (g : ghost) : Prop :=
  match gm g, f_body f with
  | own _, at_code _ => True
  | own _, at_join _ => True
  | queued _, at_code _ => single = false ∧ f_locals f !! pred (length (f_locals f)) = Some None
  | inline, at_call _ => True
  | inline, at_code _ => single = true ∧ f_locals f !! pred (length (f_locals f)) = Some None
  | lost, at_join _ => True
  | _, _ => False
  end.

Definition tags_ok (single : bool) (f : frame) : Prop :=
  match f_tag f, f_ret f, m_parent f with
  | root, ret_root, None => True
  | call, ret_call, Some _ => True
  | call, ret_local _, Some _ => single = true
  | fork, ret_local _, Some _ => single = false
  | _, _, _ => False
  end.

Definition frame_ok (single : bool) (next : nat) (p : nat) (f : frame) (g : ghost) : Prop :=
  (p < next)%nat
  ∧ agrees (f_locals f) (gl g)
  ∧ body_ok (f_body f) g
  ∧ counters_ok single f g
  ∧ mode_ok single f g
  ∧ tags_ok single f.

(** A child returns straight into its parent when it was called, or when it
    was forked and the continuation of the parent is still in the deque. *)
Definition attached (fp : frame) (gp : ghost) (fc : frame) : bool :=
  match f_tag fc with
  | call => true
  | fork =>
      is_queued (gm gp)
      && bool_decide (f_ret fc = ret_local (pred (length (f_locals fp))))
  | root => false
  end.

Definition child_ok (stacks : bool) (H : gmap nat (frame * ghost)) (c : nat) (fc : frame)
    (gc_ : ghost) : Prop :=
  match m_parent fc with
  | None => True
  | Some p =>
      ∃ fp gp,
        H !! p = Some (fp, gp)
        ∧ (p < c)%nat
        ∧ match f_ret fc with
          | ret_local i =>
              f_locals fp !! i = Some None ∧ gl gp !! i = Some (gv gc_)
              ∧ (f_tag fc = call →
                 i = pred (length (f_locals fp)) ∧ ∃ k, f_body fp = at_code k)
          | ret_call => (∃ k, f_body fp = at_call k) ∧ gc gp = gv gc_
          | ret_root => False
          end
        ∧ (f_tag fc = call → gm gp = inline)
        ∧ (stacks = true → attached fp gp fc = true → f_tag fp ≠ root →
           m_steal fp = 0 → m_top fc = m_top fp)
  end.

Definition children_unique (H : gmap nat (frame * ghost)) : Prop :=
  ∀ c c' fc g fc' g' p,
    H !! c = Some (fc, g) → H !! c' = Some (fc', g') →
    m_parent fc = Some p → m_parent fc' = Some p →
    f_ret fc = f_ret fc' → c = c'.

Definition children_exist (H : gmap nat (frame * ghost)) : Prop :=
  ∀ p fp gp, H !! p = Some (fp, gp) →
    (∀ i, f_locals fp !! i = Some None →
       ∃ c fc g, H !! c = Some (fc, g) ∧ m_parent fc = Some p ∧ f_ret fc = ret_local i)
    ∧ ((∃ k, f_body fp = at_call k) →
       ∃ c fc g, H !! c = Some (fc, g) ∧ m_parent fc = Some p ∧ f_ret fc = ret_call).

(** One step up from a frame towards the root: the parent, and whether the
    parent waits in the deque for this child; no step from the root or from
    a stolen child. *)
Definition up (H : gmap nat (frame * ghost)) (c : nat) : option (nat * bool) :=
  match H !! c with
  | Some (fc, _) =>
      match m_parent fc with
      | Some p =>
          match H !! p with
          | Some (fp, gp) =>
              match f_tag fc with
              | call => Some (p, false)
              | fork => if attached fp gp fc then Some (p, true) else None
              | root => None
              end
          | None => None
          end
      | None => None
      end
  | None => None
  end.

(** The deque of the worker that runs a frame holds the parents that wait
    for a pop on the way up from the frame, the youngest first. *)
Inductive chain (H : gmap nat (frame * ghost)) : nat → list nat → Prop :=
| chain_stop c : up H c = None → chain H c []
| chain_call c p dq : up H c = Some (p, false) → chain H p dq → chain H c dq
| chain_fork c p dq : up H c = Some (p, true) → chain H p dq → chain H c (p :: dq).

Definition worker_ok (stacks : bool) (H : gmap nat (frame * ghost)) (w : nat)
    (wk : worker) : Prop :=
  (∀ q, q ∈ w_deque wk → ∃ fq gq, H !! q = Some (fq, gq) ∧ gm gq = queued w)
  ∧ match w_status wk with
    | idle => w_deque wk = []
    | running p =>
        ∃ f g, H !! p = Some (f, g) ∧ gm g = own w
               ∧ (∃ c, f_body f = at_code c)
               ∧ chain H p (w_deque wk)
               ∧ (stacks = true → f_tag f ≠ root → m_steal f = 0 →
                  w_asp wk = m_top f)
    | suspending p =>
        ∃ f g, H !! p = Some (f, g) ∧ gm g = own w
               ∧ (∃ k, f_body f = at_join k)
               ∧ m_steal f ≠ 0
               ∧ w_deque wk = []
    end.

Definition modes_ok (H : gmap nat (frame * ghost)) (ws : list worker) : Prop :=
  ∀ p f g, H !! p = Some (f, g) →
    match gm g with
    | own w =>
        ∃ wk, ws !! w = Some wk
              ∧ (w_status wk = running p ∨ w_status wk = suspending p)
    | queued w => ∃ wk, ws !! w = Some wk ∧ p ∈ w_deque wk
    | _ => True
    end.

Definition root_ok (V : Z) (H : gmap nat (frame * ghost)) (sem : nat) (res : option Z) : Prop :=
  (∀ p f g, H !! p = Some (f, g) → f_tag f = root → p = 0%nat)
  ∧ match H !! 0%nat with
    | Some (f, g) => f_tag f = root ∧ gv g = V ∧ sem = 0%nat ∧ res = None
    | None => H = ∅ ∧ sem = 1%nat ∧ res = Some V
    end.

Record invariant (stacks single : bool) (V : Z) (H : gmap nat (frame * ghost))
    (ws : list worker) (sem : nat) (res : option Z) (next : nat) : Prop := {
  inv_frames : ∀ p f g, H !! p = Some (f, g) → frame_ok single next p f g;
  inv_children : ∀ c fc g, H !! c = Some (fc, g) → child_ok stacks H c fc g;
  inv_unique : children_unique H;
  inv_exist : children_exist H;
  inv_workers : ∀ w wk, ws !! w = Some wk → worker_ok stacks H w wk;
  inv_modes : modes_ok H ws;
  inv_stolen : ∀ p f g, H !! p = Some (f, g) → m_steal f ≠ 0 → chain H p [];
  inv_root : root_ok V H sem res
}.

(** The actions that the frames and the workers can still cause. *)
Definition frame_cost (x : frame * ghost) : nat :=
  match f_body x.1 with
  | at_code c => cost c (gl x.2)
  | at_call k => cost (k (gc x.2)) (gl x.2)
  | at_join k => S (cost (k (gl x.2)) [])
  end.

Definition worker_cost (wk : worker) : nat :=
  length (w_deque wk)
  + match w_status wk with
    | suspending _ => 1
    | _ => 0
    end.

Definition heap_cost (H : gmap nat (frame * ghost)) : nat :=
  map_fold (λ _ x acc, frame_cost x + acc)%nat 0%nat H.

Definition potential (H : gmap nat (frame * ghost)) (ws : list worker) : nat :=
  (heap_cost H + sum_list (worker_cost <$> ws))%nat.

(** The state [σ] satisfies the invariant with at most [n] actions left;
    [V] is the value of the root.  With [stacks] every worker that runs a
    task is on the stack of that task; a steal hands the stack of the
    victim to the thief, and from then on this is not known. *)
Definition inv (stacks single : bool) (V : Z) (n : nat) (σ : state) : Prop :=
  ∃ H, frames σ = fst <$> H
       ∧ invariant stacks single V H (workers σ) (semaphore σ) (root_result σ) (next_frame σ)
       ∧ (potential H (workers σ) ≤ n)%nat.

(** * Definitions for the proofs about whole runs *)

(** The frame that [invoke] makes for a child, and what is known about a
    frame that has just been made. *)
Definition new_frame (parent : nat) (top : nat) (t : tag) (r : return_address)
    (c : task) : frame :=
  {| m_parent := Some parent; m_top := top; m_steal := 0; m_join := k_u32_max;
     m_count := 0; m_except := None; f_tag := t; f_ret := r;
     f_body := at_code c; f_locals := [] |}.

Definition new_ghost (v : Z) (w : nat) : ghost :=
  {| gv := v; gl := []; gc := 0; gm := own w |}.

(** The frame of the root that [submit] makes. *)
Definition root_frame (c : task) : frame :=
  {| m_parent := None; m_top := 0%nat; m_steal := 0; m_join := k_u32_max;
     m_count := 0; m_except := None; f_tag := root; f_ret := ret_root;
     f_body := at_code c; f_locals := [] |}.

(** The frame after its join. *)
Definition joined_frame (f : frame) (c : task) : frame :=
  with_body (at_code c) (with_locals [] (with_count 0 f)).

(** The outcome is a state with these frames, workers, semaphore, result
    of the root and next frame (the trace and the supply of stacks are
    left out). *)
Definition result (o : outcome unit) (fr : gmap nat frame) (ws : list worker)
    (sem : nat) (res : option Z) (next : nat) : Prop :=
  ∃ σ', o = Ok () σ' ∧ frames σ' = fr ∧ workers σ' = ws ∧ semaphore σ' = sem
        ∧ root_result σ' = res ∧ next_frame σ' = next.

(** An action went well: it did not fail, the state it left satisfies the
    invariant with less potential, and there are as many workers as
    before. *)
Definition progress (stacks single : bool) (V : Z) (n nw : nat) (o : outcome unit) : Prop :=
  ∃ σ' n', o = Ok () σ' ∧ inv stacks single V n' σ' ∧ (n' < n)%nat
           ∧ length (workers σ') = nw.

(** A scheduler that lets every worker go on in turn, and never steals. *)
Definition round_robin (nworkers rounds : nat) : list action :=
  concat (replicate rounds (act_step <$> seq 0 nworkers)).

(** The number of steals that happen in a run. *)
Fixpoint thefts (single_thread_context : bool) (sched : list action) (σ : state) : nat :=
  match sched with
  | [] => 0
  | a :: sched =>
      match exec single_thread_context a σ with
      | None => thefts single_thread_context sched σ
      | Some (Ok _ σ') =>
          match a with
          | act_step _ => thefts single_thread_context sched σ'
          | act_steal _ _ => S (thefts single_thread_context sched σ')
          end
      | Some (Abort _) => 0
      end
  end.

(** The run stopped at the check of the stack in [await_resume]. *)
Definition off_stack (o : outcome unit) : Prop :=
  o = Abort (assertion_failed assert_top_is_asp).


(** * Properties of the protocol functions *)

Ltac unfold_M :=
  unfold join_awaitable.await_ready, join_awaitable.await_suspend,
    join_awaitable.await_resume, join_awaitable.take_stack_reset_control,
    final_await_suspend, promise_type.final_awaitable.await_suspend,
    promise_type.final_suspend, destroy, coroutine_destroy,
    frame_block.steals, frame_block.load_joins, frame_block.fetch_sub_joins,
    frame_block.reset, frame_block.top, frame_block.parent, frame_block.locale,
    frame_block.debug_inc, frame_block.debug_count, frame_block.debug_reset,
    tls.get_asp, tls.set_asp, tls.push_asp, context.task_push, context.task_pop,
    context.stack_pop, atomic_thread_fence, semaphore_release, lf_assert,
    get_frame, put_frame, get_worker, put_worker, emit, throw,
    mbind, M_bind, mret, M_ret in *.

Ltac simpl_M :=
  unfold with_steal, with_join, with_count, with_except, with_body,
    with_locals, with_deque, with_asp, with_status;
  simpl.

Ltac run_M :=
  unfold_M; simpl_M;
  repeat (match goal with
          | H : frames _ !! _ = _ |- _ => rewrite H
          | H : workers _ !! _ = _ |- _ => rewrite H
          | H : w_deque _ = _ |- _ => rewrite H
          | |- _ => rewrite lookup_insert_eq
          | |- _ => rewrite Z.eqb_refl
          | |- _ => rewrite Nat.eqb_refl
          end; simpl_M).

Lemma u32_sub_small (a b : Z) : 0 ≤ a - b ≤ k_u32_max → u32_sub a b = a - b.
Proof.
  unfold u32_sub, wrap_u32, k_u32_max. intros H.
  apply Z.mod_small. lia.
Qed.

Lemma u32_add_small (a b : Z) : 0 ≤ a + b ≤ k_u32_max → u32_add a b = a + b.
Proof.
  unfold u32_add, wrap_u32, k_u32_max. intros H.
  apply Z.mod_small. lia.
Qed.

(** After the subtraction of [k_u32_max - steals] the counter that held
    [k_u32_max - joined] holds [steals - joined]. *)
Lemma rebase_joins (steals joined : Z) :
  0 ≤ joined ≤ steals → steals ≤ k_u32_max →
  u32_sub (k_u32_max - joined) (u32_sub k_u32_max steals) = steals - joined.
Proof.
  intros H1 H2.
  rewrite (u32_sub_small k_u32_max steals) by (unfold k_u32_max in *; lia).
  rewrite u32_sub_small; unfold k_u32_max in *; lia.
Qed.

(** C5: a join evaluated on a frame without steals is ready at once: no
    operation on the join counter, no reset, no change of the state at all. *)
Theorem join_ready_without_steals (me : nat) (IsRoot : bool) (self : frame_ptr)
    (σ : state) (f : frame) :
  frames σ !! self = Some f →
  m_steal f = 0 →
  join_awaitable.await_ready me IsRoot self σ = Ok true σ.
Proof.
  intros Hf Hs. unfold_M. rewrite Hf. simpl. rewrite Hs. reflexivity.
Qed.

Lemma join_ready_without_steals_witness :
  join_awaitable.await_ready 0 false 1 (example_state 0 k_u32_max [])
  = Ok true (example_state 0 k_u32_max []).
Proof.
  apply (join_ready_without_steals 0 false 1 _ (example_frame 0 k_u32_max (Some 0%nat)));
    reflexivity.
Defined.

(** C3: on the suspend path of a join the counter, which holds
    [k_u32_max - joined], gets one [fetch_sub] of [k_u32_max - steals] and
    then holds [steals - joined]; the parent resumes itself exactly when
    [steals] is [k_u32_max] minus the value that the [fetch_sub] returned,
    and otherwise leaves with the no-op handle and touches nothing else. *)
Theorem join_suspend_rebases_counter (me : nat) (IsRoot : bool) (self : frame_ptr)
    (task : coroutine_handle) (σ : state) (f : frame) (w : worker) (joined : Z) :
  frames σ !! self = Some f →
  workers σ !! me = Some w →
  1 ≤ m_steal f ≤ k_u32_max →
  0 ≤ joined ≤ m_steal f →
  m_join f = k_u32_max - joined →
  ∃ σ1,
    frame_block.fetch_sub_joins self (k_u32_max - m_steal f) release σ = Ok (m_join f) σ1
    ∧ frames σ1 !! self = Some (with_join (m_steal f - joined) f)
    ∧ trace σ1 = trace σ ++ [ev_fetch_sub_joins self (k_u32_max - m_steal f) release]
    ∧ if bool_decide (m_steal f = k_u32_max - m_join f)
      then ∃ σ2,
        join_awaitable.await_suspend me IsRoot self task σ = Ok task σ2
        ∧ frames σ2 !! self = Some (with_steal 0 (with_join k_u32_max f))
        ∧ trace σ2 = trace σ1 ++ [ev_fence acquire]
                       ++ (if IsRoot then [] else [ev_push_asp (m_top f)])
                       ++ [ev_reset self]
      else join_awaitable.await_suspend me IsRoot self task σ = Ok noop_coroutine σ1.
Proof.
  intros Hf Hw Hs Hj Hjoin.
  assert (Hn : u32_sub k_u32_max (m_steal f) = k_u32_max - m_steal f)
    by (apply u32_sub_small; lia).
  assert (Hr : u32_sub (m_join f) (k_u32_max - m_steal f) = m_steal f - joined).
  { rewrite Hjoin, <- Hn. apply rebase_joins; lia. }
  assert (Hb : u32_sub k_u32_max (m_join f) = k_u32_max - m_join f)
    by (apply u32_sub_small; lia).
  assert (Hz : (m_steal f =? 0) = false) by (apply Z.eqb_neq; lia).
  eexists. split.
  { run_M. reflexivity. }
  split. { simpl. rewrite lookup_insert_eq, Hr. reflexivity. }
  split. { reflexivity. }
  case_bool_decide as Hwin.
  - destruct IsRoot; eexists; (split; [|split]).
    1, 4: run_M; rewrite Hn, Hb, (proj2 (Z.eqb_eq _ _) Hwin);
          run_M; rewrite Hz; run_M; reflexivity.
    all: simpl; rewrite ?lookup_insert_eq, <- ?app_assoc; reflexivity.
  - run_M. rewrite Hn, Hb.
    destruct (m_steal f =? k_u32_max - m_join f) eqn:E;
      [apply Z.eqb_eq in E; contradiction|]. reflexivity.
Qed.

Lemma join_suspend_rebases_counter_witness :
  ∃ σ1,
    frame_block.fetch_sub_joins 1 (k_u32_max - 2) release
      (example_state 2 (k_u32_max - 1) []) = Ok (k_u32_max - 1) σ1
    ∧ frames σ1 !! 1%nat
      = Some (with_join (2 - 1) (example_frame 2 (k_u32_max - 1) (Some 0%nat)))
    ∧ trace σ1 = [ev_fetch_sub_joins 1 (k_u32_max - 2) release]
    ∧ join_awaitable.await_suspend 0 false 1 (coro 1)
        (example_state 2 (k_u32_max - 1) []) = Ok noop_coroutine σ1.
Proof.
  destruct (join_suspend_rebases_counter 0 false 1 (coro 1)
              (example_state 2 (k_u32_max - 1) [])
              (example_frame 2 (k_u32_max - 1) (Some 0%nat))
              {| w_deque := []; w_asp := 3%nat; w_status := idle |} 1)
    as (σ1 & H1 & H2 & H3 & H4);
    [reflexivity | reflexivity | simpl; unfold k_u32_max; lia
    | simpl; lia | reflexivity |].
  exists σ1. repeat split; assumption.
Defined.

(** C4: the final suspend of a forked task.  When the continuation of the
    parent is popped from the deque of the worker, the parent is resumed and
    its frame is not touched.  Otherwise the join counter of the parent is
    decremented by one, and the parent is resumed (after an acquire fence,
    after the stack of the parent has been taken when the worker is not on
    it, and after the reset of the parent) exactly when the decrement
    returned one; in the other case the worker gets the no-op handle. *)
Theorem final_suspend_of_fork (me : nat) (parent : frame_ptr) (σ : state)
    (w : worker) (f : frame) :
  workers σ !! me = Some w →
  frames σ !! parent = Some f →
  (∀ d, w_deque w = parent :: d →
     final_await_suspend me parent σ
     = Ok (coro parent)
         (with_workers (<[me:=with_deque d w]> (workers σ))
            (with_trace (trace σ ++ [ev_task_pop (Some parent)]) σ)))
  ∧ (w_deque w = [] →
     ∃ σ1,
       frame_block.fetch_sub_joins parent 1 release
         (with_trace (trace σ ++ [ev_task_pop None]) σ) = Ok (m_join f) σ1
       ∧ trace σ1 = trace σ ++ [ev_task_pop None; ev_fetch_sub_joins parent 1 release]
       ∧ if bool_decide (m_join f = 1)
         then ∃ σ2,
           final_await_suspend me parent σ = Ok (coro parent) σ2
           ∧ frames σ2 !! parent = Some (with_steal 0 (with_join k_u32_max f))
           ∧ trace σ2 = trace σ1 ++ [ev_fence acquire]
                 ++ (if negb (is_root f) && negb (m_top f =? w_asp w)%nat
                     then [ev_push_asp (m_top f)] else [])
                 ++ [ev_reset parent]
         else ∃ σ3,
           final_await_suspend me parent σ = Ok noop_coroutine σ3
           ∧ frames σ3 !! parent = Some (with_join (u32_sub (m_join f) 1) f)).
Proof.
  intros Hw Hf. split.
  - intros d Hd. run_M. reflexivity.
  - intros Hd. eexists. split; [run_M; reflexivity|].
    split; [simpl; rewrite <- app_assoc; reflexivity|].
    case_bool_decide as Hone.
    + destruct (is_root f) eqn:Hr; [|destruct (m_top f =? w_asp w)%nat eqn:Ht];
        eexists; (split; [|split]).
      1, 4, 7: run_M; rewrite Hr, Hone; run_M; rewrite ?Ht; run_M; reflexivity.
      all: simpl; rewrite ?lookup_insert_eq, <- ?app_assoc; reflexivity.
    + assert (Hne : (m_join f =? 1) = false) by (apply Z.eqb_neq; done).
      destruct (is_root f) eqn:Hr; [|destruct (m_top f =? w_asp w)%nat eqn:Ht];
        eexists; split.
      1, 3, 5: run_M; rewrite Hr, Hne; run_M; rewrite ?Ht; run_M; reflexivity.
      all: simpl; rewrite ?lookup_insert_eq; reflexivity.
Qed.

Lemma final_suspend_of_fork_witness :
  final_await_suspend 0 1 (example_state 0 k_u32_max [1%nat])
  = Ok (coro 1)
      (with_workers
         (<[0%nat:=with_deque [] {| w_deque := [1%nat]; w_asp := 3%nat; w_status := idle |}]>
            (workers (example_state 0 k_u32_max [1%nat])))
         (with_trace [ev_task_pop (Some 1%nat)] (example_state 0 k_u32_max [1%nat]))).
Proof.
  apply (proj1 (final_suspend_of_fork 0 1 (example_state 0 k_u32_max [1%nat])
                 {| w_deque := [1%nat]; w_asp := 3%nat; w_status := idle |}
                 (example_frame 0 k_u32_max (Some 0%nat)) eq_refl eq_refl) []).
  reflexivity.
Defined.

(** C9: the final suspend of a called task frees the frame of the child
    and returns the handle of the parent: the frame of the parent, its join
    counter included, the deques and the active stack pointers of the
    workers are left as they were, and the only mark in the trace is the
    destruction of the child. *)
Theorem final_suspend_of_call (me : nat) (child parent : frame_ptr) (σ : state)
    (f : frame) :
  frames σ !! child = Some f →
  m_parent f = Some parent →
  promise_type.final_awaitable.await_suspend me call child σ
  = Ok (coro parent)
      (with_trace (trace σ ++ [ev_destroy child])
         (with_frames (delete child (frames σ)) σ)).
Proof.
  intros Hf Hp. run_M. rewrite Hp. reflexivity.
Qed.

Lemma final_suspend_of_call_witness :
  promise_type.final_awaitable.await_suspend 0 call 1 (example_state 0 k_u32_max [])
  = Ok (coro 0)
      (with_trace [ev_destroy 1%nat]
         (with_frames (delete 1%nat (frames (example_state 0 k_u32_max [])))
            (example_state 0 k_u32_max []))).
Proof.
  apply (final_suspend_of_call 0 1 0 (example_state 0 k_u32_max [])
           (example_frame 0 k_u32_max (Some 0%nat))); reflexivity.
Defined.

(** * The scan computes inclusive prefix sums *)

Module scan_facts.
Import scan.
Import scan_spec.

#[local] Arguments deref : simpl never.
#[local] Arguments load : simpl never.
#[local] Arguments store : simpl never.
#[local] Arguments bop : simpl never.

Lemma wrap_int_id (z : Z) : is_int z → wrap_int z = z.
Proof.
  unfold is_int, wrap_int. intros H.
  rewrite Z.mod_small; lia.
Qed.

Lemma wrap_int_add_l (a b : Z) : wrap_int (wrap_int a + b) = wrap_int (a + b).
Proof.
  unfold wrap_int. f_equal.
  replace ((a + 2147483648) `mod` 4294967296 - 2147483648 + b + 2147483648)
    with ((a + 2147483648) `mod` 4294967296 + b) by lia.
  rewrite Zplus_mod_idemp_l. f_equal. lia.
Qed.

Lemma wrap_int_add_r (a b : Z) : wrap_int (a + wrap_int b) = wrap_int (a + b).
Proof. rewrite Z.add_comm, wrap_int_add_l. f_equal. lia. Qed.

Lemma deref_Some (v : list Z) (i x : Z) :
  deref v i = Some x → 0 ≤ i < Z.of_nat (length v).
Proof.
  unfold deref. case_decide as Hd; [|done].
  intros Hl%lookup_lt_Some. lia.
Qed.

Lemma deref_is_Some (v : list Z) (i : Z) :
  0 ≤ i < Z.of_nat (length v) → is_Some (deref v i).
Proof.
  intros Hi. unfold deref. case_decide as Hd; [|lia].
  apply lookup_lt_is_Some. lia.
Qed.

Lemma deref_insert (v : list Z) (i j x : Z) :
  is_Some (deref v i) →
  deref (<[Z.to_nat i := x]> v) j = if decide (i = j) then Some x else deref v j.
Proof.
  intros [y Hy]. pose proof (deref_Some _ _ _ Hy) as Hi.
  unfold deref. case_decide as Hj.
  - case_decide as Hij.
    + subst j. apply list_lookup_insert_eq. lia.
    + apply list_lookup_insert_ne. lia.
  - case_decide; [lia|done].
Qed.

Lemma seg_app (orig : list Z) (n m : nat) (b : Z) :
  seg orig (n + m) b = seg orig n b + seg orig m (b + Z.of_nat n).
Proof.
  revert b. induction n as [|n IH]; intros b.
  - simpl. rewrite Z.add_0_r. lia.
  - change (S n + m)%nat with (S (n + m)). cbn [seg]. rewrite IH.
    replace (b + 1 + Z.of_nat n) with (b + Z.of_nat (S n)) by lia. lia.
Qed.

Lemma segsum_split (orig : list Z) (b m e : Z) :
  b ≤ m ≤ e → segsum orig b e = segsum orig b m + segsum orig m e.
Proof.
  intros H. unfold segsum.
  replace (Z.to_nat (e - b)) with (Z.to_nat (m - b) + Z.to_nat (e - m))%nat by lia.
  rewrite seg_app. do 2 f_equal. lia.
Qed.

Lemma segsum_one (orig : list Z) (b x : Z) :
  deref orig b = Some x → segsum orig b (b + 1) = x.
Proof.
  intros H. unfold segsum.
  replace (Z.to_nat (b + 1 - b)) with 1%nat by lia.
  simpl. rewrite H. simpl. lia.
Qed.

Lemma middle_bounds (b e : Z) :
  3 ≤ e - b → b + 1 ≤ middle b e ∧ middle b e + 2 ≤ e.
Proof.
  intros H. unfold middle.
  rewrite Z.quot_div_nonneg by lia.
  pose proof (Z.div_mod (e - b) 2 ltac:(lia)).
  pose proof (Z.mod_pos_bound (e - b) 2 ltac:(lia)).
  lia.
Qed.

Lemma upswept_ext (orig v v' : list Z) (b e : Z) :
  (∀ i, b ≤ i < e - 1 → deref v' i = deref v i) →
  upswept orig v b e → upswept orig v' b e.
Proof.
  intros Hag Hup. induction Hup as [b e H1|b e x H2 Ho Hv|b e H3 Hl IHl Hm Hr IHr].
  - by apply upswept_1.
  - apply (upswept_2 _ _ _ _ x); [done..|]. rewrite Hag; [done|lia].
  - pose proof (middle_bounds b e H3).
    apply upswept_n; [done| | |].
    + apply IHl. intros i Hi. apply Hag. lia.
    + rewrite Hag; [done|lia].
    + apply IHr. intros i Hi. apply Hag. lia.
Qed.

Section sweep.

Context (orig : list Z) (Hint : Forall is_int orig).

Lemma orig_is_int (i x : Z) : deref orig i = Some x → wrap_int x = x.
Proof using Hint.
  unfold deref. case_decide as Hd; [|done]. intros Hl.
  apply wrap_int_id. eapply Forall_lookup_1; eauto.
Qed.

Lemma scan_up_spec (fuel : nat) (b e : Z) (v : list Z) :
  0 ≤ b → 1 ≤ e - b → e - b ≤ Z.of_nat fuel → e ≤ Z.of_nat (length v) →
  length v = length orig →
  (∀ i, b ≤ i < e → deref v i = deref orig i) →
  ∃ v', scan_up fuel b e v = Val (e - 1, v')
        ∧ length v' = length v
        ∧ (∀ i, i < b ∨ e ≤ i → deref v' i = deref v i)
        ∧ upswept orig v' b e
        ∧ deref v' (e - 1) = Some (wrap_int (segsum orig b e)).
Proof using Hint.
  revert b e v. induction fuel as [|fuel IH]; intros b e v Hb Hs Hf He Hlen Hag; [lia|].
  simpl. destruct (Z.eqb_spec (e - b) 1) as [H1|H1].
  { exists v. replace (e - 1) with b by lia.
    destruct (deref_is_Some v b ltac:(lia)) as [x Hx].
    split_and!; [done..| |].
    - by apply upswept_1.
    - rewrite Hx. f_equal. rewrite Hag in Hx by lia.
      replace e with (b + 1) by lia.
      rewrite (segsum_one _ _ _ Hx). symmetry. by eapply orig_is_int. }
  destruct (Z.eqb_spec (e - b) 2) as [H2|H2].
  { assert (e = b + 1 + 1) as -> by lia.
    replace (b + 1 + 1 - 1) with (b + 1) by lia.
    destruct (deref_is_Some v b ltac:(lia)) as [x Hx].
    destruct (deref_is_Some v (b + 1) ltac:(lia)) as [y Hy].
    unfold bop, load, store. rewrite Hx, Hy. simpl.
    eexists. split; [reflexivity|].
    split; [by rewrite length_insert|].
    split; [|split].
    - intros i Hi. rewrite deref_insert by eauto.
      case_decide; [lia|done].
    - apply (upswept_2 _ _ _ _ x); [lia| |].
      + rewrite <- Hag by lia. done.
      + rewrite deref_insert by eauto. case_decide; [lia|done].
    - rewrite deref_insert by eauto. case_decide; [|done].
      f_equal. unfold int_add. f_equal.
      rewrite (segsum_split orig b (b + 1) (b + 1 + 1)) by lia.
      rewrite Hag in Hx, Hy by lia.
      rewrite (segsum_one _ _ _ Hx), (segsum_one _ _ _ Hy). done. }
  fold (middle b e).
  pose proof (middle_bounds b e ltac:(lia)) as Hm.
  destruct (IH b (middle b e) v) as (v1 & E1 & L1 & F1 & U1 & S1); [lia..|done| |].
  { intros i Hi. apply Hag. lia. }
  rewrite E1. simpl.
  destruct (IH (middle b e) e v1) as (v2 & E2 & L2 & F2 & U2 & S2); [lia..|congruence| |].
  { intros i Hi. rewrite F1 by lia. apply Hag. lia. }
  rewrite E2. simpl.
  assert (Hl : deref v2 (middle b e - 1) = Some (wrap_int (segsum orig b (middle b e)))).
  { rewrite F2 by lia. done. }
  unfold bop, load, store. rewrite Hl, S2. simpl.
  eexists. split; [reflexivity|].
  split; [rewrite length_insert; congruence|].
  split; [|split].
  - intros i Hi. rewrite deref_insert by eauto.
    case_decide; [lia|]. rewrite F2, F1 by lia. done.
  - apply upswept_n; [lia| | |].
    + eapply upswept_ext; [|exact U1]. intros i Hi.
      rewrite deref_insert by eauto. case_decide; [lia|]. apply F2. lia.
    + rewrite deref_insert by eauto. case_decide; [lia|done].
    + eapply upswept_ext; [|exact U2]. intros i Hi.
      rewrite deref_insert by eauto. case_decide; [lia|]. done.
  - rewrite deref_insert by eauto. case_decide; [|done].
    f_equal. unfold int_add.
    rewrite wrap_int_add_l, wrap_int_add_r. f_equal.
    rewrite (segsum_split orig b (middle b e) e) by lia. done.
Qed.

Lemma scan_down_r_spec (fuel : nat) (base b e : Z) (v : list Z) :
  0 ≤ base → base < b → 1 ≤ e - b → e - b ≤ Z.of_nat fuel →
  e ≤ Z.of_nat (length v) → e ≤ Z.of_nat (length orig) →
  upswept orig v b e →
  deref v (b - 1) = Some (prefix orig base (b - 1)) →
  ∃ v', scan_down_r fuel b e v = Val v'
        ∧ length v' = length v
        ∧ (∀ i, i < b ∨ e - 1 ≤ i → deref v' i = deref v i)
        ∧ (∀ i, b ≤ i < e - 1 → deref v' i = Some (prefix orig base i)).
Proof using Hint.
  revert b e v. induction fuel as [|fuel IH];
    intros b e v Hbase Hb Hs Hf He Heo Hup Hprev; [lia|].
  simpl. destruct (Z.eqb_spec (e - b) 1) as [H1|H1].
  { exists v. split_and!; [done..|]. intros i Hi. lia. }
  destruct (Z.eqb_spec (e - b) 2) as [H2|H2].
  { inversion Hup as [? ? Hx|? ? x _ Ho Hv|? ? Hx]; subst; [lia| |lia].
    unfold load, store. rewrite Hv, Hprev. simpl.
    eexists. split; [reflexivity|].
    split; [by rewrite length_insert|]. split.
    - intros i Hi. rewrite deref_insert by eauto. case_decide; [lia|done].
    - intros i Hi. assert (i = b) as -> by lia.
      rewrite deref_insert by eauto. case_decide; [|done].
      f_equal. unfold int_add, prefix. rewrite wrap_int_add_r. f_equal.
      rewrite (segsum_split orig base b (b + 1)) by lia.
      rewrite (segsum_one _ _ _ Ho).
      replace (b - 1 + 1) with b by lia. lia. }
  inversion Hup as [? ? Hx|? ? x Hx|? ? H3 Ul Hm Ur]; subst; [lia..|].
  fold (middle b e).
  pose proof (middle_bounds b e H3) as Hmid.
  unfold load, store. rewrite Hm, Hprev. simpl.
  set (v1 := <[Z.to_nat (middle b e - 1) := _]> v).
  assert (Hv1 : ∀ j, deref v1 j
            = if decide (middle b e - 1 = j)
              then Some (prefix orig base (middle b e - 1)) else deref v j).
  { intros j. unfold v1. rewrite deref_insert by eauto.
    case_decide; [|done]. f_equal.
    unfold int_add, prefix. rewrite wrap_int_add_l, wrap_int_add_r. f_equal.
    replace (b - 1 + 1) with b by lia.
    replace (middle b e - 1 + 1) with (middle b e) by lia.
    rewrite (segsum_split orig base b (middle b e)) by lia. lia. }
  assert (L0 : length v1 = length v) by (unfold v1; by rewrite length_insert).
  destruct (IH b (middle b e) v1) as (v2 & E2 & L2 & F2 & P2); [lia..| | |].
  { eapply upswept_ext; [|exact Ul]. intros i Hi. rewrite Hv1.
    case_decide; [lia|done]. }
  { rewrite Hv1. case_decide; [lia|done]. }
  rewrite E2. simpl.
  destruct (IH (middle b e) e v2) as (v3 & E3 & L3 & F3 & P3); [lia..| | |].
  { eapply upswept_ext; [|exact Ur]. intros i Hi. rewrite F2 by lia.
    rewrite Hv1. case_decide; [lia|done]. }
  { rewrite F2 by lia. rewrite Hv1. case_decide; [done|lia]. }
  rewrite E3. eexists. split; [reflexivity|].
  split; [congruence|]. split.
  - intros i Hi. rewrite F3, F2 by lia. rewrite Hv1. case_decide; [lia|done].
  - intros i Hi. destruct (decide (i < middle b e - 1)) as [Hlt|Hge].
    + rewrite F3 by lia. apply P2. lia.
    + destruct (decide (i = middle b e - 1)) as [->|Hne].
      * rewrite F3, F2 by lia. rewrite Hv1. case_decide; [done|lia].
      * apply P3. lia.
Qed.

Lemma scan_down_l_spec (fuel : nat) (b e : Z) (v : list Z) :
  0 ≤ b → 1 ≤ e - b → e - b ≤ Z.of_nat fuel →
  e ≤ Z.of_nat (length v) → e ≤ Z.of_nat (length orig) →
  upswept orig v b e →
  ∃ v', scan_down_l fuel b e v = Val v'
        ∧ length v' = length v
        ∧ (∀ i, i < b ∨ e - 1 ≤ i → deref v' i = deref v i)
        ∧ (∀ i, b ≤ i < e - 1 → deref v' i = Some (prefix orig b i)).
Proof using Hint.
  revert b e v. induction fuel as [|fuel IH];
    intros b e v Hb Hs Hf He Heo Hup; [lia|].
  simpl. destruct (Z.eqb_spec (e - b) 1) as [H1|H1].
  { exists v. split_and!; [done..|]. intros i Hi. lia. }
  destruct (Z.eqb_spec (e - b) 2) as [H2|H2].
  { inversion Hup as [? ? Hx|? ? x _ Ho Hv|? ? Hx]; subst; [lia| |lia].
    exists v. split_and!; [done..|]. intros i Hi. assert (i = b) as -> by lia.
    rewrite Hv. f_equal. unfold prefix. rewrite (segsum_one _ _ _ Ho).
    symmetry. by eapply orig_is_int. }
  simpl.
  inversion Hup as [? ? Hx|? ? x Hx|? ? H3 Ul Hm Ur]; subst; [lia..|].
  fold (middle b e).
  pose proof (middle_bounds b e H3) as Hmid.
  destruct (IH b (middle b e) v) as (v1 & E1 & L1 & F1 & P1); [lia..|done|].
  rewrite E1. simpl.
  destruct (scan_down_r_spec fuel b (middle b e) e v1)
    as (v2 & E2 & L2 & F2 & P2); [lia..| | |].
  { eapply upswept_ext; [|exact Ur]. intros i Hi. apply F1. lia. }
  { rewrite F1 by lia. rewrite Hm. unfold prefix. do 3 f_equal. lia. }
  rewrite E2. eexists. split; [reflexivity|].
  split; [congruence|]. split.
  - intros i Hi. rewrite F2, F1 by lia. done.
  - intros i Hi. destruct (decide (i < middle b e - 1)) as [Hlt|Hge].
    + rewrite F2 by lia. apply P1. lia.
    + destruct (decide (i = middle b e - 1)) as [->|Hne].
      * rewrite F2, F1 by lia. rewrite Hm. unfold prefix. do 3 f_equal. lia.
      * apply P2. lia.
Qed.

End sweep.

(** More fuel does not change the result of a call that returns. *)
Lemma scan_up_fuel (fuel fuel' : nat) (b e : Z) (v : list Z) r :
  (fuel ≤ fuel')%nat → scan_up fuel b e v = Val r → scan_up fuel' b e v = Val r.
Proof.
  revert fuel' b e v r. induction fuel as [|fuel IH]; intros fuel' b e v r Hle; [done|].
  destruct fuel' as [|fuel']; [lia|]. simpl.
  destruct (e - b =? 1); [done|]. destruct (e - b =? 2); [done|].
  destruct (scan_up fuel b _ v) as [r1| |] eqn:E1; [|done..].
  rewrite (IH fuel' _ _ _ _ ltac:(lia) E1). simpl.
  destruct (scan_up fuel _ e r1.2) as [r2| |] eqn:E2; [|done..].
  rewrite (IH fuel' _ _ _ _ ltac:(lia) E2). done.
Qed.

Lemma scan_down_r_fuel (fuel fuel' : nat) (b e : Z) (v : list Z) r :
  (fuel ≤ fuel')%nat → scan_down_r fuel b e v = Val r → scan_down_r fuel' b e v = Val r.
Proof.
  revert fuel' b e v r. induction fuel as [|fuel IH]; intros fuel' b e v r Hle; [done|].
  destruct fuel' as [|fuel']; [lia|]. simpl.
  destruct (e - b =? 1); [done|]. destruct (e - b =? 2); [done|].
  destruct (load v _) as [x| |]; [|done..]. simpl.
  destruct (load v _) as [y| |]; [|done..]. simpl.
  destruct (store v _ _) as [v1| |]; [|done..]. simpl.
  destruct (scan_down_r fuel b _ v1) as [v2| |] eqn:E1; [|done..].
  rewrite (IH fuel' _ _ _ _ ltac:(lia) E1). simpl.
  apply IH. lia.
Qed.

Lemma scan_down_l_fuel (fuel fuel' : nat) (b e : Z) (v : list Z) r :
  (fuel ≤ fuel')%nat → scan_down_l fuel b e v = Val r → scan_down_l fuel' b e v = Val r.
Proof.
  revert fuel' b e v r. induction fuel as [|fuel IH]; intros fuel' b e v r Hle; [done|].
  destruct fuel' as [|fuel']; [lia|]. simpl.
  destruct ((e - b =? 1) || (e - b =? 2)); [done|].
  destruct (scan_down_l fuel b _ v) as [v1| |] eqn:E1; [|done..].
  rewrite (IH fuel' _ _ _ _ ltac:(lia) E1). simpl.
  apply scan_down_r_fuel. lia.
Qed.

Lemma scan_fuel (fuel fuel' : nat) (v r : list Z) :
  (fuel ≤ fuel')%nat → scan fuel v = Val r → scan fuel' v = Val r.
Proof.
  intros Hle. unfold scan.
  destruct (scan_up fuel 0 _ v) as [r1| |] eqn:E1; [|done..].
  rewrite (scan_up_fuel _ _ _ _ _ _ Hle E1). simpl.
  by apply scan_down_l_fuel.
Qed.

(** On the empty range every call runs out of fuel. *)
Lemma scan_up_empty (fuel : nat) (b : Z) (v : list Z) : scan_up fuel b b v = Diverge.
Proof.
  induction fuel as [|fuel IH]; [done|]. simpl.
  replace (b - b) with 0 by lia. simpl.
  replace (b + 0 `quot` 2) with b by (change (0 `quot` 2) with 0; lia).
  rewrite IH. done.
Qed.

End scan_facts.

Lemma seg_take_drop (orig : list Z) (n : nat) (b : Z) :
  0 ≤ b → b + Z.of_nat n ≤ Z.of_nat (length orig) →
  scan_spec.seg orig n b = sumZ (take n (drop (Z.to_nat b) orig)).
Proof.
  revert b. induction n as [|n IH]; intros b Hb Hn; [done|].
  destruct (scan_facts.deref_is_Some orig b ltac:(lia)) as [x Hx].
  cbn [scan_spec.seg]. rewrite Hx, IH by lia.
  unfold scan.deref in Hx. case_decide; [|done].
  rewrite (drop_S _ _ _ Hx). simpl.
  replace (Z.to_nat (b + 1)) with (S (Z.to_nat b)) by lia. done.
Qed.

Lemma sumZ_take_ones (n i : nat) :
  (i < n)%nat → sumZ (take (S i) (replicate n 1)) = Z.of_nat (S i).
Proof.
  revert n. induction i as [|i IH]; intros [|n] Hn; try lia.
  - simpl. destruct n; simpl; lia.
  - change (take (S (S i)) (replicate (S n) 1)) with (1 :: take (S i) (replicate n 1)).
    cbn [sumZ foldr]. fold (sumZ (take (S i) (replicate n 1))).
    rewrite IH by lia. lia.
Qed.

(** C10: [scan] returns on every vector of at least one [int] (it runs
    forever on the empty vector), and leaves at position [i] the sum of the
    entries [0 .. i] of the vector it was given, in the arithmetic of
    [int]; a vector of [n] ones becomes [1, 2, ..., n]. *)
Theorem scan_inclusive_prefix_sums :
  (∀ v : list Z,
     (1 ≤ length v)%nat → Forall is_int v →
     ∃ v',
       (∀ fuel, (length v ≤ fuel)%nat → scan.scan fuel v = scan.Val v')
       ∧ length v' = length v
       ∧ (∀ i, (i < length v)%nat →
            v' !! i = Some (wrap_int (sumZ (take (S i) v))))
       ∧ (∀ i, (i < length v)%nat → is_int (sumZ (take (S i) v)) →
            v' !! i = Some (sumZ (take (S i) v))))
  ∧ (∀ n fuel, (1 ≤ n)%nat → Z.of_nat n ≤ 2147483647 → (n ≤ fuel)%nat →
       scan.scan fuel (replicate n 1) = scan.Val (Z.of_nat <$> seq 1 n)).
Proof.
  assert (Hmain : ∀ v : list Z,
     (1 ≤ length v)%nat → Forall is_int v →
     ∃ v',
       (∀ fuel, (length v ≤ fuel)%nat → scan.scan fuel v = scan.Val v')
       ∧ length v' = length v
       ∧ (∀ i, (i < length v)%nat →
            v' !! i = Some (wrap_int (sumZ (take (S i) v))))).
  { intros v Hlen Hint.
    destruct (scan_facts.scan_up_spec v Hint (length v) 0 (Z.of_nat (length v)) v)
      as (v1 & E1 & L1 & F1 & U1 & S1); [lia..|done|done|].
    destruct (scan_facts.scan_down_l_spec v Hint (length v) 0 (Z.of_nat (length v)) v1)
      as (v2 & E2 & L2 & F2 & P2); [lia..|done|].
    exists v2. split; [|split; [congruence|]].
    - intros fuel Hfuel. apply (scan_facts.scan_fuel (length v)); [done|].
      unfold scan.scan. rewrite E1. simpl. done.
    - intros i Hi.
      assert (Hd : scan.deref v2 (Z.of_nat i)
                   = Some (wrap_int (scan_spec.segsum v 0 (Z.of_nat i + 1)))).
      { destruct (decide (Z.of_nat i < Z.of_nat (length v) - 1)) as [Hlt|Hge].
        - rewrite P2 by lia. done.
        - rewrite F2 by lia. replace (Z.of_nat i) with (Z.of_nat (length v) - 1) by lia.
          rewrite S1. do 3 f_equal. lia. }
      unfold scan.deref in Hd. case_decide; [|lia].
      rewrite Nat2Z.id in Hd. rewrite Hd. do 2 f_equal.
      unfold scan_spec.segsum. rewrite seg_take_drop by lia.
      simpl. rewrite drop_0. f_equal. f_equal. lia. }
  split.
  - intros v Hlen Hint. destruct (Hmain v Hlen Hint) as (v' & Hrun & Hl & Hsum).
    exists v'. split_and!; [done..|].
    intros i Hi Hfit. rewrite Hsum by done. f_equal.
    by apply scan_facts.wrap_int_id.
  - intros n fuel Hn Hmax Hfuel.
    destruct (Hmain (replicate n 1)) as (v' & Hrun & Hl & Hsum).
    { rewrite length_replicate. lia. }
    { apply Forall_replicate. unfold is_int. lia. }
    rewrite length_replicate in *. rewrite Hrun by done. f_equal.
    apply list_eq. intros i. rewrite list_lookup_fmap.
    destruct (decide (i < n)%nat) as [Hi|Hi].
    + rewrite Hsum by done. rewrite lookup_seq_lt by done. simpl.
      rewrite sumZ_take_ones by done. f_equal.
      rewrite scan_facts.wrap_int_id; [lia|]. unfold is_int. lia.
    + rewrite lookup_seq_ge by lia. simpl.
      apply lookup_ge_None. lia.
Qed.

Lemma scan_inclusive_prefix_sums_witness :
  (∃ v',
     (∀ fuel, (3 ≤ fuel)%nat → scan.scan fuel [3; -1; 4] = scan.Val v')
     ∧ length v' = 3%nat
     ∧ (∀ i, (i < 3)%nat → v' !! i = Some (wrap_int (sumZ (take (S i) [3; -1; 4]))))
     ∧ (∀ i, (i < 3)%nat → is_int (sumZ (take (S i) [3; -1; 4])) →
          v' !! i = Some (sumZ (take (S i) [3; -1; 4]))))
  ∧ scan.scan 5 (replicate 5 1) = scan.Val (Z.of_nat <$> seq 1 5).
Proof.
  split.
  - apply (proj1 scan_inclusive_prefix_sums [3; -1; 4]).
    + simpl. lia.
    + repeat constructor; unfold is_int; lia.
  - apply (proj2 scan_inclusive_prefix_sums 5%nat 5%nat); lia.
Defined.

(** [scan] on the empty vector does not return. *)
Lemma scan_empty_diverges (fuel : nat) : scan.scan fuel [] = scan.Diverge.
Proof. unfold scan.scan. simpl. by rewrite scan_facts.scan_up_empty. Qed.


Example scan5 : scan.scan 5 [1;1;1;1;1] = scan.Val [1;2;3;4;5].
Proof. reflexivity. Qed.
Example scan7 : scan.scan 7 [3;-1;4;1;-5;9;2] = scan.Val [3;2;6;7;2;11;13].
Proof. reflexivity. Qed.
Example scan0 : scan.scan 100 [] = scan.Diverge.
Proof. reflexivity. Qed.
Example scan11 : scan.scan 4 (replicate 11 1) = scan.Val (Z.of_nat <$> seq 1 11).
Proof. reflexivity. Qed.

(** * The runtime keeps its invariant *)

(** ** Locals *)

Lemma pending_app (l1 l2 : list (option Z)) :
  pending (l1 ++ l2) = (pending l1 + pending l2)%nat.
Proof.
  induction l1 as [|[x|] l1 IH]; simpl; [done|done|]. by rewrite IH.
Qed.

Lemma pending_le_length (l : list (option Z)) : (pending l ≤ length l)%nat.
Proof. induction l as [|[x|] l IH]; simpl; lia. Qed.

Lemma pending_insert (l : list (option Z)) (i : nat) (v : Z) :
  l !! i = Some None →
  S (pending (<[i:=Some v]> l)) = pending l.
Proof.
  revert i. induction l as [|x l IH]; intros [|i] Hi; simpl in *; try done.
  - by injection Hi as ->.
  - destruct x; simpl; rewrite <- (IH i Hi); done.
Qed.

Lemma pending_lookup (l : list (option Z)) (i : nat) :
  l !! i = Some None → (1 ≤ pending l)%nat.
Proof.
  intros Hi. pose proof (pending_insert l i 0 Hi). lia.
Qed.

Lemma pending_exists (l : list (option Z)) :
  (1 ≤ pending l)%nat → ∃ i, l !! i = Some None.
Proof.
  induction l as [|[x|] l IH]; simpl; intros Hp; [lia| |].
  - destruct (IH Hp) as [i Hi]. by exists (S i).
  - by exists 0%nat.
Qed.

Lemma pending_two (l : list (option Z)) (i j : nat) :
  l !! i = Some None → l !! j = Some None → i ≠ j → (2 ≤ pending l)%nat.
Proof.
  intros Hi Hj Hne.
  pose proof (pending_insert l i 0 Hi) as H1.
  assert (Hj' : <[i:=Some 0]> l !! j = Some None)
    by (rewrite list_lookup_insert_ne; done).
  pose proof (pending_lookup _ _ Hj'). lia.
Qed.

Lemma read_locals_agrees (l : list (option Z)) (rs : list Z) :
  agrees l rs → pending l = 0%nat → read_locals l = Some rs.
Proof.
  revert rs. induction l as [|[x|] l IH]; intros rs [Hlen Hag] Hp; simpl in *.
  - destruct rs; [done|]. simpl in Hlen. lia.
  - destruct rs as [|r rs]; [simpl in Hlen; lia|].
    pose proof (Hag 0%nat x eq_refl) as H0. simpl in H0. injection H0 as ->.
    rewrite (IH rs); [done| |done]. split; [simpl in Hlen; lia|].
    intros i v Hi. apply (Hag (S i) v Hi).
  - lia.
Qed.

Lemma agrees_nil : agrees [] [].
Proof. split; [done|]. intros i v Hi. done. Qed.

Lemma agrees_nil_inv (l : list (option Z)) : agrees l [] → l = [].
Proof. intros [Hlen _]. destruct l; [done|]. simpl in Hlen. lia. Qed.

Lemma agrees_snoc (l : list (option Z)) (rs : list Z) (a : Z) :
  agrees l rs → agrees (l ++ [None]) (rs ++ [a]).
Proof.
  intros [Hlen Hag]. split; [rewrite !length_app; simpl; lia|].
  intros i v Hi. apply lookup_app_Some in Hi as [Hi|[Hge Hi]].
  - apply lookup_app_l_Some. by apply Hag.
  - destruct (i - length l)%nat; simpl in Hi; done.
Qed.

Lemma agrees_insert (l : list (option Z)) (rs : list Z) (i : nat) (v : Z) :
  agrees l rs → rs !! i = Some v → agrees (<[i:=Some v]> l) rs.
Proof.
  intros [Hlen Hag] Hr. split; [by rewrite length_insert|].
  intros j u Hj. destruct (decide (i = j)) as [->|Hne].
  - rewrite list_lookup_insert_eq in Hj; [congruence|].
    apply lookup_lt_Some in Hr. lia.
  - rewrite list_lookup_insert_ne in Hj by done. by apply Hag.
Qed.

Lemma lookup_last_snoc {A} (l : list A) (x : A) :
  (l ++ [x]) !! pred (length (l ++ [x])) = Some x.
Proof.
  rewrite length_app. simpl.
  replace (pred (length l + 1)) with (length l + 0)%nat by lia.
  by rewrite lookup_app_r, Nat.add_comm, Nat.add_sub by lia.
Qed.

(** ** Structured bodies *)

Lemma structured_sequential (c : task) (locals : list Z) :
  structured c locals → is_Some (sequential c locals).
Proof.
  revert locals. induction c as [v| |child IHc k IHk|child IHc k IHk|k IHk];
    intros locals Hs; simpl in *.
  - eauto.
  - done.
  - destruct Hs as (_ & _ & Hs). destruct (sequential child []); [|done]. by apply IHk.
  - destruct Hs as (_ & Hs). destruct (sequential child []); [|done]. by apply IHk.
  - by apply IHk.
Qed.

(** ** Chains *)

Section chains.

Context (H : gmap nat (frame * ghost)).

Lemma chain_inj (c : nat) (d1 d2 : list nat) :
  chain H c d1 → chain H c d2 → d1 = d2.
Proof.
  intros H1. revert d2. induction H1 as [c U|c p dq U _ IH|c p dq U _ IH];
    intros d2 H2; inversion H2 as [? U'|? p' ? U' C'|? p' ? U' C']; subst;
    rewrite U in U'; try done.
  - injection U' as <-. by apply IH.
  - injection U' as <-. f_equal. by apply IH.
Qed.

Lemma up_Some (c p : nat) (b : bool) :
  up H c = Some (p, b) →
  ∃ fc g fp gp, H !! c = Some (fc, g) ∧ m_parent fc = Some p
                ∧ H !! p = Some (fp, gp)
                ∧ (if b then f_tag fc = fork ∧ attached fp gp fc = true
                   else f_tag fc = call).
Proof.
  unfold up. destruct (H !! c) as [[fc g]|] eqn:Hc; [|done].
  destruct (m_parent fc) as [q|] eqn:Hp; [|done].
  destruct (H !! q) as [[fp gp]|] eqn:Hq; [|done].
  destruct (f_tag fc) eqn:Ht; [done| |].
  - intros [= <- <-]. eauto 10.
  - destruct (attached fp gp fc) eqn:Ha; [|done].
    intros [= <- <-]. exists fc, g, fp, gp. rewrite Ht. eauto.
Qed.

Lemma attached_fork_queued (fp : frame) (gp : ghost) (fc : frame) :
  f_tag fc = fork → attached fp gp fc = true →
  (∃ w, gm gp = queued w) ∧ f_ret fc = ret_local (pred (length (f_locals fp))).
Proof.
  unfold attached. intros ->. intros [Hq Hr%bool_decide_eq_true]%andb_prop.
  split; [|done]. destruct (gm gp); try done. eauto.
Qed.

Lemma chain_lt {stacks : bool} (c : nat) (dq : list nat) :
  (∀ x fx gx, H !! x = Some (fx, gx) → child_ok stacks H x fx gx) →
  chain H c dq → ∀ q, q ∈ dq → (q < c)%nat.
Proof.
  intros Hch Hc. induction Hc as [c U|c p dq U _ IH|c p dq U _ IH]; intros q Hq.
  - by apply elem_of_nil in Hq.
  - apply up_Some in U as (fc & g & fp & gp & Hc & Hp & _).
    specialize (Hch c fc g Hc). unfold child_ok in Hch. rewrite Hp in Hch.
    destruct Hch as (? & ? & _ & Hlt & _). specialize (IH q Hq). lia.
  - apply up_Some in U as (fc & g & fp & gp & Hc & Hp & _).
    specialize (Hch c fc g Hc). unfold child_ok in Hch. rewrite Hp in Hch.
    destruct Hch as (? & ? & _ & Hlt & _).
    apply elem_of_cons in Hq as [->|Hq]; [done|]. specialize (IH q Hq). lia.
Qed.

Lemma chain_queued (c : nat) (dq : list nat) :
  chain H c dq → ∀ q, q ∈ dq → ∃ fq gq w, H !! q = Some (fq, gq) ∧ gm gq = queued w.
Proof.
  intros Hc. induction Hc as [c U|c p dq U _ IH|c p dq U _ IH]; intros q Hq.
  - by apply elem_of_nil in Hq.
  - by apply IH.
  - apply elem_of_cons in Hq as [->|Hq]; [|by apply IH].
    apply up_Some in U as (fc & g & fp & gp & Hc & Hp & Hq & Ht & Ha).
    destruct (attached_fork_queued _ _ _ Ht Ha) as [[w Hw] _]. eauto 10.
Qed.

End chains.

Lemma chain_ext (H H' : gmap nat (frame * ghost)) (Q : nat → Prop) :
  (∀ x, Q x → up H' x = up H x) →
  (∀ x q b, Q x → up H x = Some (q, b) → Q q) →
  ∀ c dq, Q c → chain H c dq → chain H' c dq.
Proof.
  intros Hup Hcl c dq Hq Hc. induction Hc as [c U|c p dq U _ IH|c p dq U _ IH].
  - apply chain_stop. by rewrite Hup.
  - apply (chain_call _ _ p); [by rewrite Hup|]. apply IH. by eapply Hcl.
  - apply chain_fork; [by rewrite Hup|]. apply IH. by eapply Hcl.
Qed.

Lemma chain_ext_all (H H' : gmap nat (frame * ghost)) :
  (∀ x, up H' x = up H x) → ∀ c dq, chain H c dq → chain H' c dq.
Proof.
  intros Hup c dq. apply (chain_ext H H' (λ _, True)); auto.
Qed.

Lemma chain_ext_except (H H' : gmap nat (frame * ghost)) (z : nat) :
  (∀ x, x ≠ z → up H' x = up H x) →
  (∀ x q b, up H x = Some (q, b) → q ≠ z) →
  ∀ c dq, c ≠ z → chain H c dq → chain H' c dq.
Proof.
  intros Hup Hz c dq. apply (chain_ext H H' (λ x, x ≠ z)); [done|].
  intros x q b _. apply Hz.
Qed.

Lemma attached_same_child (fp : frame) (gp : ghost) (fc fc' : frame) :
  f_tag fc' = f_tag fc → f_ret fc' = f_ret fc →
  attached fp gp fc' = attached fp gp fc.
Proof. unfold attached. by intros -> ->. Qed.

Lemma up_insert (H : gmap nat (frame * ghost)) (q : nat) (fq fq' : frame)
    (gq gq' : ghost) (x : nat) :
  H !! q = Some (fq, gq) →
  m_parent fq' = m_parent fq → f_tag fq' = f_tag fq → f_ret fq' = f_ret fq →
  m_parent fq ≠ Some q →
  (∀ fx gx, H !! x = Some (fx, gx) → m_parent fx = Some q → f_tag fx = fork →
     attached fq' gq' fx = attached fq gq fx) →
  up (<[q := (fq', gq')]> H) x = up H x.
Proof.
  intros Hq Hp Ht Hr Hself Hatt. unfold up.
  destruct (decide (x = q)) as [->|Hx].
  - rewrite lookup_insert_eq, Hq, Hp. destruct (m_parent fq) as [p|]; [|done].
    rewrite lookup_insert_ne by congruence.
    destruct (H !! p) as [[fp gp]|]; [|done].
    rewrite Ht, (attached_same_child fp gp fq fq') by done. done.
  - rewrite lookup_insert_ne by done.
    destruct (H !! x) as [[fx gx]|] eqn:Hfx; [|done].
    destruct (m_parent fx) as [p|] eqn:Hpx; [|done].
    destruct (decide (p = q)) as [->|Hpq].
    + rewrite lookup_insert_eq, Hq. destruct (f_tag fx) eqn:Htx; [done..|].
      by rewrite (Hatt fx gx).
    + by rewrite lookup_insert_ne.
Qed.

Lemma up_insert_new (H : gmap nat (frame * ghost)) (c : nat) (y : frame * ghost) (x : nat) :
  (∀ fx gx, H !! x = Some (fx, gx) → m_parent fx ≠ Some c) →
  x ≠ c →
  up (<[c := y]> H) x = up H x.
Proof.
  intros Hpar Hx. unfold up. rewrite lookup_insert_ne by done.
  destruct (H !! x) as [[fx gx]|] eqn:Hfx; [|done].
  destruct (m_parent fx) as [p|] eqn:Hpx; [|done].
  rewrite lookup_insert_ne; [done|]. intros ->. by eapply Hpar.
Qed.

Lemma up_delete (H : gmap nat (frame * ghost)) (c : nat) (x : nat) :
  (∀ fx gx, H !! x = Some (fx, gx) → m_parent fx ≠ Some c) →
  x ≠ c →
  up (delete c H) x = up H x.
Proof.
  intros Hpar Hx. unfold up. rewrite lookup_delete_ne by done.
  destruct (H !! x) as [[fx gx]|] eqn:Hfx; [|done].
  destruct (m_parent fx) as [p|] eqn:Hpx; [|done].
  rewrite lookup_delete_ne; [done|]. intros ->. by eapply Hpar.
Qed.

(** ** The potential *)

Lemma heap_cost_insert_new (H : gmap nat (frame * ghost)) (c : nat) (y : frame * ghost) :
  H !! c = None →
  heap_cost (<[c := y]> H) = (frame_cost y + heap_cost H)%nat.
Proof.
  intros Hc. unfold heap_cost.
  rewrite map_fold_insert_L; [done| |done].
  intros; simpl. apply Nat.add_shuffle3.
Qed.

Lemma heap_cost_delete (H : gmap nat (frame * ghost)) (c : nat) (y : frame * ghost) :
  H !! c = Some y →
  heap_cost H = (frame_cost y + heap_cost (delete c H))%nat.
Proof.
  intros Hc. rewrite <- (insert_delete_id H c y Hc) at 1.
  apply heap_cost_insert_new. apply lookup_delete_eq.
Qed.

Lemma heap_cost_update (H : gmap nat (frame * ghost)) (p : nat) (y y' : frame * ghost) :
  H !! p = Some y →
  (heap_cost (<[p := y']> H) + frame_cost y = heap_cost H + frame_cost y')%nat.
Proof.
  intros Hp. rewrite (heap_cost_delete H p y Hp).
  rewrite <- (insert_delete_eq H p y').
  rewrite heap_cost_insert_new by apply lookup_delete_eq. lia.
Qed.

Lemma workers_cost_update (ws : list worker) (w : nat) (wk wk' : worker) :
  ws !! w = Some wk →
  (sum_list (worker_cost <$> <[w := wk']> ws) + worker_cost wk
   = sum_list (worker_cost <$> ws) + worker_cost wk')%nat.
Proof.
  revert w. induction ws as [|x ws IH]; intros [|w] Hw; csimpl in *; [done..| |].
  - injection Hw as ->. lia.
  - specialize (IH w Hw). lia.
Qed.

(** ** Frames and workers that a step does not touch *)

Lemma frame_ok_mono (single : bool) (n n' p : nat) (f : frame) (g : ghost) :
  frame_ok single n p f g → (n ≤ n')%nat → frame_ok single n' p f g.
Proof. intros (Hlt & Hrest) Hle. split; [lia|done]. Qed.

(** A worker keeps its invariant when the frames it runs or holds in its
    deque keep what the invariant of the worker reads. *)
Lemma worker_ok_ext {stacks : bool} (H H' : gmap nat (frame * ghost)) (w : nat) (wk : worker) :
  worker_ok stacks H w wk →
  (∀ q f g, H !! q = Some (f, g) → gm g = own w ∨ gm g = queued w →
     ∃ f' g', H' !! q = Some (f', g') ∧ gm g' = gm g ∧ f_body f' = f_body f
              ∧ f_tag f' = f_tag f ∧ m_steal f' = m_steal f ∧ m_top f' = m_top f) →
  (∀ x f g dq, H !! x = Some (f, g) → gm g = own w → chain H x dq → chain H' x dq) →
  worker_ok stacks H' w wk.
Proof.
  intros [Hdq Hst] Hsame Hchain. split.
  - intros q Hq. destruct (Hdq q Hq) as (fq & gq & Hfq & Hm).
    destruct (Hsame q fq gq Hfq (or_intror Hm)) as (f' & g' & Hq' & Hm' & _).
    exists f', g'. split; [done|]. congruence.
  - destruct (w_status wk) as [|p|p]; [done| |].
    + destruct Hst as (f & g & Hp & Hm & Hb & Hc & Hasp).
      destruct (Hsame p f g Hp (or_introl Hm)) as (f' & g' & Hp' & Hm' & Hb' & Ht' & Hs' & Htop').
      exists f', g'. split_and!; [done|congruence|by rewrite Hb'|by eapply Hchain|].
      rewrite Ht', Hs', Htop'. done.
    + destruct Hst as (f & g & Hp & Hm & Hb & Hs & Hd).
      destruct (Hsame p f g Hp (or_introl Hm)) as (f' & g' & Hp' & Hm' & Hb' & Ht' & Hs' & Htop').
      exists f', g'. split_and!; [done|congruence|by rewrite Hb'|by rewrite Hs'|done].
Qed.

(** ** The state that [submit] makes *)

Lemma initial_workers_lookup (n first w : nat) (wk : worker) :
  (<[first := with_status (running 0%nat) (initial_worker first)]>
     (initial_worker <$> seq 0 n)) !! w = Some wk →
  (w = first ∧ (first < n)%nat ∧ wk = with_status (running 0%nat) (initial_worker first))
  ∨ (w ≠ first ∧ wk = initial_worker w).
Proof.
  intros Hw. destruct (decide (w = first)) as [->|Hne].
  - left. pose proof (lookup_lt_Some _ _ _ Hw) as Hlt.
    rewrite length_insert, length_fmap, length_seq in Hlt.
    rewrite list_lookup_insert_eq in Hw
      by (rewrite length_fmap, length_seq; done).
    injection Hw as <-. done.
  - right. rewrite list_lookup_insert_ne in Hw by done.
    rewrite list_lookup_fmap in Hw.
    destruct (seq 0 n !! w) as [i|] eqn:Hi; [|done].
    apply lookup_seq in Hi as [-> _]. simpl in Hw. injection Hw as <-. done.
Qed.

Lemma sum_list_zero (l : list nat) : (∀ x, x ∈ l → x = 0%nat) → sum_list l = 0%nat.
Proof.
  induction l as [|x l IH]; intros Hz; [done|]. simpl.
  rewrite (Hz x) by (apply elem_of_cons; by left). apply IH.
  intros y Hy. apply Hz. apply elem_of_cons. by right.
Qed.

Lemma inv_submit (stacks single : bool) (nworkers first : nat) (c : task) (V : Z) :
  (first < nworkers)%nat →
  structured c [] → sequential c [] = Some V →
  inv stacks single V (cost c []) (submit nworkers first c).
Proof.
  intros Hfirst Hs Hv.
  exists {[ 0%nat := (root_frame c, {| gv := V; gl := []; gc := 0; gm := own first |}) ]}.
  split; [by rewrite map_fmap_singleton|]. split; [split|]; simpl.
  - intros p f g [<- [= <- <-]]%lookup_singleton_Some.
    unfold frame_ok. split_and!.
    + lia.
    + apply agrees_nil.
    + done.
    + unfold counters_ok, live. simpl. split_and!; try done; try lia.
      by destruct single.
    + done.
    + done.
  - intros x fx gx [<- [= <- <-]]%lookup_singleton_Some. done.
  - intros x x' fx gx fx' gx' p [<- [= <- <-]]%lookup_singleton_Some. done.
  - intros p fp gp [<- [= <- <-]]%lookup_singleton_Some. simpl. split.
    + intros i Hi. done.
    + intros [k Hk]. done.
  - intros w wk [(-> & _ & ->)|(Hne & ->)]%initial_workers_lookup; split; simpl; try done.
    + intros q Hq. by apply elem_of_nil in Hq.
    + eexists _, _. rewrite lookup_singleton_eq. split_and!; try done.
      * simpl. eauto.
      * apply chain_stop. unfold up. by rewrite lookup_singleton_eq.
    + intros q Hq%elem_of_nil. done.
  - intros p f g Hp. apply lookup_singleton_Some in Hp as [<- [= <- <-]]. simpl.
    eexists. split.
    + apply list_lookup_insert_eq. by rewrite length_fmap, length_seq.
    + by left.
  - intros p f g [<- [= <- <-]]%lookup_singleton_Some. done.
  - split.
    + by intros p f g [<- _]%lookup_singleton_Some.
    + by rewrite lookup_singleton_eq.
  - unfold potential, heap_cost. rewrite map_fold_singleton. simpl.
    rewrite sum_list_zero; [unfold frame_cost; simpl; lia|].
    intros x (wk & -> & Hwk)%list_elem_of_fmap.
    apply list_elem_of_lookup in Hwk as [w Hw].
    apply initial_workers_lookup in Hw as [(-> & _ & ->)|(Hne & ->)]; done.
Qed.

(** ** The invariant without the stacks *)

Lemma child_ok_weaken (stacks : bool) (H : gmap nat (frame * ghost)) (c : nat)
    (fc : frame) (g : ghost) :
  child_ok stacks H c fc g → child_ok false H c fc g.
Proof.
  unfold child_ok. destruct (m_parent fc) as [p|]; [|done].
  intros (fp & gp & Hp & Hlt & Hr & Hc & _). exists fp, gp. by split_and!.
Qed.

Lemma worker_ok_weaken (stacks : bool) (H : gmap nat (frame * ghost)) (w : nat)
    (wk : worker) :
  worker_ok stacks H w wk → worker_ok false H w wk.
Proof.
  intros [Hd Hs]. split; [done|]. destruct (w_status wk) as [|p|p]; [done| |done].
  destruct Hs as (f & g & Hp & Hm & Hb & Hc & _). exists f, g. by split_and!.
Qed.

Lemma invariant_weaken (stacks single : bool) (V : Z) (H : gmap nat (frame * ghost))
    (ws : list worker) (sem : nat) (res : option Z) (next : nat) :
  invariant stacks single V H ws sem res next →
  invariant false single V H ws sem res next.
Proof.
  intros [I1 I2 I3 I4 I5 I6 I7 I8]. split; try done.
  - intros c fc g Hc. by eapply child_ok_weaken, I2.
  - intros w wk Hw. by eapply worker_ok_weaken, I5.
Qed.

Lemma inv_weaken (stacks single : bool) (V : Z) (n : nat) (σ : state) :
  inv stacks single V n σ → inv false single V n σ.
Proof.
  intros (H & Hfr & Inv & Hpot). exists H. split_and!; [done| |done].
  by eapply invariant_weaken.
Qed.

(** ** Facts that follow from the invariant *)

Section facts.

Context {stacks single : bool} {V : Z} {H : gmap nat (frame * ghost)} {ws : list worker}
  {sem : nat} {res : option Z} {next : nat}.
Context (Inv : invariant stacks single V H ws sem res next).

Lemma inv_lt (x : nat) (y : frame * ghost) : H !! x = Some y → (x < next)%nat.
Proof. destruct y as [f g]. intros Hx. by destruct (inv_frames _ _ _ _ _ _ _ _ Inv x f g Hx). Qed.

Lemma inv_fresh : H !! next = None.
Proof.
  destruct (H !! next) as [y|] eqn:Hn; [|done].
  apply inv_lt in Hn. lia.
Qed.

Lemma inv_parent (c p : nat) (fc : frame) (g : ghost) :
  H !! c = Some (fc, g) → m_parent fc = Some p →
  ∃ fp gp, H !! p = Some (fp, gp) ∧ (p < c)%nat.
Proof.
  intros Hc Hp. pose proof (inv_children _ _ _ _ _ _ _ _ Inv c fc g Hc) as Hch.
  unfold child_ok in Hch. rewrite Hp in Hch.
  destruct Hch as (fp & gp & Hfp & Hlt & _). eauto.
Qed.

Lemma inv_parent_not_next (x : nat) (fx : frame) (gx : ghost) :
  H !! x = Some (fx, gx) → m_parent fx ≠ Some next.
Proof.
  intros Hx Hp. destruct (inv_parent x next fx gx Hx Hp) as (fp & gp & Hn & _).
  by rewrite inv_fresh in Hn.
Qed.

Lemma inv_parent_not_self (x : nat) (fx : frame) (gx : ghost) :
  H !! x = Some (fx, gx) → m_parent fx ≠ Some x.
Proof.
  intros Hx Hp. destruct (inv_parent x x fx gx Hx Hp) as (fp & gp & _ & Hlt). lia.
Qed.

(** The worker that runs a frame is the only one. *)
Lemma own_running (w : nat) (wk : worker) (p x : nat) (fx : frame) (gx : ghost) :
  ws !! w = Some wk → w_status wk = running p →
  H !! x = Some (fx, gx) → gm gx = own w → x = p.
Proof.
  intros Hw Hst Hx Hm. pose proof (inv_modes _ _ _ _ _ _ _ _ Inv x fx gx Hx) as Hmo.
  rewrite Hm in Hmo. destruct Hmo as (wk' & Hw' & Hs).
  rewrite Hw in Hw'. injection Hw' as <-. rewrite Hst in Hs.
  destruct Hs as [[= ->]|[=]]. done.
Qed.

Lemma own_suspending (w : nat) (wk : worker) (p x : nat) (fx : frame) (gx : ghost) :
  ws !! w = Some wk → w_status wk = suspending p →
  H !! x = Some (fx, gx) → gm gx = own w → x = p.
Proof.
  intros Hw Hst Hx Hm. pose proof (inv_modes _ _ _ _ _ _ _ _ Inv x fx gx Hx) as Hmo.
  rewrite Hm in Hmo. destruct Hmo as (wk' & Hw' & Hs).
  rewrite Hw in Hw'. injection Hw' as <-. rewrite Hst in Hs.
  destruct Hs as [[=]|[= ->]]. done.
Qed.

Lemma own_not_idle (w : nat) (wk : worker) (x : nat) (fx : frame) (gx : ghost) :
  ws !! w = Some wk → w_status wk = idle →
  H !! x = Some (fx, gx) → gm gx ≠ own w.
Proof.
  intros Hw Hst Hx Hm. pose proof (inv_modes _ _ _ _ _ _ _ _ Inv x fx gx Hx) as Hmo.
  rewrite Hm in Hmo. destruct Hmo as (wk' & Hw' & Hs).
  rewrite Hw in Hw'. injection Hw' as <-. rewrite Hst in Hs.
  by destruct Hs.
Qed.

Lemma queued_in_deque (w : nat) (wk : worker) (x : nat) (fx : frame) (gx : ghost) :
  ws !! w = Some wk → H !! x = Some (fx, gx) → gm gx = queued w → x ∈ w_deque wk.
Proof.
  intros Hw Hx Hm. pose proof (inv_modes _ _ _ _ _ _ _ _ Inv x fx gx Hx) as Hmo.
  rewrite Hm in Hmo. destruct Hmo as (wk' & Hw' & Hs).
  rewrite Hw in Hw'. by injection Hw' as <-.
Qed.

Lemma running_frame (w : nat) (wk : worker) (p : nat) :
  ws !! w = Some wk → w_status wk = running p →
  ∃ f g, H !! p = Some (f, g) ∧ gm g = own w ∧ (∃ c, f_body f = at_code c)
         ∧ chain H p (w_deque wk)
         ∧ (stacks = true → f_tag f ≠ root → m_steal f = 0 → w_asp wk = m_top f).
Proof.
  intros Hw Hst. destruct (inv_workers _ _ _ _ _ _ _ _ Inv w wk Hw) as [_ Hs].
  by rewrite Hst in Hs.
Qed.

Lemma deque_queued (w : nat) (wk : worker) (q : nat) :
  ws !! w = Some wk → q ∈ w_deque wk →
  ∃ fq gq, H !! q = Some (fq, gq) ∧ gm gq = queued w.
Proof.
  intros Hw Hq. destruct (inv_workers _ _ _ _ _ _ _ _ Inv w wk Hw) as [Hd _]. eauto.
Qed.

(** The children of a frame that runs code are stolen forks. *)
Lemma child_of_own (c p : nat) (fc fp : frame) (g gp : ghost) (w : nat) :
  H !! c = Some (fc, g) → m_parent fc = Some p →
  H !! p = Some (fp, gp) → gm gp = own w →
  f_tag fc = fork ∧ ∃ i, f_ret fc = ret_local i ∧ f_locals fp !! i = Some None.
Proof.
  intros Hc Hp Hfp Hm.
  pose proof (inv_children _ _ _ _ _ _ _ _ Inv c fc g Hc) as Hch.
  unfold child_ok in Hch. rewrite Hp in Hch.
  destruct Hch as (fp' & gp' & Hfp' & Hlt & Hret & Hcall & _).
  rewrite Hfp in Hfp'. injection Hfp' as <- <-.
  destruct (inv_frames _ _ _ _ _ _ _ _ Inv c fc g Hc) as (_ & _ & _ & _ & _ & Htags).
  unfold tags_ok in Htags. rewrite Hp in Htags.
  destruct (f_tag fc) eqn:Ht; [by destruct (f_ret fc)| |].
  - specialize (Hcall eq_refl). congruence.
  - split; [done|]. destruct (f_ret fc) as [|i|]; try done.
    destruct Hret as (Hi & _). eauto.
Qed.

End facts.

(** ** A fork or a call *)



Lemma new_frame_ok (single : bool) (next : nat) (parent top : nat) (t : tag)
    (r : return_address) (c : task) (v : Z) (w : nat) :
  structured c [] → sequential c [] = Some v →
  tags_ok single (new_frame parent top t r c) →
  frame_ok single (S next) next (new_frame parent top t r c) (new_ghost v w).
Proof.
  intros Hs Hv Ht. unfold frame_ok. split_and!; [lia|apply agrees_nil|done| |done|done].
  unfold counters_ok, live. simpl. split_and!; try done; try lia.
  by destruct single.
Qed.

Section spawn.

Context {stacks single : bool} {V : Z} {H : gmap nat (frame * ghost)} {ws : list worker}
  {sem : nat} {res : option Z} {next : nat}.
Context (Inv : invariant stacks single V H ws sem res next).
Context (w : nat) (wk : worker) (p : nat) (f : frame) (g : ghost).
Context (Hw : ws !! w = Some wk) (Hst : w_status wk = running p)
  (Hp : H !! p = Some (f, g)).
Context (fp' : frame) (gp' : ghost) (t : tag) (r : return_address)
  (child : task) (b : Z) (dq' : list nat).
Context (Hcs : structured child []) (Hcv : sequential child [] = Some b).
Context (Hok' : frame_ok single (S next) p fp' gp').
Context (Hlink : m_parent fp' = m_parent f ∧ f_tag fp' = f_tag f ∧ f_ret fp' = f_ret f
                 ∧ m_top fp' = m_top f ∧ m_steal fp' = m_steal f ∧ gv gp' = gv g).
Context (Hloc : ∀ i, f_locals f !! i = Some None →
                  f_locals fp' !! i = Some None ∧ gl gp' !! i = gl g !! i).
Context (Hdet : ∀ fx i, f_tag fx = fork → f_ret fx = ret_local i →
                  f_locals f !! i = Some None → attached fp' gp' fx = false).
Context (Htags : tags_ok single (new_frame p (w_asp wk) t r child)).
Context (Hret : (∃ i, r = ret_local i
                      ∧ f_locals fp' !! i = Some None ∧ gl gp' !! i = Some b
                      ∧ f_locals f !! i ≠ Some None
                      ∧ (t = call → i = pred (length (f_locals fp'))
                                    ∧ ∃ k, f_body fp' = at_code k))
                ∨ (r = ret_call ∧ (∃ k, f_body fp' = at_call k) ∧ gc gp' = b)).
Context (Hmode : (t = call ∧ gm gp' = inline ∧ dq' = w_deque wk)
                 ∨ (t = fork ∧ gm gp' = queued w ∧ dq' = p :: w_deque wk
                    ∧ r = ret_local (pred (length (f_locals fp'))))).
Context (Hexist : (∀ i, f_locals fp' !! i = Some None →
                     f_locals f !! i = Some None ∨ r = ret_local i)
                  ∧ ((∃ k, f_body fp' = at_call k) → r = ret_call)).
Context (Hcost : (frame_cost (fp', gp') + cost child [] + length dq'
                  < frame_cost (f, g) + length (w_deque wk))%nat).

Let fc : frame := new_frame p (w_asp wk) t r child.
Let H' : gmap nat (frame * ghost) :=
  <[next := (fc, new_ghost b w)]> (<[p := (fp', gp')]> H).
Let wk' : worker := with_status (running next) (with_deque dq' wk).
Let ws' : list worker := <[w := wk']> ws.

Lemma spawn_facts :
  gm g = own w ∧ chain H p (w_deque wk)
  ∧ (stacks = true → f_tag f ≠ root → m_steal f = 0 → w_asp wk = m_top f)
  ∧ p ≠ next ∧ H !! next = None ∧ (p < next)%nat.
Proof.
  destruct (running_frame Inv w wk p Hw Hst) as (f0 & g0 & Hp0 & Hm & _ & Hc & Hasp).
  rewrite Hp in Hp0. injection Hp0 as <- <-.
  pose proof (inv_lt Inv p _ Hp).
  split_and!; try done; [lia|apply (inv_fresh Inv)].
Qed.

Lemma spawn_lookup_next : H' !! next = Some (fc, new_ghost b w).
Proof. unfold H'. by rewrite lookup_insert_eq. Qed.

Lemma spawn_lookup_p : H' !! p = Some (fp', gp').
Proof.
  destruct spawn_facts as (_ & _ & _ & Hne & _).
  unfold H'. rewrite lookup_insert_ne by done. by rewrite lookup_insert_eq.
Qed.

Lemma spawn_lookup_other (x : nat) : x ≠ next → x ≠ p → H' !! x = H !! x.
Proof. intros H1 H2. unfold H'. by rewrite !lookup_insert_ne. Qed.

Lemma spawn_cases (x : nat) (fx : frame) (gx : ghost) :
  H' !! x = Some (fx, gx) →
  (x = next ∧ fx = fc ∧ gx = new_ghost b w)
  ∨ (x = p ∧ fx = fp' ∧ gx = gp')
  ∨ (x ≠ next ∧ x ≠ p ∧ H !! x = Some (fx, gx)).
Proof.
  unfold H'. intros Hx.
  apply lookup_insert_Some in Hx as [[<- [= <- <-]]|[Hx1 Hx]]; [by left|].
  apply lookup_insert_Some in Hx as [[<- [= <- <-]]|[Hx2 Hx]]; [by right; left|].
  right; right. done.
Qed.

(** An old frame is still there, with the same parent, tag and return
    address. *)
Lemma spawn_old (x : nat) (fx : frame) (gx : ghost) :
  H !! x = Some (fx, gx) →
  ∃ fx' gx', H' !! x = Some (fx', gx') ∧ m_parent fx' = m_parent fx
             ∧ f_tag fx' = f_tag fx ∧ f_ret fx' = f_ret fx.
Proof.
  intros Hx. destruct (decide (x = p)) as [->|Hne].
  - rewrite Hp in Hx. injection Hx as <- <-.
    exists fp', gp'. rewrite spawn_lookup_p. by destruct Hlink as (? & ? & ? & _).
  - exists fx, gx. rewrite spawn_lookup_other; [done| |done].
    intros ->. destruct spawn_facts as (_ & _ & _ & _ & Hfresh & _). congruence.
Qed.

Lemma spawn_child_of_p (x : nat) (fx : frame) (gx : ghost) :
  H !! x = Some (fx, gx) → m_parent fx = Some p →
  f_tag fx = fork ∧ ∃ i, f_ret fx = ret_local i ∧ f_locals f !! i = Some None.
Proof.
  intros Hx Hpx. destruct spawn_facts as (Hm & _).
  by apply (child_of_own Inv x p fx f gx g w).
Qed.

Lemma spawn_up (x : nat) : x ≠ next → up H' x = up H x.
Proof.
  intros Hx. destruct spawn_facts as (Hm & _ & _ & Hne & Hfresh & _).
  destruct Hlink as (Hl1 & Hl2 & Hl3 & _).
  unfold H'. rewrite up_insert_new; [|intros fx gx Hfx|done].
  - apply (up_insert H p f fp' g gp'); try done.
    + by apply (inv_parent_not_self Inv p f g).
    + intros fx gx Hfx Hpx Htx.
      destruct (spawn_child_of_p x fx gx Hfx Hpx) as (_ & i & Hr & Hi).
      rewrite (Hdet fx i Htx Hr Hi). unfold attached. by rewrite Htx, Hm.
  - apply lookup_insert_Some in Hfx as [[<- [= <- <-]]|[Hne' Hfx]].
    + rewrite Hl1. by apply (inv_parent_not_next Inv p f g).
    + by apply (inv_parent_not_next Inv x fx gx).
Qed.

Lemma spawn_chain (x : nat) (dq : list nat) :
  x ≠ next → chain H x dq → chain H' x dq.
Proof.
  apply chain_ext_except; [apply spawn_up|].
  intros y q c Hup. apply up_Some in Hup as (? & ? & ? & ? & _ & _ & Hq & _).
  intros ->. destruct spawn_facts as (_ & _ & _ & _ & Hfresh & _). congruence.
Qed.

Lemma spawn_frames (x : nat) (fx : frame) (gx : ghost) :
  H' !! x = Some (fx, gx) → frame_ok single (S next) x fx gx.
Proof.
  intros [(-> & -> & ->)|[(-> & -> & ->)|(_ & _ & Hx)]]%spawn_cases.
  - by apply new_frame_ok.
  - done.
  - eapply frame_ok_mono; [by apply (inv_frames _ _ _ _ _ _ _ _ Inv)|lia].
Qed.

Lemma spawn_children (x : nat) (fx : frame) (gx : ghost) :
  H' !! x = Some (fx, gx) → child_ok stacks H' x fx gx.
Proof.
  destruct spawn_facts as (Hm & Hchain & Hasp & Hne & Hfresh & Hlt).
  destruct Hlink as (Hl1 & Hl2 & Hl3 & Hl4 & Hl5 & Hl6).
  intros [(-> & -> & ->)|[(-> & -> & ->)|(Hx1 & Hx2 & Hx)]]%spawn_cases.
  - (* the new child *)
    unfold child_ok. simpl. exists fp', gp'.
    split; [apply spawn_lookup_p|]. split; [done|]. split; [|split].
    + destruct Hret as [(i & Hr & Hr1 & Hr2 & _ & Hr4)|(Hr & Hr1 & Hr2)];
        rewrite Hr; done.
    + intros Ht. destruct Hmode as [(_ & Hi & _)|(Ht' & _)]; [done|congruence].
    + intros Hstk _ Hroot Hs. rewrite Hl4. apply Hasp; congruence.
  - (* the parent *)
    pose proof (inv_children _ _ _ _ _ _ _ _ Inv p f g Hp) as Hch.
    unfold child_ok in *. rewrite Hl1.
    destruct (m_parent f) as [pp|] eqn:Hpp; [|done].
    destruct Hch as (fpp & gpp & Hfpp & Hlt' & Hr & Hcall & Hat).
    exists fpp, gpp. split; [|split; [done|]].
    { rewrite spawn_lookup_other; [done| |lia].
      intros ->. congruence. }
    rewrite Hl3, Hl2, Hl4, Hl6.
    rewrite (attached_same_child fpp gpp f fp') by done. done.
  - (* the others *)
    pose proof (inv_children _ _ _ _ _ _ _ _ Inv x fx gx Hx) as Hch.
    unfold child_ok in *.
    destruct (m_parent fx) as [q|] eqn:Hq; [|done].
    destruct Hch as (fq & gq & Hfq & Hlt' & Hr & Hcall & Hat).
    destruct (decide (q = p)) as [->|Hqp].
    + rewrite Hp in Hfq. injection Hfq as <- <-.
      destruct (spawn_child_of_p x fx gx Hx Hq) as (Ht & i & Hri & Hi).
      exists fp', gp'. split; [apply spawn_lookup_p|]. split; [done|].
      rewrite Hri in *. destruct (Hloc i Hi) as (Hi1 & Hi2).
      split; [|split].
      * split; [done|]. split; [rewrite Hi2; by destruct Hr as (_ & ? & _)|].
        intros Hc. congruence.
      * intros Hc. congruence.
      * intros _ Ha. rewrite (Hdet fx i Ht Hri Hi) in Ha. done.
    + exists fq, gq. split; [|done].
      rewrite spawn_lookup_other; [done| |done].
      intros ->. congruence.
Qed.

Lemma spawn_unique : children_unique H'.
Proof.
  destruct spawn_facts as (Hm & Hchain & Hasp & Hne & Hfresh & Hlt).
  destruct Hlink as (Hl1 & Hl2 & Hl3 & Hl4 & Hl5 & Hl6).
  assert (Hnew : ∀ x fx gx, H' !! x = Some (fx, gx) → x ≠ next →
            m_parent fx = Some p → f_ret fx = r → False).
  { intros x fx gx Hx Hxn Hpx Hrx.
    apply spawn_cases in Hx as [(-> & _)|[(-> & -> & ->)|(_ & _ & Hx)]]; [done| |].
    - rewrite Hl1 in Hpx. by apply (inv_parent_not_self Inv p f g Hp).
    - destruct (spawn_child_of_p x fx gx Hx Hpx) as (_ & i & Hri & Hi).
      rewrite Hri in Hrx.
      destruct Hret as [(j & Hr & _ & _ & Hn & _)|(Hr & _)]; [|congruence].
      rewrite Hr in Hrx. injection Hrx as ->. done. }
  assert (Hold : ∀ x fx gx, H' !! x = Some (fx, gx) → x ≠ next →
            ∃ fx0 gx0, H !! x = Some (fx0, gx0) ∧ m_parent fx0 = m_parent fx
                       ∧ f_ret fx0 = f_ret fx).
  { intros x fx gx Hx Hxn.
    apply spawn_cases in Hx as [(-> & _)|[(-> & -> & ->)|(_ & _ & Hx)]]; [done| |].
    - exists f, g. done.
    - exists fx, gx. done. }
  intros x x' fx gx fx' gx' q Hx Hx' Hq Hq' Hr.
  destruct (decide (x = next)) as [->|Hxn]; destruct (decide (x' = next)) as [->|Hxn'];
    [done| | |].
  - rewrite spawn_lookup_next in Hx. injection Hx as <- <-. simpl in *.
    injection Hq as <-. exfalso. by eapply (Hnew x').
  - rewrite spawn_lookup_next in Hx'. injection Hx' as <- <-. simpl in *.
    injection Hq' as <-. exfalso. by eapply (Hnew x).
  - destruct (Hold x fx gx Hx Hxn) as (fx0 & gx0 & Hx0 & Hp0 & Hr0).
    destruct (Hold x' fx' gx' Hx' Hxn') as (fx0' & gx0' & Hx0' & Hp0' & Hr0').
    apply (inv_unique _ _ _ _ _ _ _ _ Inv x x' fx0 gx0 fx0' gx0' q); congruence.
Qed.

Lemma spawn_exist : children_exist H'.
Proof.
  destruct spawn_facts as (Hm & Hchain & Hasp & Hne & Hfresh & Hlt).
  intros q fq gq [(-> & -> & ->)|[(-> & -> & ->)|(Hx1 & Hx2 & Hq)]]%spawn_cases.
  - split; [by intros i Hi|]. intros [k Hk]. done.
  - split.
    + intros i Hi. destruct (proj1 Hexist i Hi) as [Hold|Hr].
      * destruct (proj1 (inv_exist _ _ _ _ _ _ _ _ Inv p f g Hp) i Hold)
          as (c & fc0 & gc0 & Hc & Hpc & Hrc).
        destruct (spawn_old c fc0 gc0 Hc) as (fc' & gc' & Hc' & E1 & _ & E3).
        exists c, fc', gc'. split_and!; congruence.
      * exists next, fc, (new_ghost b w). by rewrite spawn_lookup_next.
    + intros Hk. exists next, fc, (new_ghost b w). rewrite spawn_lookup_next.
      split_and!; try done. simpl. by apply (proj2 Hexist).
  - destruct (inv_exist _ _ _ _ _ _ _ _ Inv q fq gq Hq) as [E1 E2]. split.
    + intros i Hi. destruct (E1 i Hi) as (c & fc0 & gc0 & Hc & Hpc & Hrc).
      destruct (spawn_old c fc0 gc0 Hc) as (fc' & gc' & Hc' & E1' & _ & E3).
      exists c, fc', gc'. split_and!; congruence.
    + intros Hk. destruct (E2 Hk) as (c & fc0 & gc0 & Hc & Hpc & Hrc).
      destruct (spawn_old c fc0 gc0 Hc) as (fc' & gc' & Hc' & E1' & _ & E3).
      exists c, fc', gc'. split_and!; congruence.
Qed.

Lemma spawn_up_next : up H' next = Some (p, bool_decide (t = fork)).
Proof.
  unfold up. rewrite spawn_lookup_next. simpl. rewrite spawn_lookup_p.
  destruct Hmode as [(Ht & _)|(Ht & Hq & _ & Hr)]; rewrite Ht; [done|].
  unfold attached. simpl. rewrite Ht, Hq, Hr. simpl. by rewrite bool_decide_eq_true_2.
Qed.

Lemma spawn_workers (w' : nat) (wk0 : worker) :
  ws' !! w' = Some wk0 → worker_ok stacks H' w' wk0.
Proof.
  destruct spawn_facts as (Hm & Hchain & Hasp & Hne & Hfresh & Hlt).
  intros Hw'. destruct (decide (w' = w)) as [->|Hww].
  - unfold ws' in Hw'. rewrite list_lookup_insert_eq in Hw'
      by (by eapply lookup_lt_Some).
    injection Hw' as <-. split.
    + intros q Hq. simpl in Hq.
      assert (Hold : q ∈ w_deque wk → ∃ fq gq, H' !! q = Some (fq, gq) ∧ gm gq = queued w).
      { intros Hq0. destruct (deque_queued Inv w wk q Hw Hq0) as (fq & gq & Hfq & Hmq).
        exists fq, gq. split; [|done]. rewrite spawn_lookup_other; [done| |].
        - intros ->. congruence.
        - intros ->. rewrite Hp in Hfq. injection Hfq as <- <-. congruence. }
      destruct Hmode as [(_ & _ & Hdq)|(_ & Hmq & Hdq & _)]; rewrite Hdq in Hq.
      * by apply Hold.
      * apply elem_of_cons in Hq as [->|Hq]; [|by apply Hold].
        exists fp', gp'. by rewrite spawn_lookup_p.
    + simpl. exists fc, (new_ghost b w). rewrite spawn_lookup_next.
      split_and!; try done; [by eexists| ].
      pose proof spawn_up_next as Hup.
      pose proof (spawn_chain p (w_deque wk) Hne Hchain) as Hc'.
      destruct Hmode as [(Ht & _ & Hdq)|(Ht & _ & Hdq & _)]; rewrite Hdq, Ht in *.
      * by apply (chain_call _ _ p).
      * by apply chain_fork.
  - unfold ws' in Hw'. rewrite list_lookup_insert_ne in Hw' by done.
    apply (worker_ok_ext H H'); [by apply (inv_workers _ _ _ _ _ _ _ _ Inv)| |].
    + intros q fq gq Hq Hmq. exists fq, gq. split; [|done].
      rewrite spawn_lookup_other; [done| |].
      * intros ->. congruence.
      * intros ->. rewrite Hp in Hq. injection Hq as <- <-.
        rewrite Hm in Hmq. destruct Hmq as [[=]|[=]]. done.
    + intros x fx gx dq Hx _ Hc. apply spawn_chain; [|done].
      intros ->. congruence.
Qed.

Lemma spawn_modes : modes_ok H' ws'.
Proof.
  destruct spawn_facts as (Hm & Hchain & Hasp & Hne & Hfresh & Hlt).
  assert (Hwk' : ws' !! w = Some wk').
  { unfold ws'. apply list_lookup_insert_eq. by eapply lookup_lt_Some. }
  intros x fx gx [(-> & -> & ->)|[(-> & -> & ->)|(Hx1 & Hx2 & Hx)]]%spawn_cases.
  - simpl. exists wk'. split; [done|]. by left.
  - destruct Hmode as [(_ & Hmq & _)|(_ & Hmq & Hdq & _)]; rewrite Hmq; [done|].
    exists wk'. split; [done|].
    simpl. rewrite Hdq. apply elem_of_cons. by left.
  - pose proof (inv_modes _ _ _ _ _ _ _ _ Inv x fx gx Hx) as Hmo.
    destruct (gm gx) as [w0|w0| |] eqn:Hgx; [| |done..].
    + destruct Hmo as (wk0 & Hwk0 & Hs). destruct (decide (w0 = w)) as [->|Hne0].
      * exfalso. apply Hx2. by apply (own_running Inv w wk p x fx gx).
      * exists wk0. unfold ws'. by rewrite list_lookup_insert_ne.
    + destruct Hmo as (wk0 & Hwk0 & Hs). destruct (decide (w0 = w)) as [->|Hne0].
      * rewrite Hw in Hwk0. injection Hwk0 as <-.
        exists wk'. split; [done|]. simpl.
        destruct Hmode as [(_ & _ & Hdq)|(_ & _ & Hdq & _)]; rewrite Hdq; [done|].
        apply elem_of_cons. by right.
      * exists wk0. unfold ws'. by rewrite list_lookup_insert_ne.
Qed.

Lemma spawn_stolen (x : nat) (fx : frame) (gx : ghost) :
  H' !! x = Some (fx, gx) → m_steal fx ≠ 0 → chain H' x [].
Proof.
  destruct spawn_facts as (Hm & Hchain & Hasp & Hne & Hfresh & Hlt).
  destruct Hlink as (Hl1 & Hl2 & Hl3 & Hl4 & Hl5 & Hl6).
  intros [(-> & -> & ->)|[(-> & -> & ->)|(Hx1 & Hx2 & Hx)]]%spawn_cases Hs.
  - done.
  - apply spawn_chain; [done|]. apply (inv_stolen _ _ _ _ _ _ _ _ Inv p f g Hp). congruence.
  - apply spawn_chain; [done|]. by apply (inv_stolen _ _ _ _ _ _ _ _ Inv x fx gx Hx).
Qed.

Lemma spawn_root : root_ok V H' sem res.
Proof.
  destruct spawn_facts as (Hm & Hchain & Hasp & Hne & Hfresh & Hlt).
  destruct Hlink as (Hl1 & Hl2 & Hl3 & Hl4 & Hl5 & Hl6).
  destruct (inv_root _ _ _ _ _ _ _ _ Inv) as [R1 R2]. split.
  - intros x fx gx [(-> & -> & ->)|[(-> & -> & ->)|(Hx1 & Hx2 & Hx)]]%spawn_cases Ht.
    + simpl in Ht. destruct Hmode as [(Ht' & _)|(Ht' & _)]; congruence.
    + apply (R1 p f g Hp). congruence.
    + by apply (R1 x fx gx Hx).
  - destruct (decide (p = 0%nat)) as [E|Hp0].
    + rewrite <- E in *. rewrite spawn_lookup_p. rewrite Hp in R2. by rewrite Hl2, Hl6.
    + rewrite spawn_lookup_other by lia.
      destruct (H !! 0%nat) as [[f0 g0]|] eqn:H0; [done|].
      destruct R2 as (-> & _). by rewrite lookup_empty in Hp.
Qed.

Lemma spawn_potential : (potential H' ws' < potential H ws)%nat.
Proof.
  destruct spawn_facts as (Hm & Hchain & Hasp & Hne & Hfresh & Hlt).
  unfold potential, H', ws'.
  rewrite heap_cost_insert_new by (by rewrite lookup_insert_ne).
  pose proof (heap_cost_update H p (f, g) (fp', gp') Hp) as E1.
  pose proof (workers_cost_update ws w wk wk' Hw) as E2.
  assert (worker_cost wk = length (w_deque wk)) as E3
    by (unfold worker_cost; rewrite Hst; lia).
  assert (worker_cost wk' = length dq') as E4
    by (unfold worker_cost; simpl; lia).
  assert (frame_cost (fc, new_ghost b w) = cost child []) as E5 by done.
  lia.
Qed.

Lemma inv_spawn :
  invariant stacks single V H' ws' sem res (S next)
  ∧ (potential H' ws' < potential H ws)%nat.
Proof.
  split; [split|].
  - apply spawn_frames.
  - apply spawn_children.
  - apply spawn_unique.
  - apply spawn_exist.
  - apply spawn_workers.
  - apply spawn_modes.
  - apply spawn_stolen.
  - apply spawn_root.
  - apply spawn_potential.
Qed.

End spawn.

(** ** A step of a join: the worker changes the frame that it owns *)

Section own_update.

Context {stacks single : bool} {V : Z} {H : gmap nat (frame * ghost)} {ws : list worker}
  {sem : nat} {res : option Z} {next : nat}.
Context (Inv : invariant stacks single V H ws sem res next).
Context (w : nat) (wk : worker) (p : nat) (f : frame) (g : ghost).
Context (Hw : ws !! w = Some wk)
  (Hst : w_status wk = running p ∨ w_status wk = suspending p)
  (Hp : H !! p = Some (f, g)).
Context (fp' : frame) (gp' : ghost) (wk' : worker).
Context (Hok' : frame_ok single next p fp' gp').
Context (Hlink : m_parent fp' = m_parent f ∧ f_tag fp' = f_tag f ∧ f_ret fp' = f_ret f
                 ∧ m_top fp' = m_top f ∧ gv gp' = gv g).
Context (Hloc : ∀ i, f_locals f !! i = Some None →
                  f_locals fp' !! i = Some None ∧ gl gp' !! i = gl g !! i).
Context (Hloc' : ∀ i, f_locals fp' !! i = Some None → f_locals f !! i = Some None).
Context (Hnocall : ∀ k, f_body fp' ≠ at_call k).
Context (Hsteal : m_steal fp' ≠ 0 → m_steal f ≠ 0).
Context (Hdq : w_deque wk' = w_deque wk).
Context (Hnew : (gm gp' = own w ∧ w_status wk' = running p
                 ∧ (∃ c, f_body fp' = at_code c)
                 ∧ (stacks = true → f_tag fp' ≠ root → m_steal fp' = 0 →
                    w_asp wk' = m_top fp'))
                ∨ (gm gp' = own w ∧ w_status wk' = suspending p
                   ∧ (∃ k, f_body fp' = at_join k) ∧ m_steal fp' ≠ 0)
                ∨ (gm gp' = lost ∧ w_status wk' = idle ∧ m_steal f ≠ 0)).
Context (Hcost : (frame_cost (fp', gp') + worker_cost wk'
                  < frame_cost (f, g) + worker_cost wk)%nat).

Let H' : gmap nat (frame * ghost) := <[p := (fp', gp')]> H.
Let ws' : list worker := <[w := wk']> ws.

Lemma update_facts : gm g = own w ∧ (m_steal f ≠ 0 → w_deque wk = []).
Proof.
  destruct (inv_workers _ _ _ _ _ _ _ _ Inv w wk Hw) as [_ Hs].
  destruct Hst as [Hr|Hr]; rewrite Hr in Hs.
  - destruct Hs as (f0 & g0 & Hp0 & Hm & _ & Hc & _).
    rewrite Hp in Hp0. injection Hp0 as <- <-. split; [done|].
    intros Hsn. pose proof (inv_stolen _ _ _ _ _ _ _ _ Inv p f g Hp Hsn) as Hc0.
    by apply (chain_inj H p).
  - destruct Hs as (f0 & g0 & Hp0 & Hm & _ & _ & Hd).
    rewrite Hp in Hp0. by injection Hp0 as <- <-.
Qed.

Lemma update_own (x : nat) (fx : frame) (gx : ghost) :
  H !! x = Some (fx, gx) → gm gx = own w → x = p.
Proof.
  intros Hx Hm. destruct Hst as [Hr|Hr].
  - by apply (own_running Inv w wk p x fx gx).
  - by apply (own_suspending Inv w wk p x fx gx).
Qed.

Lemma update_lookup_p : H' !! p = Some (fp', gp').
Proof. unfold H'. by rewrite lookup_insert_eq. Qed.

Lemma update_lookup_other (x : nat) : x ≠ p → H' !! x = H !! x.
Proof. intros Hne. unfold H'. by rewrite lookup_insert_ne. Qed.

Lemma update_cases (x : nat) (fx : frame) (gx : ghost) :
  H' !! x = Some (fx, gx) →
  (x = p ∧ fx = fp' ∧ gx = gp') ∨ (x ≠ p ∧ H !! x = Some (fx, gx)).
Proof.
  unfold H'. intros Hx.
  apply lookup_insert_Some in Hx as [[<- [= <- <-]]|[Hx2 Hx]]; [by left|by right].
Qed.

Lemma update_old (x : nat) (fx : frame) (gx : ghost) :
  H !! x = Some (fx, gx) →
  ∃ fx' gx', H' !! x = Some (fx', gx') ∧ m_parent fx' = m_parent fx
             ∧ f_tag fx' = f_tag fx ∧ f_ret fx' = f_ret fx.
Proof.
  intros Hx. destruct (decide (x = p)) as [->|Hne].
  - rewrite Hp in Hx. injection Hx as <- <-.
    exists fp', gp'. rewrite update_lookup_p. by destruct Hlink as (? & ? & ? & _).
  - exists fx, gx. by rewrite update_lookup_other.
Qed.

Lemma update_new (x : nat) (fx : frame) (gx : ghost) :
  H' !! x = Some (fx, gx) →
  ∃ fx0 gx0, H !! x = Some (fx0, gx0) ∧ m_parent fx0 = m_parent fx
             ∧ f_tag fx0 = f_tag fx ∧ f_ret fx0 = f_ret fx.
Proof.
  intros [(-> & -> & ->)|(Hne & Hx)]%update_cases.
  - exists f, g. by destruct Hlink as (? & ? & ? & _).
  - exists fx, gx. done.
Qed.

Lemma update_not_queued : is_queued (gm gp') = false.
Proof.
  destruct Hnew as [(-> & _)|[(-> & _)|(-> & _)]]; done.
Qed.

Lemma update_child_of_p (x : nat) (fx : frame) (gx : ghost) :
  H !! x = Some (fx, gx) → m_parent fx = Some p →
  f_tag fx = fork ∧ ∃ i, f_ret fx = ret_local i ∧ f_locals f !! i = Some None.
Proof.
  intros Hx Hpx. destruct update_facts as (Hm & _).
  by apply (child_of_own Inv x p fx f gx g w).
Qed.

Lemma update_up (x : nat) : up H' x = up H x.
Proof.
  destruct update_facts as (Hm & _).
  destruct Hlink as (Hl1 & Hl2 & Hl3 & _).
  apply (up_insert H p f fp' g gp'); try done.
  - by apply (inv_parent_not_self Inv p f g).
  - intros fx gx Hfx Hpx Htx. unfold attached.
    by rewrite Htx, Hm, update_not_queued.
Qed.

Lemma update_chain (x : nat) (dq : list nat) : chain H x dq → chain H' x dq.
Proof. apply chain_ext_all. apply update_up. Qed.

Lemma update_frames (x : nat) (fx : frame) (gx : ghost) :
  H' !! x = Some (fx, gx) → frame_ok single next x fx gx.
Proof.
  intros [(-> & -> & ->)|(_ & Hx)]%update_cases; [done|].
  by apply (inv_frames _ _ _ _ _ _ _ _ Inv).
Qed.

Lemma update_children (x : nat) (fx : frame) (gx : ghost) :
  H' !! x = Some (fx, gx) → child_ok stacks H' x fx gx.
Proof.
  destruct update_facts as (Hm & _).
  destruct Hlink as (Hl1 & Hl2 & Hl3 & Hl4 & Hl6).
  intros [(-> & -> & ->)|(Hx2 & Hx)]%update_cases.
  - pose proof (inv_children _ _ _ _ _ _ _ _ Inv p f g Hp) as Hch.
    unfold child_ok in *. rewrite Hl1.
    destruct (m_parent f) as [pp|] eqn:Hpp; [|done].
    destruct Hch as (fpp & gpp & Hfpp & Hlt' & Hr & Hcall & Hat).
    exists fpp, gpp. split; [|split; [done|]].
    { rewrite update_lookup_other; [done|lia]. }
    rewrite Hl3, Hl2, Hl4, Hl6.
    rewrite (attached_same_child fpp gpp f fp') by done. done.
  - pose proof (inv_children _ _ _ _ _ _ _ _ Inv x fx gx Hx) as Hch.
    unfold child_ok in *.
    destruct (m_parent fx) as [q|] eqn:Hq; [|done].
    destruct Hch as (fq & gq & Hfq & Hlt' & Hr & Hcall & Hat).
    destruct (decide (q = p)) as [->|Hqp].
    + rewrite Hp in Hfq. injection Hfq as <- <-.
      destruct (update_child_of_p x fx gx Hx Hq) as (Ht & i & Hri & Hi).
      exists fp', gp'. split; [apply update_lookup_p|]. split; [done|].
      rewrite Hri in *. destruct (Hloc i Hi) as (Hi1 & Hi2).
      split; [|split].
      * split; [done|]. split; [rewrite Hi2; by destruct Hr as (_ & ? & _)|].
        intros Hc. congruence.
      * intros Hc. congruence.
      * intros _ Ha. unfold attached in Ha.
        by rewrite Ht, update_not_queued in Ha.
    + exists fq, gq. split; [|done]. by rewrite update_lookup_other.
Qed.

Lemma update_unique : children_unique H'.
Proof.
  intros x x' fx gx fx' gx' q Hx Hx' Hq Hq' Hr.
  destruct (update_new x fx gx Hx) as (fx0 & gx0 & Hx0 & Hp0 & _ & Hr0).
  destruct (update_new x' fx' gx' Hx') as (fx0' & gx0' & Hx0' & Hp0' & _ & Hr0').
  apply (inv_unique _ _ _ _ _ _ _ _ Inv x x' fx0 gx0 fx0' gx0' q); congruence.
Qed.

Lemma update_exist : children_exist H'.
Proof.
  intros q fq gq [(-> & -> & ->)|(Hx2 & Hq)]%update_cases.
  - split.
    + intros i Hi.
      destruct (proj1 (inv_exist _ _ _ _ _ _ _ _ Inv p f g Hp) i (Hloc' i Hi))
        as (c & fc0 & gc0 & Hc & Hpc & Hrc).
      destruct (update_old c fc0 gc0 Hc) as (fc' & gc' & Hc' & E1 & _ & E3).
      exists c, fc', gc'. split_and!; congruence.
    + intros [k Hk]. by destruct (Hnocall k).
  - destruct (inv_exist _ _ _ _ _ _ _ _ Inv q fq gq Hq) as [E1 E2]. split.
    + intros i Hi. destruct (E1 i Hi) as (c & fc0 & gc0 & Hc & Hpc & Hrc).
      destruct (update_old c fc0 gc0 Hc) as (fc' & gc' & Hc' & E1' & _ & E3).
      exists c, fc', gc'. split_and!; congruence.
    + intros Hk. destruct (E2 Hk) as (c & fc0 & gc0 & Hc & Hpc & Hrc).
      destruct (update_old c fc0 gc0 Hc) as (fc' & gc' & Hc' & E1' & _ & E3).
      exists c, fc', gc'. split_and!; congruence.
Qed.

Lemma update_workers (w' : nat) (wk0 : worker) :
  ws' !! w' = Some wk0 → worker_ok stacks H' w' wk0.
Proof.
  destruct update_facts as (Hm & Hempty).
  intros Hw'. destruct (decide (w' = w)) as [->|Hww].
  - unfold ws' in Hw'. rewrite list_lookup_insert_eq in Hw'
      by (by eapply lookup_lt_Some).
    injection Hw' as <-. split.
    + intros q Hq. rewrite Hdq in Hq.
      destruct (deque_queued Inv w wk q Hw Hq) as (fq & gq & Hfq & Hmq).
      exists fq, gq. split; [|done]. rewrite update_lookup_other; [done|].
      intros ->. rewrite Hp in Hfq. injection Hfq as <- <-. congruence.
    + destruct Hnew as [(Hm' & Hs' & Hb' & Hasp')|[(Hm' & Hs' & Hb' & Hsn)|(Hm' & Hs' & Hsn)]];
        rewrite Hs'.
      * exists fp', gp'. rewrite update_lookup_p. split_and!; try done.
        rewrite Hdq. apply update_chain.
        destruct (inv_workers _ _ _ _ _ _ _ _ Inv w wk Hw) as [_ Hs].
        destruct Hst as [Hr|Hr]; rewrite Hr in Hs.
        -- destruct Hs as (f0 & g0 & Hp0 & _ & _ & Hc & _). done.
        -- destruct Hs as (f0 & g0 & Hp0 & _ & _ & Hsn & Hd).
           rewrite Hp in Hp0. injection Hp0 as <- <-.
           rewrite Hd. by apply (inv_stolen _ _ _ _ _ _ _ _ Inv p f g Hp).
      * exists fp', gp'. rewrite update_lookup_p. split_and!; try done.
        rewrite Hdq. apply Hempty. by apply Hsteal.
      * rewrite Hdq. by apply Hempty.
  - unfold ws' in Hw'. rewrite list_lookup_insert_ne in Hw' by done.
    apply (worker_ok_ext H H'); [by apply (inv_workers _ _ _ _ _ _ _ _ Inv)| |].
    + intros q fq gq Hq Hmq. exists fq, gq. split; [|done].
      rewrite update_lookup_other; [done|].
      intros ->. rewrite Hp in Hq. injection Hq as <- <-.
      rewrite Hm in Hmq. destruct Hmq as [[=]|[=]]. done.
    + intros x fx gx dq Hx _ Hc. by apply update_chain.
Qed.

Lemma update_modes : modes_ok H' ws'.
Proof.
  destruct update_facts as (Hm & Hempty).
  assert (Hwk' : ws' !! w = Some wk').
  { unfold ws'. apply list_lookup_insert_eq. by eapply lookup_lt_Some. }
  intros x fx gx [(-> & -> & ->)|(Hx2 & Hx)]%update_cases.
  - destruct Hnew as [(Hm' & Hs' & _)|[(Hm' & Hs' & _)|(Hm' & Hs' & _)]];
      rewrite Hm'; [| |done].
    + exists wk'. split; [done|]. by left.
    + exists wk'. split; [done|]. by right.
  - pose proof (inv_modes _ _ _ _ _ _ _ _ Inv x fx gx Hx) as Hmo.
    destruct (gm gx) as [w0|w0| |] eqn:Hgx; [| |done..].
    + destruct Hmo as (wk0 & Hwk0 & Hs). destruct (decide (w0 = w)) as [->|Hne0].
      * exfalso. apply Hx2. by apply (update_own x fx gx).
      * exists wk0. unfold ws'. by rewrite list_lookup_insert_ne.
    + destruct Hmo as (wk0 & Hwk0 & Hs). destruct (decide (w0 = w)) as [->|Hne0].
      * rewrite Hw in Hwk0. injection Hwk0 as <-.
        exists wk'. split; [done|]. by rewrite Hdq.
      * exists wk0. unfold ws'. by rewrite list_lookup_insert_ne.
Qed.

Lemma update_stolen (x : nat) (fx : frame) (gx : ghost) :
  H' !! x = Some (fx, gx) → m_steal fx ≠ 0 → chain H' x [].
Proof.
  intros [(-> & -> & ->)|(Hx2 & Hx)]%update_cases Hs; apply update_chain.
  - apply (inv_stolen _ _ _ _ _ _ _ _ Inv p f g Hp). by apply Hsteal.
  - by apply (inv_stolen _ _ _ _ _ _ _ _ Inv x fx gx Hx).
Qed.

Lemma update_root : root_ok V H' sem res.
Proof.
  destruct Hlink as (Hl1 & Hl2 & Hl3 & Hl4 & Hl6).
  destruct (inv_root _ _ _ _ _ _ _ _ Inv) as [R1 R2]. split.
  - intros x fx gx [(-> & -> & ->)|(Hx2 & Hx)]%update_cases Ht.
    + apply (R1 p f g Hp). congruence.
    + by apply (R1 x fx gx Hx).
  - destruct (decide (p = 0%nat)) as [E|Hp0].
    + rewrite <- E in *. rewrite update_lookup_p. rewrite Hp in R2. by rewrite Hl2, Hl6.
    + rewrite update_lookup_other by lia.
      destruct (H !! 0%nat) as [[f0 g0]|] eqn:H0; [done|].
      destruct R2 as (-> & _). by rewrite lookup_empty in Hp.
Qed.

Lemma update_potential : (potential H' ws' < potential H ws)%nat.
Proof.
  unfold potential, H', ws'.
  pose proof (heap_cost_update H p (f, g) (fp', gp') Hp) as E1.
  pose proof (workers_cost_update ws w wk wk' Hw) as E2.
  lia.
Qed.

Lemma inv_update :
  invariant stacks single V H' ws' sem res next
  ∧ (potential H' ws' < potential H ws)%nat.
Proof.
  split; [split|].
  - apply update_frames.
  - apply update_children.
  - apply update_unique.
  - apply update_exist.
  - apply update_workers.
  - apply update_modes.
  - apply update_stolen.
  - apply update_root.
  - apply update_potential.
Qed.

End own_update.

(** ** One step up, seen from the child *)

Lemma up_tag (H : gmap nat (frame * ghost)) (c p : nat) (b : bool) (fc : frame) (g : ghost) :
  up H c = Some (p, b) → H !! c = Some (fc, g) →
  f_tag fc = (if b then fork else call) ∧ m_parent fc = Some p
  ∧ ∀ fp gp, H !! p = Some (fp, gp) → attached fp gp fc = true.
Proof.
  intros Hup Hc. apply up_Some in Hup as (fc1 & g1 & fp1 & gp1 & Hc1 & Hpar & Hp1 & Hb).
  rewrite Hc in Hc1. injection Hc1 as <- <-.
  destruct b.
  - destruct Hb as [Ht Ha]. split_and!; try done.
    intros fp gp Hp. rewrite Hp1 in Hp. by injection Hp as <- <-.
  - split_and!; try done. intros fp gp _. unfold attached. by rewrite Hb.
Qed.

Lemma chain_up_inv (H : gmap nat (frame * ghost)) (c p : nat) (b : bool) (dq : list nat) :
  up H c = Some (p, b) → chain H c dq →
  ∃ dq', dq = (if b then p :: dq' else dq') ∧ chain H p dq'.
Proof.
  intros Hup Hch.
  inversion Hch as [? U|? p' dq' U C'|? p' dq' U C']; subst; rewrite Hup in U; [done| |].
  - injection U as -> ->. eauto.
  - injection U as -> ->. eauto.
Qed.

Lemma if_cons_inj (b : bool) (p : nat) (d1 d2 : list nat) :
  (if b then p :: d1 else d1) = (if b then p :: d2 else d2) → d1 = d2.
Proof. destruct b; congruence. Qed.

(** ** A task returns straight into its parent *)

Section return_attached.

Context {stacks single : bool} {V : Z} {H : gmap nat (frame * ghost)} {ws : list worker}
  {sem : nat} {res : option Z} {next : nat}.
Context (Inv : invariant stacks single V H ws sem res next).
Context (w : nat) (wk : worker) (c : nat) (fc : frame) (gc0 : ghost)
  (p : nat) (f : frame) (g : ghost) (b : bool).
Context (Hw : ws !! w = Some wk) (Hst : w_status wk = running c)
  (Hc : H !! c = Some (fc, gc0)) (Hp : H !! p = Some (f, g)).
Context (Hleaf : f_locals fc = [] ∧ (∃ cd, f_body fc = at_code cd) ∧ m_steal fc = 0).
Context (Hup : up H c = Some (p, b)).
Context (fp' : frame) (gp' : ghost) (dq' : list nat).
Context (Hok' : frame_ok single next p fp' gp').
Context (Hlink : m_parent fp' = m_parent f ∧ f_tag fp' = f_tag f ∧ f_ret fp' = f_ret f
                 ∧ m_top fp' = m_top f ∧ m_steal fp' = m_steal f ∧ gv gp' = gv g).
Context (Hmode' : gm gp' = own w ∧ ∃ c', f_body fp' = at_code c').
Context (Hdq : w_deque wk = if b then p :: dq' else dq').
Context (Hloc : ∀ i, f_locals f !! i = Some None → f_ret fc ≠ ret_local i →
                  f_locals fp' !! i = Some None ∧ gl gp' !! i = gl g !! i).
Context (Hloc' : ∀ i, f_locals fp' !! i = Some None →
                   f_locals f !! i = Some None ∧ f_ret fc ≠ ret_local i).
Context (Hcost : (frame_cost (fp', gp') ≤ frame_cost (f, g))%nat).

Let H' : gmap nat (frame * ghost) := delete c (<[p := (fp', gp')]> H).
Let wk' : worker := with_status (running p) (with_deque dq' wk).
Let ws' : list worker := <[w := wk']> ws.

Lemma att_facts :
  gm gc0 = own w ∧ m_parent fc = Some p ∧ (p < c)%nat
  ∧ chain H p dq' ∧ (stacks = true → w_asp wk = m_top fc)
  ∧ f_tag fc = (if b then fork else call)
  ∧ attached f g fc = true.
Proof.
  destruct (running_frame Inv w wk c Hw Hst) as (f0 & g0 & Hc0 & Hm & _ & Hch & Hasp).
  rewrite Hc in Hc0. injection Hc0 as <- <-.
  destruct (up_tag H c p b fc gc0 Hup Hc) as (Htag & Hpar & Hatt).
  destruct (inv_parent Inv c p fc gc0 Hc Hpar) as (? & ? & _ & Hlt).
  destruct (chain_up_inv H c p b _ Hup Hch) as (dq0 & Hdq0 & Hch0).
  rewrite Hdq in Hdq0. apply if_cons_inj in Hdq0. rewrite <- Hdq0 in Hch0.
  split_and!; try done.
  - intros Hstk. apply Hasp; [done| |by destruct Hleaf as (_ & _ & ?)].
    rewrite Htag. by destruct b.
  - by apply Hatt.
Qed.

Lemma att_leaf (x : nat) (fx : frame) (gx : ghost) :
  H !! x = Some (fx, gx) → m_parent fx ≠ Some c.
Proof.
  intros Hx Hpx. pose proof (inv_children _ _ _ _ _ _ _ _ Inv x fx gx Hx) as Hch.
  unfold child_ok in Hch. rewrite Hpx in Hch.
  destruct Hch as (fc1 & g1 & Hc1 & _ & Hr & _).
  rewrite Hc in Hc1. injection Hc1 as <- <-.
  destruct Hleaf as (Hl & [cd Hb] & _).
  destruct (f_ret fx) as [|i|]; [done| |].
  - destruct Hr as (Hi & _). by rewrite Hl in Hi.
  - destruct Hr as ([k Hk] & _). congruence.
Qed.

(** The other children of the parent are stolen forks. *)
Lemma att_sibling (x : nat) (fx : frame) (gx : ghost) :
  H !! x = Some (fx, gx) → m_parent fx = Some p → x ≠ c →
  f_tag fx = fork ∧ attached f g fx = false
  ∧ ∃ i, f_ret fx = ret_local i ∧ f_ret fc ≠ ret_local i
         ∧ f_locals f !! i = Some None ∧ gl g !! i = Some (gv gx).
Proof.
  intros Hx Hpx Hne.
  destruct att_facts as (Hm & Hpar & Hlt & Hch & Hasp & Htag & Hatt).
  pose proof (inv_children _ _ _ _ _ _ _ _ Inv x fx gx Hx) as Hchx.
  pose proof (inv_children _ _ _ _ _ _ _ _ Inv c fc gc0 Hc) as Hchc.
  unfold child_ok in Hchx, Hchc. rewrite Hpx in Hchx. rewrite Hpar in Hchc.
  destruct Hchx as (f1 & g1 & Hp1 & _ & Hrx & Hcallx & _).
  rewrite Hp in Hp1. injection Hp1 as <- <-.
  destruct Hchc as (f1 & g1 & Hp1 & _ & Hrc & Hcallc & _).
  rewrite Hp in Hp1. injection Hp1 as <- <-.
  assert (Hsame : f_ret fx ≠ f_ret fc).
  { intros E. apply Hne.
    by apply (inv_unique _ _ _ _ _ _ _ _ Inv x c fx gx fc gc0 p). }
  destruct (inv_frames _ _ _ _ _ _ _ _ Inv x fx gx Hx) as (_ & _ & _ & _ & _ & Htx).
  destruct (inv_frames _ _ _ _ _ _ _ _ Inv c fc gc0 Hc) as (_ & _ & _ & _ & _ & Htc).
  unfold tags_ok in Htx, Htc. rewrite Hpx in Htx. rewrite Hpar in Htc.
  assert (Hfork : f_tag fx = fork).
  { destruct (f_tag fx) eqn:Etx; [by destruct (f_ret fx)| |done].
    exfalso. specialize (Hcallx eq_refl).
    destruct b.
    - apply (attached_fork_queued f g fc Htag) in Hatt as [[w0 Hq] _]. congruence.
    - destruct (f_ret fx) as [|i|] eqn:Erx; [done| |];
        destruct (f_ret fc) as [|j|] eqn:Erc; try done.
      + destruct Hrx as (_ & _ & Hx3). destruct Hrc as (_ & _ & Hc3).
        destruct (Hx3 eq_refl) as (-> & _). destruct (Hc3 Htag) as (-> & _). done.
      + destruct Hrx as (_ & _ & Hx3). destruct (Hx3 eq_refl) as (_ & [k1 Hk1]).
        destruct Hrc as ([k2 Hk2] & _). congruence.
      + destruct Hrc as (_ & _ & Hc3). destruct (Hc3 Htag) as (_ & [k1 Hk1]).
        destruct Hrx as ([k2 Hk2] & _). congruence. }
  rewrite Hfork in Htx.
  destruct (f_ret fx) as [|i|] eqn:Erx; [done| |done].
  destruct Hrx as (Hi & Hgi & _).
  split; [done|]. split.
  - unfold attached. rewrite Hfork, Erx.
    destruct (is_queued (gm g)) eqn:Eq; [|done]. simpl.
    apply bool_decide_eq_false. intros [= ->].
    destruct b.
    + apply (attached_fork_queued f g fc Htag) in Hatt as [_ Hr]. congruence.
    + specialize (Hcallc Htag). rewrite Hcallc in Eq. done.
  - exists i. by split_and!.
Qed.

Lemma att_lookup_p : H' !! p = Some (fp', gp').
Proof.
  destruct att_facts as (_ & _ & Hlt & _).
  unfold H'. rewrite lookup_delete_ne by lia. by rewrite lookup_insert_eq.
Qed.

Lemma att_lookup_other (x : nat) : x ≠ p → x ≠ c → H' !! x = H !! x.
Proof. intros H1 H2. unfold H'. rewrite lookup_delete_ne by done. by rewrite lookup_insert_ne. Qed.

Lemma att_cases (x : nat) (fx : frame) (gx : ghost) :
  H' !! x = Some (fx, gx) →
  (x = p ∧ fx = fp' ∧ gx = gp') ∨ (x ≠ p ∧ x ≠ c ∧ H !! x = Some (fx, gx)).
Proof.
  unfold H'. intros Hx.
  apply lookup_delete_Some in Hx as [Hxc Hx].
  apply lookup_insert_Some in Hx as [[<- [= <- <-]]|[Hx2 Hx]]; [by left|by right].
Qed.

Lemma att_old (x : nat) (fx : frame) (gx : ghost) :
  H !! x = Some (fx, gx) → x ≠ c →
  ∃ fx' gx', H' !! x = Some (fx', gx') ∧ m_parent fx' = m_parent fx
             ∧ f_tag fx' = f_tag fx ∧ f_ret fx' = f_ret fx.
Proof.
  intros Hx Hxc. destruct (decide (x = p)) as [->|Hne].
  - rewrite Hp in Hx. injection Hx as <- <-.
    exists fp', gp'. rewrite att_lookup_p. by destruct Hlink as (? & ? & ? & _).
  - exists fx, gx. by rewrite att_lookup_other.
Qed.

Lemma att_new (x : nat) (fx : frame) (gx : ghost) :
  H' !! x = Some (fx, gx) →
  x ≠ c ∧ ∃ fx0 gx0, H !! x = Some (fx0, gx0) ∧ m_parent fx0 = m_parent fx
             ∧ f_tag fx0 = f_tag fx ∧ f_ret fx0 = f_ret fx.
Proof.
  destruct att_facts as (_ & _ & Hlt & _).
  intros [(-> & -> & ->)|(Hne & Hxc & Hx)]%att_cases.
  - split; [lia|]. exists f, g. by destruct Hlink as (? & ? & ? & _).
  - split; [done|]. exists fx, gx. done.
Qed.

Lemma att_up (x : nat) : x ≠ c → up H' x = up H x.
Proof.
  intros Hxc. destruct Hlink as (Hl1 & Hl2 & Hl3 & _).
  destruct Hmode' as (Hm' & _).
  unfold H'. rewrite up_delete; [|intros fx gx Hfx|done].
  - apply (up_insert H p f fp' g gp'); try done.
    + by apply (inv_parent_not_self Inv p f g).
    + intros fx gx Hfx Hpx Htx.
      destruct (att_sibling x fx gx Hfx Hpx Hxc) as (_ & -> & _).
      unfold attached. by rewrite Htx, Hm'.
  - apply lookup_insert_Some in Hfx as [[<- [= <- <-]]|[Hne' Hfx]].
    + rewrite Hl1. by apply (att_leaf p f g).
    + by apply (att_leaf x fx gx).
Qed.

Lemma att_chain (x : nat) (dq : list nat) :
  x ≠ c → chain H x dq → chain H' x dq.
Proof.
  apply chain_ext_except; [apply att_up|].
  intros y q b' Hupy. apply up_Some in Hupy as (fy & gy & ? & ? & Hy & Hpy & _).
  intros ->. by apply (att_leaf y fy gy).
Qed.

Lemma att_frames (x : nat) (fx : frame) (gx : ghost) :
  H' !! x = Some (fx, gx) → frame_ok single next x fx gx.
Proof.
  intros [(-> & -> & ->)|(_ & _ & Hx)]%att_cases; [done|].
  by apply (inv_frames _ _ _ _ _ _ _ _ Inv).
Qed.

Lemma att_children (x : nat) (fx : frame) (gx : ghost) :
  H' !! x = Some (fx, gx) → child_ok stacks H' x fx gx.
Proof.
  destruct att_facts as (Hm & Hpar & Hlt & Hch & Hasp & Htag & Hatt).
  destruct Hlink as (Hl1 & Hl2 & Hl3 & Hl4 & Hl5 & Hl6).
  destruct Hmode' as (Hm' & _).
  intros [(-> & -> & ->)|(Hx2 & Hxc & Hx)]%att_cases.
  - pose proof (inv_children _ _ _ _ _ _ _ _ Inv p f g Hp) as Hchp.
    unfold child_ok in *. rewrite Hl1.
    destruct (m_parent f) as [pp|] eqn:Hpp; [|done].
    destruct Hchp as (fpp & gpp & Hfpp & Hlt' & Hr & Hcall & Hat).
    exists fpp, gpp. split; [|split; [done|]].
    { rewrite att_lookup_other; [done|lia|lia]. }
    rewrite Hl3, Hl2, Hl4, Hl6.
    rewrite (attached_same_child fpp gpp f fp') by done. done.
  - pose proof (inv_children _ _ _ _ _ _ _ _ Inv x fx gx Hx) as Hchx.
    unfold child_ok in *.
    destruct (m_parent fx) as [q|] eqn:Hq; [|done].
    destruct Hchx as (fq & gq & Hfq & Hlt' & Hr & Hcall & Hat).
    destruct (decide (q = p)) as [->|Hqp].
    + rewrite Hp in Hfq. injection Hfq as <- <-.
      destruct (att_sibling x fx gx Hx Hq Hxc) as (Ht & Hna & i & Hri & Hrc & Hi & Hgi).
      exists fp', gp'. split; [apply att_lookup_p|]. split; [done|].
      rewrite Hri in *. destruct (Hloc i Hi Hrc) as (Hi1 & Hi2).
      split; [|split].
      * split; [done|]. split; [by rewrite Hi2|].
        intros Hcl. congruence.
      * intros Hcl. congruence.
      * intros _ Ha. unfold attached in Ha. by rewrite Ht, Hm' in Ha.
    + exists fq, gq. split; [|done]. rewrite att_lookup_other; [done..|].
      intros ->. by apply (att_leaf x fx gx Hx).
Qed.

Lemma att_unique : children_unique H'.
Proof.
  intros x x' fx gx fx' gx' q Hx Hx' Hq Hq' Hr.
  destruct (att_new x fx gx Hx) as (_ & fx0 & gx0 & Hx0 & Hp0 & _ & Hr0).
  destruct (att_new x' fx' gx' Hx') as (_ & fx0' & gx0' & Hx0' & Hp0' & _ & Hr0').
  apply (inv_unique _ _ _ _ _ _ _ _ Inv x x' fx0 gx0 fx0' gx0' q); congruence.
Qed.

Lemma att_exist : children_exist H'.
Proof.
  destruct att_facts as (Hm & Hpar & Hlt & Hch & Hasp & Htag & Hatt).
  destruct Hmode' as (Hm' & [c' Hb']).
  intros q fq gq [(-> & -> & ->)|(Hx2 & Hxc & Hq)]%att_cases.
  - split.
    + intros i Hi. destruct (Hloc' i Hi) as (Hi0 & Hrc).
      destruct (proj1 (inv_exist _ _ _ _ _ _ _ _ Inv p f g Hp) i Hi0)
        as (c0 & fc0 & gc1 & Hc0 & Hpc & Hrc0).
      assert (c0 ≠ c) by (intros ->; rewrite Hc in Hc0; congruence).
      destruct (att_old c0 fc0 gc1 Hc0) as (fc' & gc' & Hc' & E1 & _ & E3); [done|].
      exists c0, fc', gc'. split_and!; congruence.
    + intros [k Hk]. congruence.
  - destruct (inv_exist _ _ _ _ _ _ _ _ Inv q fq gq Hq) as [E1 E2].
    assert (Hnc : ∀ c0 fc0 gc1, H !! c0 = Some (fc0, gc1) → m_parent fc0 = Some q → c0 ≠ c).
    { intros c0 fc0 gc1 Hc0 Hpc ->. rewrite Hc in Hc0. congruence. }
    split.
    + intros i Hi. destruct (E1 i Hi) as (c0 & fc0 & gc1 & Hc0 & Hpc & Hrc).
      destruct (att_old c0 fc0 gc1 Hc0) as (fc' & gc' & Hc' & E1' & _ & E3); [by eapply Hnc|].
      exists c0, fc', gc'. split_and!; congruence.
    + intros Hk. destruct (E2 Hk) as (c0 & fc0 & gc1 & Hc0 & Hpc & Hrc).
      destruct (att_old c0 fc0 gc1 Hc0) as (fc' & gc' & Hc' & E1' & _ & E3); [by eapply Hnc|].
      exists c0, fc', gc'. split_and!; congruence.
Qed.

Lemma att_deque (q : nat) :
  q ∈ dq' → q ∈ w_deque wk ∧ q ≠ p ∧ q ≠ c.
Proof.
  destruct att_facts as (Hm & Hpar & Hlt & Hch & Hasp & Htag & Hatt).
  intros Hq. pose proof (chain_lt H p dq' (inv_children _ _ _ _ _ _ _ _ Inv) Hch q Hq).
  split; [|lia]. rewrite Hdq. destruct b; [|done]. apply elem_of_cons. by right.
Qed.

Lemma att_workers (w' : nat) (wk0 : worker) :
  ws' !! w' = Some wk0 → worker_ok stacks H' w' wk0.
Proof.
  destruct att_facts as (Hm & Hpar & Hlt & Hch & Hasp & Htag & Hatt).
  destruct Hlink as (Hl1 & Hl2 & Hl3 & Hl4 & Hl5 & Hl6).
  destruct Hmode' as (Hm' & Hb').
  intros Hw'. destruct (decide (w' = w)) as [->|Hww].
  - unfold ws' in Hw'. rewrite list_lookup_insert_eq in Hw'
      by (by eapply lookup_lt_Some).
    injection Hw' as <-. split.
    + intros q Hq. simpl in Hq. destruct (att_deque q Hq) as (Hq0 & Hqp & Hqc).
      destruct (deque_queued Inv w wk q Hw Hq0) as (fq & gq & Hfq & Hmq).
      exists fq, gq. split; [|done]. by rewrite att_lookup_other.
    + simpl. exists fp', gp'. rewrite att_lookup_p. split_and!; try done.
      * apply att_chain; [lia|done].
      * intros Hstk Hroot Hs. rewrite (Hasp Hstk), Hl4.
        pose proof (inv_children _ _ _ _ _ _ _ _ Inv c fc gc0 Hc) as Hchc.
        unfold child_ok in Hchc. rewrite Hpar in Hchc.
        destruct Hchc as (f1 & g1 & Hp1 & _ & _ & _ & HJ).
        rewrite Hp in Hp1. injection Hp1 as <- <-.
        apply HJ; [done|done|congruence|congruence].
  - unfold ws' in Hw'. rewrite list_lookup_insert_ne in Hw' by done.
    apply (worker_ok_ext H H'); [by apply (inv_workers _ _ _ _ _ _ _ _ Inv)| |].
    + intros q fq gq Hq Hmq. exists fq, gq. split; [|done].
      rewrite att_lookup_other; [done| |].
      * intros ->. rewrite Hp in Hq. injection Hq as <- <-.
        destruct b.
        -- apply (attached_fork_queued f g fc Htag) in Hatt as [[w0 Hq0] _].
           assert (p ∈ w_deque wk) as Hin by (rewrite Hdq; apply elem_of_cons; by left).
           destruct (deque_queued Inv w wk p Hw Hin) as (f1 & g1 & Hp1 & Hq1).
           rewrite Hp in Hp1. injection Hp1 as <- <-.
           rewrite Hq1 in Hmq. destruct Hmq as [[=]|[=]]. done.
        -- pose proof (inv_children _ _ _ _ _ _ _ _ Inv c fc gc0 Hc) as Hchc.
           unfold child_ok in Hchc. rewrite Hpar in Hchc.
           destruct Hchc as (f1 & g1 & Hp1 & _ & _ & Hcl & _).
           rewrite Hp in Hp1. injection Hp1 as <- <-.
           rewrite (Hcl Htag) in Hmq. by destruct Hmq.
      * intros ->. rewrite Hc in Hq. injection Hq as <- <-.
        rewrite Hm in Hmq. destruct Hmq as [[=]|[=]]. done.
    + intros x fx gx dq Hx Hmx Hcx. apply att_chain; [|done].
      intros ->. rewrite Hc in Hx. injection Hx as <- <-. congruence.
Qed.

Lemma att_modes : modes_ok H' ws'.
Proof.
  destruct att_facts as (Hm & Hpar & Hlt & Hch & Hasp & Htag & Hatt).
  destruct Hmode' as (Hm' & Hb').
  assert (Hwk' : ws' !! w = Some wk').
  { unfold ws'. apply list_lookup_insert_eq. by eapply lookup_lt_Some. }
  intros x fx gx [(-> & -> & ->)|(Hx2 & Hxc & Hx)]%att_cases.
  - rewrite Hm'. exists wk'. split; [done|]. by left.
  - pose proof (inv_modes _ _ _ _ _ _ _ _ Inv x fx gx Hx) as Hmo.
    destruct (gm gx) as [w0|w0| |] eqn:Hgx; [| |done..].
    + destruct Hmo as (wk0 & Hwk0 & Hs). destruct (decide (w0 = w)) as [->|Hne0].
      * exfalso. apply Hxc. by apply (own_running Inv w wk c x fx gx).
      * exists wk0. unfold ws'. by rewrite list_lookup_insert_ne.
    + destruct Hmo as (wk0 & Hwk0 & Hs). destruct (decide (w0 = w)) as [->|Hne0].
      * rewrite Hw in Hwk0. injection Hwk0 as <-.
        exists wk'. split; [done|]. simpl. rewrite Hdq in Hs.
        destruct b; [|done]. apply elem_of_cons in Hs as [->|Hs]; done.
      * exists wk0. unfold ws'. by rewrite list_lookup_insert_ne.
Qed.

Lemma att_stolen (x : nat) (fx : frame) (gx : ghost) :
  H' !! x = Some (fx, gx) → m_steal fx ≠ 0 → chain H' x [].
Proof.
  destruct att_facts as (Hm & Hpar & Hlt & Hch & Hasp & Htag & Hatt).
  destruct Hlink as (Hl1 & Hl2 & Hl3 & Hl4 & Hl5 & Hl6).
  intros [(-> & -> & ->)|(Hx2 & Hxc & Hx)]%att_cases Hs.
  - apply att_chain; [lia|]. apply (inv_stolen _ _ _ _ _ _ _ _ Inv p f g Hp). congruence.
  - apply att_chain; [done|]. by apply (inv_stolen _ _ _ _ _ _ _ _ Inv x fx gx Hx).
Qed.

Lemma att_root : root_ok V H' sem res.
Proof.
  destruct att_facts as (Hm & Hpar & Hlt & Hch & Hasp & Htag & Hatt).
  destruct Hlink as (Hl1 & Hl2 & Hl3 & Hl4 & Hl5 & Hl6).
  destruct (inv_root _ _ _ _ _ _ _ _ Inv) as [R1 R2]. split.
  - intros x fx gx [(-> & -> & ->)|(Hx2 & Hxc & Hx)]%att_cases Ht.
    + apply (R1 p f g Hp). congruence.
    + by apply (R1 x fx gx Hx).
  - destruct (decide (p = 0%nat)) as [E|Hp0].
    + pose proof att_lookup_p as L. pose proof Hp as Hp0. rewrite E in L, Hp0.
      rewrite L. rewrite Hp0 in R2. by rewrite Hl2, Hl6.
    + rewrite att_lookup_other by lia.
      destruct (H !! 0%nat) as [[f0 g0]|] eqn:H0; [done|].
      destruct R2 as (-> & _). by rewrite lookup_empty in Hp.
Qed.

Lemma att_potential : (potential H' ws' < potential H ws)%nat.
Proof.
  destruct att_facts as (Hm & Hpar & Hlt & Hch & Hasp & Htag & Hatt).
  unfold potential, H', ws'.
  pose proof (heap_cost_update H p (f, g) (fp', gp') Hp) as E1.
  assert (Hc' : <[p := (fp', gp')]> H !! c = Some (fc, gc0))
    by (rewrite lookup_insert_ne by lia; done).
  pose proof (heap_cost_delete _ c _ Hc') as E2.
  pose proof (workers_cost_update ws w wk wk' Hw) as E3.
  assert (worker_cost wk' ≤ worker_cost wk)%nat as E4.
  { unfold worker_cost. simpl. rewrite Hst, Hdq. destruct b; simpl; lia. }
  assert (1 ≤ frame_cost (fc, gc0))%nat as E5.
  { unfold frame_cost. simpl. destruct Hleaf as (_ & [cd Hcd] & _). rewrite Hcd.
    destruct (inv_frames _ _ _ _ _ _ _ _ Inv c fc gc0 Hc) as (_ & _ & Hbody & _).
    rewrite Hcd in Hbody. destruct Hbody as [Hs _].
    destruct cd; simpl in *; lia. }
  lia.
Qed.

Lemma inv_return_attached :
  invariant stacks single V H' ws' sem res next
  ∧ (potential H' ws' < potential H ws)%nat.
Proof.
  split; [split|].
  - apply att_frames.
  - apply att_children.
  - apply att_unique.
  - apply att_exist.
  - apply att_workers.
  - apply att_modes.
  - apply att_stolen.
  - apply att_root.
  - apply att_potential.
Qed.

End return_attached.

(** ** A stolen task returns before the last of its siblings *)

Section leaves.

Context {stacks single : bool} {V : Z} {H : gmap nat (frame * ghost)} {ws : list worker}
  {sem : nat} {res : option Z} {next : nat}.
Context (Inv : invariant stacks single V H ws sem res next).

(** A frame without pending locals that runs code has no children. *)
Lemma leaf_no_child (c : nat) (fc : frame) (gc0 : ghost) (x : nat) (fx : frame) (gx : ghost) :
  H !! c = Some (fc, gc0) → f_locals fc = [] → (∃ cd, f_body fc = at_code cd) →
  H !! x = Some (fx, gx) → m_parent fx ≠ Some c.
Proof.
  intros Hc Hl [cd Hb] Hx Hpx.
  pose proof (inv_children _ _ _ _ _ _ _ _ Inv x fx gx Hx) as Hch.
  unfold child_ok in Hch. rewrite Hpx in Hch.
  destruct Hch as (fc1 & g1 & Hc1 & _ & Hr & _).
  rewrite Hc in Hc1. injection Hc1 as <- <-.
  destruct (f_ret fx) as [|i|]; [done| |].
  - destruct Hr as (Hi & _). by rewrite Hl in Hi.
  - destruct Hr as ([k Hk] & _). congruence.
Qed.

(** A forked task that runs with an empty deque has been stolen. *)
Lemma stolen_detached (w : nat) (wk : worker) (c p : nat) (fc f : frame) (gc0 g : ghost) :
  ws !! w = Some wk → w_status wk = running c → w_deque wk = [] →
  H !! c = Some (fc, gc0) → f_tag fc = fork →
  m_parent fc = Some p → H !! p = Some (f, g) →
  attached f g fc = false.
Proof.
  intros Hw Hst Hdq Hc Htag Hpar Hp.
  destruct (running_frame Inv w wk c Hw Hst) as (f0 & g0 & Hc0 & _ & _ & Hch & _).
  rewrite Hdq in Hch.
  destruct (attached f g fc) eqn:Ha; [|done].
  assert (up H c = Some (p, true)) as Hup.
  { unfold up. by rewrite Hc, Hpar, Hp, Htag, Ha. }
  destruct (chain_up_inv H c p true [] Hup Hch) as (dq' & [=] & _).
Qed.

End leaves.

Section return_detached.

Context {stacks single : bool} {V : Z} {H : gmap nat (frame * ghost)} {ws : list worker}
  {sem : nat} {res : option Z} {next : nat}.
Context (Inv : invariant stacks single V H ws sem res next).
Context (w : nat) (wk : worker) (c : nat) (fc : frame) (gc0 : ghost)
  (p : nat) (f : frame) (g : ghost) (i : nat) (v : Z).
Context (Hw : ws !! w = Some wk) (Hst : w_status wk = running c)
  (Hc : H !! c = Some (fc, gc0)) (Hp : H !! p = Some (f, g)).
Context (Hleaf : f_locals fc = [] ∧ (∃ cd, f_body fc = at_code cd)).
Context (Hpar : m_parent fc = Some p) (Htag : f_tag fc = fork)
  (Hret : f_ret fc = ret_local i).
Context (Hempty : w_deque wk = []).
Context (fp' : frame) (wk' : worker).
Context (Hok' : frame_ok single next p fp' g).
Context (Hlink : m_parent fp' = m_parent f ∧ f_tag fp' = f_tag f ∧ f_ret fp' = f_ret f
                 ∧ m_top fp' = m_top f ∧ m_steal fp' = m_steal f
                 ∧ f_body fp' = f_body f).
Context (Hlocals : f_locals fp' = <[i := Some v]> (f_locals f)).
Context (Hidle : w_status wk' = idle ∧ w_deque wk' = []).

Let H' : gmap nat (frame * ghost) := delete c (<[p := (fp', g)]> H).
Let ws' : list worker := <[w := wk']> ws.

Lemma det_facts : gm gc0 = own w ∧ (p < c)%nat ∧ gm g ≠ own w ∧ gm g ≠ queued w.
Proof.
  destruct (running_frame Inv w wk c Hw Hst) as (f0 & g0 & Hc0 & Hm & _).
  rewrite Hc in Hc0. injection Hc0 as <- <-.
  destruct (inv_parent Inv c p fc gc0 Hc Hpar) as (? & ? & _ & Hlt).
  split_and!; try done.
  - intros Hm'. pose proof (own_running Inv w wk c p f g Hw Hst Hp Hm'). lia.
  - intros Hm'. pose proof (queued_in_deque Inv w wk p f g Hw Hp Hm') as Hin.
    rewrite Hempty in Hin. by apply elem_of_nil in Hin.
Qed.

Lemma det_attached (fx : frame) : attached fp' g fx = attached f g fx.
Proof.
  unfold attached. rewrite Hlocals, length_insert. done.
Qed.

Lemma det_local (j : nat) : j ≠ i → f_locals fp' !! j = f_locals f !! j.
Proof. intros Hj. rewrite Hlocals. by rewrite list_lookup_insert_ne. Qed.

Lemma det_local_i : f_locals fp' !! i ≠ Some None.
Proof.
  rewrite Hlocals. intros Hi.
  apply list_lookup_insert_Some in Hi as [(_ & [=] & _)|(? & _)]; done.
Qed.

Lemma det_lookup_p : H' !! p = Some (fp', g).
Proof.
  destruct det_facts as (_ & Hlt & _).
  unfold H'. rewrite lookup_delete_ne by lia. by rewrite lookup_insert_eq.
Qed.

Lemma det_lookup_other (x : nat) : x ≠ p → x ≠ c → H' !! x = H !! x.
Proof. intros H1 H2. unfold H'. rewrite lookup_delete_ne by done. by rewrite lookup_insert_ne. Qed.

Lemma det_cases (x : nat) (fx : frame) (gx : ghost) :
  H' !! x = Some (fx, gx) →
  (x = p ∧ fx = fp' ∧ gx = g) ∨ (x ≠ p ∧ x ≠ c ∧ H !! x = Some (fx, gx)).
Proof.
  unfold H'. intros Hx.
  apply lookup_delete_Some in Hx as [Hxc Hx].
  apply lookup_insert_Some in Hx as [[<- [= <- <-]]|[Hx2 Hx]]; [by left|by right].
Qed.

Lemma det_old (x : nat) (fx : frame) (gx : ghost) :
  H !! x = Some (fx, gx) → x ≠ c →
  ∃ fx', H' !! x = Some (fx', gx) ∧ m_parent fx' = m_parent fx
         ∧ f_tag fx' = f_tag fx ∧ f_ret fx' = f_ret fx ∧ f_body fx' = f_body fx
         ∧ m_steal fx' = m_steal fx ∧ m_top fx' = m_top fx.
Proof.
  intros Hx Hxc. destruct (decide (x = p)) as [->|Hne].
  - rewrite Hp in Hx. injection Hx as <- <-.
    exists fp'. rewrite det_lookup_p.
    destruct Hlink as (? & ? & ? & ? & ? & ?). done.
  - exists fx. by rewrite det_lookup_other.
Qed.

Lemma det_new (x : nat) (fx : frame) (gx : ghost) :
  H' !! x = Some (fx, gx) →
  x ≠ c ∧ ∃ fx0, H !! x = Some (fx0, gx) ∧ m_parent fx0 = m_parent fx
             ∧ f_tag fx0 = f_tag fx ∧ f_ret fx0 = f_ret fx.
Proof.
  destruct det_facts as (_ & Hlt & _).
  intros [(-> & -> & ->)|(Hne & Hxc & Hx)]%det_cases.
  - split; [lia|]. exists f. by destruct Hlink as (? & ? & ? & _).
  - split; [done|]. exists fx. done.
Qed.

Lemma det_up (x : nat) : x ≠ c → up H' x = up H x.
Proof.
  intros Hxc. destruct Hlink as (Hl1 & Hl2 & Hl3 & _).
  unfold H'. rewrite up_delete; [|intros fx gx Hfx|done].
  - apply (up_insert H p f fp' g g); try done.
    + by apply (inv_parent_not_self Inv p f g).
    + intros fx gx _ _ _. apply det_attached.
  - apply lookup_insert_Some in Hfx as [[<- [= <- <-]]|[Hne' Hfx]].
    + rewrite Hl1. by apply (leaf_no_child Inv c fc gc0 p f g); destruct Hleaf.
    + by apply (leaf_no_child Inv c fc gc0 x fx gx); destruct Hleaf.
Qed.

Lemma det_chain (x : nat) (dq : list nat) :
  x ≠ c → chain H x dq → chain H' x dq.
Proof.
  apply chain_ext_except; [apply det_up|].
  intros y q b' Hupy. apply up_Some in Hupy as (fy & gy & ? & ? & Hy & Hpy & _).
  intros ->. by apply (leaf_no_child Inv c fc gc0 y fy gy); destruct Hleaf.
Qed.

Lemma det_frames (x : nat) (fx : frame) (gx : ghost) :
  H' !! x = Some (fx, gx) → frame_ok single next x fx gx.
Proof.
  intros [(-> & -> & ->)|(_ & _ & Hx)]%det_cases; [done|].
  by apply (inv_frames _ _ _ _ _ _ _ _ Inv).
Qed.

Lemma det_children (x : nat) (fx : frame) (gx : ghost) :
  H' !! x = Some (fx, gx) → child_ok stacks H' x fx gx.
Proof.
  destruct det_facts as (Hm & Hlt & _).
  destruct Hlink as (Hl1 & Hl2 & Hl3 & Hl4 & Hl5 & Hl6).
  intros [(-> & -> & ->)|(Hx2 & Hxc & Hx)]%det_cases.
  - pose proof (inv_children _ _ _ _ _ _ _ _ Inv p f g Hp) as Hchp.
    unfold child_ok in *. rewrite Hl1.
    destruct (m_parent f) as [pp|] eqn:Hpp; [|done].
    destruct Hchp as (fpp & gpp & Hfpp & Hlt' & Hr & Hcall & Hat).
    exists fpp, gpp. split; [|split; [done|]].
    { rewrite det_lookup_other; [done|lia|lia]. }
    rewrite Hl3, Hl2, Hl4.
    rewrite (attached_same_child fpp gpp f fp') by done. done.
  - pose proof (inv_children _ _ _ _ _ _ _ _ Inv x fx gx Hx) as Hchx.
    unfold child_ok in *.
    destruct (m_parent fx) as [q|] eqn:Hq; [|done].
    destruct Hchx as (fq & gq & Hfq & Hlt' & Hr & Hcall & Hat).
    destruct (decide (q = p)) as [->|Hqp].
    + rewrite Hp in Hfq. injection Hfq as <- <-.
      exists fp', g. split; [apply det_lookup_p|]. split; [done|].
      rewrite det_attached, Hl2, Hl5, Hl4, Hl6.
      split; [|done].
      destruct (f_ret fx) as [|j|] eqn:Erx; [done| |done].
      assert (j ≠ i) as Hji.
      { intros ->. apply Hxc.
        apply (inv_unique _ _ _ _ _ _ _ _ Inv x c fx gx fc gc0 p); congruence. }
      rewrite det_local by done.
      rewrite Hlocals, length_insert. done.
    + exists fq, gq. split; [|done]. rewrite det_lookup_other; [done..|].
      intros ->. by apply (leaf_no_child Inv c fc gc0 x fx gx); destruct Hleaf.
Qed.

Lemma det_unique : children_unique H'.
Proof.
  intros x x' fx gx fx' gx' q Hx Hx' Hq Hq' Hr.
  destruct (det_new x fx gx Hx) as (_ & fx0 & Hx0 & Hp0 & _ & Hr0).
  destruct (det_new x' fx' gx' Hx') as (_ & fx0' & Hx0' & Hp0' & _ & Hr0').
  apply (inv_unique _ _ _ _ _ _ _ _ Inv x x' fx0 gx fx0' gx' q); congruence.
Qed.

Lemma det_exist : children_exist H'.
Proof.
  destruct det_facts as (Hm & Hlt & _).
  destruct Hlink as (Hl1 & Hl2 & Hl3 & Hl4 & Hl5 & Hl6).
  intros q fq gq [(-> & -> & ->)|(Hx2 & Hxc & Hq)]%det_cases.
  - destruct (inv_exist _ _ _ _ _ _ _ _ Inv p f g Hp) as [E1 E2]. split.
    + intros j Hj. assert (j ≠ i) as Hji by (intros ->; by apply det_local_i).
      rewrite det_local in Hj by done.
      destruct (E1 j Hj) as (c0 & fc0 & gc1 & Hc0 & Hpc & Hrc0).
      assert (c0 ≠ c) by (intros ->; rewrite Hc in Hc0; congruence).
      destruct (det_old c0 fc0 gc1 Hc0) as (fc' & Hc' & X1 & _ & X3 & _); [done|].
      exists c0, fc', gc1. split_and!; congruence.
    + rewrite Hl6. intros Hk. destruct (E2 Hk) as (c0 & fc0 & gc1 & Hc0 & Hpc & Hrc0).
      assert (c0 ≠ c) by (intros ->; rewrite Hc in Hc0; congruence).
      destruct (det_old c0 fc0 gc1 Hc0) as (fc' & Hc' & X1 & _ & X3 & _); [done|].
      exists c0, fc', gc1. split_and!; congruence.
  - destruct (inv_exist _ _ _ _ _ _ _ _ Inv q fq gq Hq) as [E1 E2].
    assert (Hnc : ∀ c0 fc0 gc1, H !! c0 = Some (fc0, gc1) → m_parent fc0 = Some q → c0 ≠ c).
    { intros c0 fc0 gc1 Hc0 Hpc ->. rewrite Hc in Hc0. congruence. }
    split.
    + intros j Hj. destruct (E1 j Hj) as (c0 & fc0 & gc1 & Hc0 & Hpc & Hrc).
      destruct (det_old c0 fc0 gc1 Hc0) as (fc' & Hc' & X1 & _ & X3 & _); [by eapply Hnc|].
      exists c0, fc', gc1. split_and!; congruence.
    + intros Hk. destruct (E2 Hk) as (c0 & fc0 & gc1 & Hc0 & Hpc & Hrc).
      destruct (det_old c0 fc0 gc1 Hc0) as (fc' & Hc' & X1 & _ & X3 & _); [by eapply Hnc|].
      exists c0, fc', gc1. split_and!; congruence.
Qed.

Lemma det_workers (w' : nat) (wk0 : worker) :
  ws' !! w' = Some wk0 → worker_ok stacks H' w' wk0.
Proof.
  destruct det_facts as (Hm & Hlt & _).
  intros Hw'. destruct (decide (w' = w)) as [->|Hww].
  - unfold ws' in Hw'. rewrite list_lookup_insert_eq in Hw'
      by (by eapply lookup_lt_Some).
    injection Hw' as <-. destruct Hidle as [Hi Hd]. split.
    + intros q Hq. rewrite Hd in Hq. by apply elem_of_nil in Hq.
    + by rewrite Hi.
  - unfold ws' in Hw'. rewrite list_lookup_insert_ne in Hw' by done.
    apply (worker_ok_ext H H'); [by apply (inv_workers _ _ _ _ _ _ _ _ Inv)| |].
    + intros q fq gq Hq Hmq.
      destruct (det_old q fq gq Hq) as (fq' & Hq' & _ & X2 & _ & X4 & X5 & X6).
      { intros ->. rewrite Hc in Hq. injection Hq as <- <-.
        rewrite Hm in Hmq. destruct Hmq as [[=]|[=]]. done. }
      exists fq', gq. done.
    + intros x fx gx dq Hx Hmx Hcx. apply det_chain; [|done].
      intros ->. rewrite Hc in Hx. injection Hx as <- <-. congruence.
Qed.

Lemma det_modes : modes_ok H' ws'.
Proof.
  destruct det_facts as (Hm & Hlt & Hno & Hnq).
  assert (Hother : ∀ x fx gx, H !! x = Some (fx, gx) → x ≠ c →
            match gm gx with
            | own w0 => ∃ wk0, ws' !! w0 = Some wk0
                  ∧ (w_status wk0 = running x ∨ w_status wk0 = suspending x)
            | queued w0 => ∃ wk0, ws' !! w0 = Some wk0 ∧ x ∈ w_deque wk0
            | _ => True
            end).
  { intros x fx gx Hx Hxc.
    pose proof (inv_modes _ _ _ _ _ _ _ _ Inv x fx gx Hx) as Hmo.
    destruct (gm gx) as [w0|w0| |] eqn:Hgx; [| |done..].
    - destruct Hmo as (wk0 & Hwk0 & Hs). destruct (decide (w0 = w)) as [->|Hne0].
      + exfalso. apply Hxc. by apply (own_running Inv w wk c x fx gx).
      + exists wk0. unfold ws'. by rewrite list_lookup_insert_ne.
    - destruct Hmo as (wk0 & Hwk0 & Hs). destruct (decide (w0 = w)) as [->|Hne0].
      + rewrite Hw in Hwk0. injection Hwk0 as <-.
        rewrite Hempty in Hs. by apply elem_of_nil in Hs.
      + exists wk0. unfold ws'. by rewrite list_lookup_insert_ne. }
  intros x fx gx [(-> & -> & ->)|(Hx2 & Hxc & Hx)]%det_cases.
  - apply (Hother p f g Hp). lia.
  - by apply (Hother x fx gx).
Qed.

Lemma det_stolen (x : nat) (fx : frame) (gx : ghost) :
  H' !! x = Some (fx, gx) → m_steal fx ≠ 0 → chain H' x [].
Proof.
  destruct det_facts as (Hm & Hlt & _).
  destruct Hlink as (Hl1 & Hl2 & Hl3 & Hl4 & Hl5 & Hl6).
  intros [(-> & -> & ->)|(Hx2 & Hxc & Hx)]%det_cases Hs.
  - apply det_chain; [lia|]. apply (inv_stolen _ _ _ _ _ _ _ _ Inv p f g Hp). congruence.
  - apply det_chain; [done|]. by apply (inv_stolen _ _ _ _ _ _ _ _ Inv x fx gx Hx).
Qed.

Lemma det_root : root_ok V H' sem res.
Proof.
  destruct det_facts as (Hm & Hlt & _).
  destruct Hlink as (Hl1 & Hl2 & Hl3 & Hl4 & Hl5 & Hl6).
  destruct (inv_root _ _ _ _ _ _ _ _ Inv) as [R1 R2]. split.
  - intros x fx gx [(-> & -> & ->)|(Hx2 & Hxc & Hx)]%det_cases Ht.
    + apply (R1 p f g Hp). congruence.
    + by apply (R1 x fx gx Hx).
  - destruct (decide (p = 0%nat)) as [E|Hp0].
    + pose proof det_lookup_p as L. pose proof Hp as Hp0. rewrite E in L, Hp0.
      rewrite L. rewrite Hp0 in R2. by rewrite Hl2.
    + rewrite det_lookup_other by lia.
      destruct (H !! 0%nat) as [[f0 g0]|] eqn:H0; [done|].
      destruct R2 as (-> & _). by rewrite lookup_empty in Hp.
Qed.

Lemma det_potential : (potential H' ws' < potential H ws)%nat.
Proof.
  destruct det_facts as (Hm & Hlt & _).
  destruct Hlink as (Hl1 & Hl2 & Hl3 & Hl4 & Hl5 & Hl6).
  unfold potential, H', ws'.
  pose proof (heap_cost_update H p (f, g) (fp', g) Hp) as E1.
  assert (Hc' : <[p := (fp', g)]> H !! c = Some (fc, gc0))
    by (rewrite lookup_insert_ne by lia; done).
  pose proof (heap_cost_delete _ c _ Hc') as E2.
  pose proof (workers_cost_update ws w wk wk' Hw) as E3.
  assert (worker_cost wk' = 0)%nat as E4.
  { unfold worker_cost. destruct Hidle as [-> ->]. done. }
  assert (frame_cost (fp', g) = frame_cost (f, g)) as E6.
  { unfold frame_cost. simpl. by rewrite Hl6. }
  assert (1 ≤ frame_cost (fc, gc0))%nat as E5.
  { unfold frame_cost. simpl. destruct Hleaf as (_ & [cd Hcd]). rewrite Hcd.
    destruct (inv_frames _ _ _ _ _ _ _ _ Inv c fc gc0 Hc) as (_ & _ & Hbody & _).
    rewrite Hcd in Hbody. destruct Hbody as [Hs _].
    destruct cd; simpl in *; lia. }
  lia.
Qed.

Lemma inv_return_detached :
  invariant stacks single V H' ws' sem res next
  ∧ (potential H' ws' < potential H ws)%nat.
Proof.
  split; [split|].
  - apply det_frames.
  - apply det_children.
  - apply det_unique.
  - apply det_exist.
  - apply det_workers.
  - apply det_modes.
  - apply det_stolen.
  - apply det_root.
  - apply det_potential.
Qed.

End return_detached.

(** ** The last stolen task returns and resumes the parent at its join *)

Section return_last.

Context {stacks single : bool} {V : Z} {H : gmap nat (frame * ghost)} {ws : list worker}
  {sem : nat} {res : option Z} {next : nat}.
Context (Inv : invariant stacks single V H ws sem res next).
Context (w : nat) (wk : worker) (c : nat) (fc : frame) (gc0 : ghost)
  (p : nat) (f : frame) (g : ghost) (i : nat).
Context (Hw : ws !! w = Some wk) (Hst : w_status wk = running c)
  (Hc : H !! c = Some (fc, gc0)) (Hp : H !! p = Some (f, g)).
Context (Hleaf : f_locals fc = [] ∧ (∃ cd, f_body fc = at_code cd)).
Context (Hpar : m_parent fc = Some p) (Hret : f_ret fc = ret_local i).
Context (Hempty : w_deque wk = []).
Context (Hlost : gm g = lost) (Hone : pending (f_locals f) = 1%nat).
Context (fp' : frame) (gp' : ghost) (wk' : worker).
Context (Hok' : frame_ok single next p fp' gp').
Context (Hlink : m_parent fp' = m_parent f ∧ f_tag fp' = f_tag f ∧ f_ret fp' = f_ret f
                 ∧ m_top fp' = m_top f ∧ gv gp' = gv g).
Context (Hnew : f_locals fp' = [] ∧ m_steal fp' = 0 ∧ (∃ c', f_body fp' = at_code c')
                ∧ gm gp' = own w).
Context (Hwk' : w_status wk' = running p ∧ w_deque wk' = []
                ∧ (f_tag f ≠ root → w_asp wk' = m_top f)).
Context (Hcost : (frame_cost (fp', gp') ≤ frame_cost (f, g))%nat).

Let H' : gmap nat (frame * ghost) := delete c (<[p := (fp', gp')]> H).
Let ws' : list worker := <[w := wk']> ws.

Lemma last_facts :
  gm gc0 = own w ∧ (p < c)%nat ∧ chain H p [] ∧ f_locals f !! i = Some None
  ∧ ∃ k, f_body f = at_join k.
Proof.
  destruct (running_frame Inv w wk c Hw Hst) as (f0 & g0 & Hc0 & Hm & _).
  rewrite Hc in Hc0. injection Hc0 as <- <-.
  pose proof (inv_children _ _ _ _ _ _ _ _ Inv c fc gc0 Hc) as Hch.
  unfold child_ok in Hch. rewrite Hpar, Hret in Hch.
  destruct Hch as (f1 & g1 & Hp1 & Hlt & (Hi & _) & _).
  rewrite Hp in Hp1. injection Hp1 as <- <-.
  destruct (inv_frames _ _ _ _ _ _ _ _ Inv p f g Hp) as (_ & _ & _ & Hcnt & Hmode & _).
  split_and!; try done.
  - apply (inv_stolen _ _ _ _ _ _ _ _ Inv p f g Hp).
    destruct Hcnt as (_ & Hlive & _ & _ & _ & Hj). rewrite Hlost in Hj. lia.
  - unfold mode_ok in Hmode. rewrite Hlost in Hmode.
    destruct (f_body f) as [| |k]; [done..|]. by exists k.
Qed.

Lemma last_only (x : nat) (fx : frame) (gx : ghost) :
  H !! x = Some (fx, gx) → m_parent fx = Some p → x = c.
Proof.
  destruct last_facts as (_ & _ & _ & Hi & [k Hk]).
  intros Hx Hpx. pose proof (inv_children _ _ _ _ _ _ _ _ Inv x fx gx Hx) as Hch.
  unfold child_ok in Hch. rewrite Hpx in Hch.
  destruct Hch as (f1 & g1 & Hp1 & _ & Hr & _).
  rewrite Hp in Hp1. injection Hp1 as <- <-.
  destruct (f_ret fx) as [|j|] eqn:Erx; [done| |].
  - destruct Hr as (Hj & _). destruct (decide (j = i)) as [->|Hji].
    + apply (inv_unique _ _ _ _ _ _ _ _ Inv x c fx gx fc gc0 p); congruence.
    + pose proof (pending_two _ _ _ Hj Hi Hji). lia.
  - destruct Hr as ([k' Hk'] & _). congruence.
Qed.

Lemma last_lookup_p : H' !! p = Some (fp', gp').
Proof.
  destruct last_facts as (_ & Hlt & _).
  unfold H'. rewrite lookup_delete_ne by lia. by rewrite lookup_insert_eq.
Qed.

Lemma last_lookup_other (x : nat) : x ≠ p → x ≠ c → H' !! x = H !! x.
Proof. intros H1 H2. unfold H'. rewrite lookup_delete_ne by done. by rewrite lookup_insert_ne. Qed.

Lemma last_cases (x : nat) (fx : frame) (gx : ghost) :
  H' !! x = Some (fx, gx) →
  (x = p ∧ fx = fp' ∧ gx = gp') ∨ (x ≠ p ∧ x ≠ c ∧ H !! x = Some (fx, gx)).
Proof.
  unfold H'. intros Hx.
  apply lookup_delete_Some in Hx as [Hxc Hx].
  apply lookup_insert_Some in Hx as [[<- [= <- <-]]|[Hx2 Hx]]; [by left|by right].
Qed.

Lemma last_old (x : nat) (fx : frame) (gx : ghost) :
  H !! x = Some (fx, gx) → x ≠ c →
  ∃ fx' gx', H' !! x = Some (fx', gx') ∧ m_parent fx' = m_parent fx
             ∧ f_tag fx' = f_tag fx ∧ f_ret fx' = f_ret fx.
Proof.
  intros Hx Hxc. destruct (decide (x = p)) as [->|Hne].
  - rewrite Hp in Hx. injection Hx as <- <-.
    exists fp', gp'. rewrite last_lookup_p. by destruct Hlink as (? & ? & ? & _).
  - exists fx, gx. by rewrite last_lookup_other.
Qed.

Lemma last_new (x : nat) (fx : frame) (gx : ghost) :
  H' !! x = Some (fx, gx) →
  x ≠ c ∧ ∃ fx0 gx0, H !! x = Some (fx0, gx0) ∧ m_parent fx0 = m_parent fx
             ∧ f_tag fx0 = f_tag fx ∧ f_ret fx0 = f_ret fx.
Proof.
  destruct last_facts as (_ & Hlt & _).
  intros [(-> & -> & ->)|(Hne & Hxc & Hx)]%last_cases.
  - split; [lia|]. exists f, g. by destruct Hlink as (? & ? & ? & _).
  - split; [done|]. exists fx, gx. done.
Qed.

Lemma last_up (x : nat) : x ≠ c → up H' x = up H x.
Proof.
  intros Hxc. destruct Hlink as (Hl1 & Hl2 & Hl3 & _).
  unfold H'. rewrite up_delete; [|intros fx gx Hfx|done].
  - apply (up_insert H p f fp' g gp'); try done.
    + by apply (inv_parent_not_self Inv p f g).
    + intros fx gx Hfx Hpx _. exfalso. apply Hxc. by apply (last_only x fx gx).
  - apply lookup_insert_Some in Hfx as [[<- [= <- <-]]|[Hne' Hfx]].
    + rewrite Hl1. by apply (leaf_no_child Inv c fc gc0 p f g); destruct Hleaf.
    + by apply (leaf_no_child Inv c fc gc0 x fx gx); destruct Hleaf.
Qed.

Lemma last_chain (x : nat) (dq : list nat) :
  x ≠ c → chain H x dq → chain H' x dq.
Proof.
  apply chain_ext_except; [apply last_up|].
  intros y q b' Hupy. apply up_Some in Hupy as (fy & gy & ? & ? & Hy & Hpy & _).
  intros ->. by apply (leaf_no_child Inv c fc gc0 y fy gy); destruct Hleaf.
Qed.

Lemma last_frames (x : nat) (fx : frame) (gx : ghost) :
  H' !! x = Some (fx, gx) → frame_ok single next x fx gx.
Proof.
  intros [(-> & -> & ->)|(_ & _ & Hx)]%last_cases; [done|].
  by apply (inv_frames _ _ _ _ _ _ _ _ Inv).
Qed.

Lemma last_children (x : nat) (fx : frame) (gx : ghost) :
  H' !! x = Some (fx, gx) → child_ok stacks H' x fx gx.
Proof.
  destruct last_facts as (Hm & Hlt & _).
  destruct Hlink as (Hl1 & Hl2 & Hl3 & Hl4 & Hl5).
  intros [(-> & -> & ->)|(Hx2 & Hxc & Hx)]%last_cases.
  - pose proof (inv_children _ _ _ _ _ _ _ _ Inv p f g Hp) as Hchp.
    unfold child_ok in *. rewrite Hl1.
    destruct (m_parent f) as [pp|] eqn:Hpp; [|done].
    destruct Hchp as (fpp & gpp & Hfpp & Hlt' & Hr & Hcall & Hat).
    exists fpp, gpp. split; [|split; [done|]].
    { rewrite last_lookup_other; [done|lia|lia]. }
    rewrite Hl3, Hl2, Hl4, Hl5.
    rewrite (attached_same_child fpp gpp f fp') by done. done.
  - pose proof (inv_children _ _ _ _ _ _ _ _ Inv x fx gx Hx) as Hchx.
    unfold child_ok in *.
    destruct (m_parent fx) as [q|] eqn:Hq; [|done].
    destruct Hchx as (fq & gq & Hfq & Hlt' & Hr & Hcall & Hat).
    assert (q ≠ p) as Hqp by (intros ->; by apply Hxc, (last_only x fx gx)).
    exists fq, gq. split; [|done]. rewrite last_lookup_other; [done..|].
    intros ->. by apply (leaf_no_child Inv c fc gc0 x fx gx); destruct Hleaf.
Qed.

Lemma last_unique : children_unique H'.
Proof.
  intros x x' fx gx fx' gx' q Hx Hx' Hq Hq' Hr.
  destruct (last_new x fx gx Hx) as (_ & fx0 & gx0 & Hx0 & Hp0 & _ & Hr0).
  destruct (last_new x' fx' gx' Hx') as (_ & fx0' & gx0' & Hx0' & Hp0' & _ & Hr0').
  apply (inv_unique _ _ _ _ _ _ _ _ Inv x x' fx0 gx0 fx0' gx0' q); congruence.
Qed.

Lemma last_exist : children_exist H'.
Proof.
  destruct last_facts as (Hm & Hlt & _).
  destruct Hnew as (Hn1 & Hn2 & [c' Hn3] & Hn4).
  intros q fq gq [(-> & -> & ->)|(Hx2 & Hxc & Hq)]%last_cases.
  - split.
    + intros j Hj. by rewrite Hn1 in Hj.
    + intros [k Hk]. congruence.
  - destruct (inv_exist _ _ _ _ _ _ _ _ Inv q fq gq Hq) as [E1 E2].
    assert (Hnc : ∀ c0 fc0 gc1, H !! c0 = Some (fc0, gc1) → m_parent fc0 = Some q → c0 ≠ c).
    { intros c0 fc0 gc1 Hc0 Hpc ->. rewrite Hc in Hc0. congruence. }
    split.
    + intros j Hj. destruct (E1 j Hj) as (c0 & fc0 & gc1 & Hc0 & Hpc & Hrc).
      destruct (last_old c0 fc0 gc1 Hc0) as (fc' & gc' & Hc' & X1 & _ & X3); [by eapply Hnc|].
      exists c0, fc', gc'. split_and!; congruence.
    + intros Hk. destruct (E2 Hk) as (c0 & fc0 & gc1 & Hc0 & Hpc & Hrc).
      destruct (last_old c0 fc0 gc1 Hc0) as (fc' & gc' & Hc' & X1 & _ & X3); [by eapply Hnc|].
      exists c0, fc', gc'. split_and!; congruence.
Qed.

Lemma last_workers (w' : nat) (wk0 : worker) :
  ws' !! w' = Some wk0 → worker_ok stacks H' w' wk0.
Proof.
  destruct last_facts as (Hm & Hlt & Hch & _).
  destruct Hlink as (Hl1 & Hl2 & Hl3 & Hl4 & Hl5).
  destruct Hnew as (Hn1 & Hn2 & Hn3 & Hn4).
  destruct Hwk' as (Hs' & Hd' & Hasp').
  intros Hw'. destruct (decide (w' = w)) as [->|Hww].
  - unfold ws' in Hw'. rewrite list_lookup_insert_eq in Hw'
      by (by eapply lookup_lt_Some).
    injection Hw' as <-. split.
    + intros q Hq. rewrite Hd' in Hq. by apply elem_of_nil in Hq.
    + rewrite Hs'. exists fp', gp'. rewrite last_lookup_p, Hd'. split_and!; try done.
      * apply last_chain; [lia|done].
      * intros _ Hroot _. rewrite Hl4. apply Hasp'. congruence.
  - unfold ws' in Hw'. rewrite list_lookup_insert_ne in Hw' by done.
    apply (worker_ok_ext H H'); [by apply (inv_workers _ _ _ _ _ _ _ _ Inv)| |].
    + intros q fq gq Hq Hmq. exists fq, gq. split; [|done].
      rewrite last_lookup_other; [done| |].
      * intros ->. rewrite Hp in Hq. injection Hq as <- <-.
        rewrite Hlost in Hmq. by destruct Hmq.
      * intros ->. rewrite Hc in Hq. injection Hq as <- <-.
        rewrite Hm in Hmq. destruct Hmq as [[=]|[=]]. done.
    + intros x fx gx dq Hx Hmx Hcx. apply last_chain; [|done].
      intros ->. rewrite Hc in Hx. injection Hx as <- <-. congruence.
Qed.

Lemma last_modes : modes_ok H' ws'.
Proof.
  destruct last_facts as (Hm & Hlt & _).
  destruct Hnew as (Hn1 & Hn2 & Hn3 & Hn4).
  destruct Hwk' as (Hs' & Hd' & Hasp').
  assert (Hwk0 : ws' !! w = Some wk').
  { unfold ws'. apply list_lookup_insert_eq. by eapply lookup_lt_Some. }
  intros x fx gx [(-> & -> & ->)|(Hx2 & Hxc & Hx)]%last_cases.
  - rewrite Hn4. exists wk'. split; [done|]. by left.
  - pose proof (inv_modes _ _ _ _ _ _ _ _ Inv x fx gx Hx) as Hmo.
    destruct (gm gx) as [w0|w0| |] eqn:Hgx; [| |done..].
    + destruct Hmo as (wk0 & Hwk1 & Hs). destruct (decide (w0 = w)) as [->|Hne0].
      * exfalso. apply Hxc. by apply (own_running Inv w wk c x fx gx).
      * exists wk0. unfold ws'. by rewrite list_lookup_insert_ne.
    + destruct Hmo as (wk0 & Hwk1 & Hs). destruct (decide (w0 = w)) as [->|Hne0].
      * rewrite Hw in Hwk1. injection Hwk1 as <-.
        rewrite Hempty in Hs. by apply elem_of_nil in Hs.
      * exists wk0. unfold ws'. by rewrite list_lookup_insert_ne.
Qed.

Lemma last_stolen (x : nat) (fx : frame) (gx : ghost) :
  H' !! x = Some (fx, gx) → m_steal fx ≠ 0 → chain H' x [].
Proof.
  destruct last_facts as (Hm & Hlt & _).
  destruct Hnew as (Hn1 & Hn2 & Hn3 & Hn4).
  intros [(-> & -> & ->)|(Hx2 & Hxc & Hx)]%last_cases Hs; [done|].
  apply last_chain; [done|]. by apply (inv_stolen _ _ _ _ _ _ _ _ Inv x fx gx Hx).
Qed.

Lemma last_root : root_ok V H' sem res.
Proof.
  destruct last_facts as (Hm & Hlt & _).
  destruct Hlink as (Hl1 & Hl2 & Hl3 & Hl4 & Hl5).
  destruct (inv_root _ _ _ _ _ _ _ _ Inv) as [R1 R2]. split.
  - intros x fx gx [(-> & -> & ->)|(Hx2 & Hxc & Hx)]%last_cases Ht.
    + apply (R1 p f g Hp). congruence.
    + by apply (R1 x fx gx Hx).
  - destruct (decide (p = 0%nat)) as [E|Hp0].
    + pose proof last_lookup_p as L. pose proof Hp as Hp0. rewrite E in L, Hp0.
      rewrite L. rewrite Hp0 in R2. by rewrite Hl2, Hl5.
    + rewrite last_lookup_other by lia.
      destruct (H !! 0%nat) as [[f0 g0]|] eqn:H0; [done|].
      destruct R2 as (-> & _). by rewrite lookup_empty in Hp.
Qed.

Lemma last_potential : (potential H' ws' < potential H ws)%nat.
Proof.
  destruct last_facts as (Hm & Hlt & _).
  destruct Hwk' as (Hs' & Hd' & Hasp').
  unfold potential, H', ws'.
  pose proof (heap_cost_update H p (f, g) (fp', gp') Hp) as E1.
  assert (Hc' : <[p := (fp', gp')]> H !! c = Some (fc, gc0))
    by (rewrite lookup_insert_ne by lia; done).
  pose proof (heap_cost_delete _ c _ Hc') as E2.
  pose proof (workers_cost_update ws w wk wk' Hw) as E3.
  assert (worker_cost wk' = 0)%nat as E4.
  { unfold worker_cost. by rewrite Hs', Hd'. }
  assert (1 ≤ frame_cost (fc, gc0))%nat as E5.
  { unfold frame_cost. simpl. destruct Hleaf as (_ & [cd Hcd]). rewrite Hcd.
    destruct (inv_frames _ _ _ _ _ _ _ _ Inv c fc gc0 Hc) as (_ & _ & Hbody & _).
    rewrite Hcd in Hbody. destruct Hbody as [Hs _].
    destruct cd; simpl in *; lia. }
  lia.
Qed.

Lemma inv_return_last :
  invariant stacks single V H' ws' sem res next
  ∧ (potential H' ws' < potential H ws)%nat.
Proof.
  split; [split|].
  - apply last_frames.
  - apply last_children.
  - apply last_unique.
  - apply last_exist.
  - apply last_workers.
  - apply last_modes.
  - apply last_stolen.
  - apply last_root.
  - apply last_potential.
Qed.

End return_last.

(** ** The root returns *)

Section return_root.

Context {stacks single : bool} {V : Z} {H : gmap nat (frame * ghost)} {ws : list worker}
  {sem : nat} {res : option Z} {next : nat}.
Context (Inv : invariant stacks single V H ws sem res next).
Context (w : nat) (wk : worker) (f0 : frame) (g0 : ghost).
Context (Hw : ws !! w = Some wk) (Hst : w_status wk = running 0%nat)
  (H0 : H !! 0%nat = Some (f0, g0)).
Context (Hleaf : f_locals f0 = [] ∧ (∃ cd, f_body f0 = at_code cd)).

Let wk' : worker := with_status idle wk.
Let ws' : list worker := <[w := wk']> ws.

Lemma root_facts : gm g0 = own w ∧ f_tag f0 = root ∧ gv g0 = V ∧ sem = 0%nat.
Proof.
  destruct (running_frame Inv w wk 0%nat Hw Hst) as (f1 & g1 & H1 & Hm & _).
  rewrite H0 in H1. injection H1 as <- <-.
  destruct (inv_root _ _ _ _ _ _ _ _ Inv) as [_ R2]. rewrite H0 in R2.
  destruct R2 as (? & ? & ? & _). done.
Qed.

(** When the root returns it is the only frame. *)
Lemma root_only (x : nat) (y : frame * ghost) : H !! x = Some y → x = 0%nat.
Proof.
  revert y. induction (lt_wf x) as [x _ IH]. intros [fx gx] Hx.
  destruct (m_parent fx) as [q|] eqn:Hq.
  - destruct (inv_parent Inv x q fx gx Hx Hq) as (fq & gq & Hfq & Hlt).
    pose proof (IH q Hlt _ Hfq) as ->.
    exfalso. by apply (leaf_no_child Inv 0%nat f0 g0 x fx gx); destruct Hleaf.
  - destruct (inv_frames _ _ _ _ _ _ _ _ Inv x fx gx Hx) as (_ & _ & _ & _ & _ & Ht).
    unfold tags_ok in Ht. rewrite Hq in Ht.
    destruct (inv_root _ _ _ _ _ _ _ _ Inv) as [R1 _]. apply (R1 x fx gx Hx).
    destruct (f_tag fx); [done|by destruct (f_ret fx)..].
Qed.

Lemma root_deque : w_deque wk = [].
Proof.
  destruct (running_frame Inv w wk 0%nat Hw Hst) as (f1 & g1 & H1 & _ & _ & Hch & _).
  inversion Hch as [? U|? p' dq' U C'|? p' dq' U C']; [done| |];
    apply up_Some in U as (fc & g & fp & gp & Hc & Hpar & Hp & _);
    destruct (inv_parent Inv _ _ _ _ Hc Hpar) as (? & ? & _ & Hlt); lia.
Qed.

Lemma root_idle (w' : nat) (wk0 : worker) :
  ws !! w' = Some wk0 → w' ≠ w → w_status wk0 = idle ∧ w_deque wk0 = [].
Proof.
  destruct root_facts as (Hm & _).
  intros Hw' Hne. destruct (inv_workers _ _ _ _ _ _ _ _ Inv w' wk0 Hw') as [Hd Hs].
  assert (w_deque wk0 = []) as Hnil.
  { destruct (w_deque wk0) as [|q d]; [done|]. exfalso.
    destruct (Hd q) as (fq & gq & Hq & Hmq); [apply elem_of_cons; by left|].
    pose proof (root_only q _ Hq) as ->. rewrite H0 in Hq. injection Hq as <- <-.
    congruence. }
  split; [|done].
  destruct (w_status wk0) as [|p|p]; [done| |].
  - destruct Hs as (fp & gp & Hp & Hmp & _).
    pose proof (root_only p _ Hp) as ->. rewrite H0 in Hp. injection Hp as <- <-.
    congruence.
  - destruct Hs as (fp & gp & Hp & Hmp & _).
    pose proof (root_only p _ Hp) as ->. rewrite H0 in Hp. injection Hp as <- <-.
    congruence.
Qed.

Lemma root_workers (w' : nat) (wk0 : worker) :
  ws' !! w' = Some wk0 → worker_ok stacks ∅ w' wk0.
Proof.
  intros Hw'. assert (w_status wk0 = idle ∧ w_deque wk0 = []) as [Hs Hd].
  { destruct (decide (w' = w)) as [->|Hne].
    - unfold ws' in Hw'. rewrite list_lookup_insert_eq in Hw'
        by (by eapply lookup_lt_Some).
      injection Hw' as <-. split; [done|]. apply root_deque.
    - unfold ws' in Hw'. rewrite list_lookup_insert_ne in Hw' by done.
      by apply (root_idle w'). }
  split.
  - intros q Hq. rewrite Hd in Hq. by apply elem_of_nil in Hq.
  - by rewrite Hs.
Qed.

Lemma root_potential : (potential ∅ ws' < potential H ws)%nat.
Proof.
  unfold potential, ws'.
  pose proof (heap_cost_delete H 0%nat _ H0) as E2.
  pose proof (workers_cost_update ws w wk wk' Hw) as E3.
  assert (worker_cost wk' ≤ worker_cost wk)%nat as E4.
  { unfold worker_cost. simpl. rewrite Hst. lia. }
  assert (1 ≤ frame_cost (f0, g0))%nat as E5.
  { unfold frame_cost. simpl. destruct Hleaf as (_ & [cd Hcd]). rewrite Hcd.
    destruct (inv_frames _ _ _ _ _ _ _ _ Inv 0%nat f0 g0 H0) as (_ & _ & Hbody & _).
    rewrite Hcd in Hbody. destruct Hbody as [Hs _].
    destruct cd; simpl in *; lia. }
  assert (heap_cost (∅ : gmap nat (frame * ghost)) = 0%nat) as E6 by done.
  lia.
Qed.

Lemma inv_return_root :
  invariant stacks single V ∅ ws' (S sem) (Some (gv g0)) next
  ∧ (potential ∅ ws' < potential H ws)%nat.
Proof.
  destruct root_facts as (Hm & Ht & Hv & Hs).
  split; [split|].
  - intros p f g Hp. by rewrite lookup_empty in Hp.
  - intros p f g Hp. by rewrite lookup_empty in Hp.
  - intros c c' fc g fc' g' p Hc. by rewrite lookup_empty in Hc.
  - intros p f g Hp. by rewrite lookup_empty in Hp.
  - apply root_workers.
  - intros p f g Hp. by rewrite lookup_empty in Hp.
  - intros p f g Hp. by rewrite lookup_empty in Hp.
  - split.
    + intros p f g Hp. by rewrite lookup_empty in Hp.
    + rewrite lookup_empty. rewrite Hs, Hv. done.
  - apply root_potential.
Qed.

End return_root.

(** ** A steal *)

(** The oldest entry of a deque ends the chain. *)
Lemma chain_oldest {stacks : bool} (H : gmap nat (frame * ghost)) (r : nat) (dq d : list nat) (q : nat) :
  (∀ x fx gx, H !! x = Some (fx, gx) → child_ok stacks H x fx gx) →
  chain H r dq → dq = d ++ [q] →
  chain H q [] ∧ ∀ x, x ∈ d → (q < x)%nat.
Proof.
  intros Hch Hc. revert d. induction Hc as [c U|c p dq U _ IH|c p dq U Hc IH]; intros d Hd.
  - by destruct d.
  - by apply IH.
  - destruct d as [|p' d'].
    + simpl in Hd. injection Hd as -> ->. split; [done|].
      intros x Hx. by apply elem_of_nil in Hx.
    + simpl in Hd. injection Hd as <- ->.
      destruct (IH d' eq_refl) as [Hq Hlt]. split; [done|].
      intros x [->|Hx]%elem_of_cons; [|by apply Hlt].
      apply (chain_lt H p (d' ++ [q]) Hch Hc). apply elem_of_app. right.
      apply elem_of_cons. by left.
Qed.

(** Chains that do not pass through [q] do not see that [q] left the deque. *)
Lemma chain_ext_notin (H H' : gmap nat (frame * ghost)) (q : nat) (x : nat) (dq : list nat) :
  (∀ y, up H y ≠ Some (q, true) → up H' y = up H y) →
  chain H x dq → q ∉ dq → chain H' x dq.
Proof.
  intros Hup Hc. induction Hc as [c U|c p dq U _ IH|c p dq U Hc IH]; intros Hq.
  - apply chain_stop. rewrite Hup; [done|]. by rewrite U.
  - apply (chain_call _ _ p); [|by apply IH]. rewrite Hup; [done|]. by rewrite U.
  - apply not_elem_of_cons in Hq as [Hne Hq].
    apply chain_fork; [|by apply IH]. rewrite Hup; [done|]. rewrite U. congruence.
Qed.

Lemma chain_steal {stacks : bool} (H H' : gmap nat (frame * ghost)) (r : nat) (dq d : list nat) (q : nat) :
  (∀ x fx gx, H !! x = Some (fx, gx) → child_ok stacks H x fx gx) →
  (∀ y, up H y ≠ Some (q, true) → up H' y = up H y) →
  (∀ y, up H y = Some (q, true) → up H' y = None) →
  chain H r dq → dq = d ++ [q] → chain H' r d.
Proof.
  intros Hch Hup Hcut Hc. revert d.
  induction Hc as [c U|c p dq U _ IH|c p dq U Hc IH]; intros d Hd.
  - by destruct d.
  - apply (chain_call _ _ p); [|by apply IH]. rewrite Hup; [done|]. by rewrite U.
  - destruct d as [|p' d'].
    + simpl in Hd. injection Hd as -> ->. apply chain_stop. by apply Hcut.
    + simpl in Hd. injection Hd as <- ->.
      apply chain_fork; [|by apply IH]. rewrite Hup; [done|]. rewrite U.
      assert (q < p)%nat; [|intros [=]; lia].
      apply (chain_lt H p (d' ++ [q]) Hch Hc). apply elem_of_app. right.
      apply elem_of_cons. by left.
Qed.

Section steal.

Context {single : bool} {V : Z} {H : gmap nat (frame * ghost)} {ws : list worker}
  {sem : nat} {res : option Z} {next : nat}.
Context (Inv : invariant false single V H ws sem res next).
Context (me vi : nat) (wt wv : worker) (q : nat) (d : list nat) (f : frame) (g : ghost)
  (s a : nat).
Context (Hme : ws !! me = Some wt) (Hvi : ws !! vi = Some wv) (Hne : me ≠ vi).
Context (Hidle : w_status wt = idle) (Hdq : w_deque wv = d ++ [q]).
Context (Hq : H !! q = Some (f, g)).
Context (fq' : frame) (gq' : ghost).
Context (Hok' : frame_ok single next q fq' gq').
Context (Hlink : m_parent fq' = m_parent f ∧ f_tag fq' = f_tag f ∧ f_ret fq' = f_ret f
                 ∧ m_top fq' = m_top f ∧ f_body fq' = f_body f
                 ∧ f_locals fq' = f_locals f).
Context (Hghost : gv gq' = gv g ∧ gl gq' = gl g ∧ gc gq' = gc g ∧ gm gq' = own me).
Context (Hsteal : m_steal fq' ≠ 0).

Let H' : gmap nat (frame * ghost) := <[q := (fq', gq')]> H.
Let wt' : worker := with_status (running q) (with_asp a wt).
Let wv' : worker := with_asp s (with_deque d wv).
Let ws' : list worker := <[me := wt']> (<[vi := wv']> ws).

Lemma steal_facts :
  gm g = queued vi ∧ w_deque wt = [] ∧ (∃ c, f_body f = at_code c)
  ∧ ∃ r fr gr, w_status wv = running r ∧ H !! r = Some (fr, gr) ∧ gm gr = own vi
      ∧ (∃ c, f_body fr = at_code c)
      ∧ chain H r (d ++ [q])
      ∧ chain H r (w_deque wv).
Proof.
  destruct (deque_queued Inv vi wv q Hvi) as (f1 & g1 & Hq1 & Hm).
  { rewrite Hdq. apply elem_of_app. right. apply elem_of_cons. by left. }
  rewrite Hq in Hq1. injection Hq1 as <- <-.
  destruct (inv_workers _ _ _ _ _ _ _ _ Inv me wt Hme) as [_ Hs]. rewrite Hidle in Hs.
  destruct (inv_frames _ _ _ _ _ _ _ _ Inv q f g Hq) as (_ & _ & _ & _ & Hmode & _).
  unfold mode_ok in Hmode. rewrite Hm in Hmode.
  split_and!; try done.
  - destruct (f_body f) as [c| |]; [|done..]. by exists c.
  - destruct (inv_workers _ _ _ _ _ _ _ _ Inv vi wv Hvi) as [_ Hsv].
    destruct (w_status wv) as [|r|r].
    + rewrite Hdq in Hsv. by destruct d.
    + destruct Hsv as (fr & gr & Hr & Hmr & Hb & Hc & Hasp).
      exists r, fr, gr. rewrite <- Hdq. done.
    + destruct Hsv as (fr & gr & Hr & Hmr & Hb & _ & Hd).
      rewrite Hdq in Hd. by destruct d.
Qed.

Lemma steal_lookup_q : H' !! q = Some (fq', gq').
Proof. unfold H'. by rewrite lookup_insert_eq. Qed.

Lemma steal_lookup_other (x : nat) : x ≠ q → H' !! x = H !! x.
Proof. intros H1. unfold H'. by rewrite lookup_insert_ne. Qed.

Lemma steal_cases (x : nat) (fx : frame) (gx : ghost) :
  H' !! x = Some (fx, gx) →
  (x = q ∧ fx = fq' ∧ gx = gq') ∨ (x ≠ q ∧ H !! x = Some (fx, gx)).
Proof.
  unfold H'. intros Hx.
  apply lookup_insert_Some in Hx as [[<- [= <- <-]]|[Hx2 Hx]]; [by left|by right].
Qed.

Lemma steal_old (x : nat) (fx : frame) (gx : ghost) :
  H !! x = Some (fx, gx) →
  ∃ fx' gx', H' !! x = Some (fx', gx') ∧ m_parent fx' = m_parent fx
             ∧ f_tag fx' = f_tag fx ∧ f_ret fx' = f_ret fx.
Proof.
  intros Hx. destruct (decide (x = q)) as [->|Hxq].
  - rewrite Hq in Hx. injection Hx as <- <-.
    exists fq', gq'. rewrite steal_lookup_q. by destruct Hlink as (? & ? & ? & _).
  - exists fx, gx. by rewrite steal_lookup_other.
Qed.

Lemma steal_new (x : nat) (fx : frame) (gx : ghost) :
  H' !! x = Some (fx, gx) →
  ∃ fx0 gx0, H !! x = Some (fx0, gx0) ∧ m_parent fx0 = m_parent fx
             ∧ f_tag fx0 = f_tag fx ∧ f_ret fx0 = f_ret fx.
Proof.
  intros [(-> & -> & ->)|(Hxq & Hx)]%steal_cases.
  - exists f, g. by destruct Hlink as (? & ? & ? & _).
  - exists fx, gx. done.
Qed.

Lemma steal_up (x : nat) :
  (up H x ≠ Some (q, true) → up H' x = up H x)
  ∧ (up H x = Some (q, true) → up H' x = None).
Proof.
  destruct Hlink as (Hl1 & Hl2 & Hl3 & _).
  destruct Hghost as (_ & _ & _ & Hm').
  unfold up, H'. destruct (decide (x = q)) as [E|Hxq].
  - rewrite E. rewrite lookup_insert_eq, Hq, Hl1.
    destruct (m_parent f) as [pp|] eqn:Hpp; [|done].
    assert (pp ≠ q) as Hppq.
    { intros ->. by apply (inv_parent_not_self Inv q f g). }
    rewrite lookup_insert_ne by done.
    destruct (H !! pp) as [[fpp gpp]|]; [|done].
    rewrite Hl2, (attached_same_child fpp gpp f fq') by done.
    split; [done|]. destruct (f_tag f); [done..|].
    destruct (attached fpp gpp f); [|done]. intros [=]. done.
  - rewrite lookup_insert_ne by done.
    destruct (H !! x) as [[fx gx]|] eqn:Hfx; [|done].
    destruct (m_parent fx) as [px|] eqn:Hpx; [|done].
    destruct (decide (px = q)) as [E|Hpq].
    + rewrite E. rewrite lookup_insert_eq, Hq.
      destruct (f_tag fx) eqn:Htx; [done|done|].
      assert (attached fq' gq' fx = false) as ->.
      { unfold attached. by rewrite Htx, Hm'. }
      destruct (attached f g fx); [|done]. split; [|done]. intros Hc. by destruct Hc.
    + rewrite lookup_insert_ne by done.
      split; [done|]. destruct (H !! px) as [[fpx gpx]|]; [|done].
      destruct (f_tag fx); [done|intros [=]; done|].
      destruct (attached fpx gpx fx); [|done]. intros [=]. done.
Qed.

Lemma steal_chain (x : nat) (dq : list nat) :
  chain H x dq → q ∉ dq → chain H' x dq.
Proof. apply chain_ext_notin. intros y. apply steal_up. Qed.

Lemma steal_frames (x : nat) (fx : frame) (gx : ghost) :
  H' !! x = Some (fx, gx) → frame_ok single next x fx gx.
Proof.
  intros [(-> & -> & ->)|(_ & Hx)]%steal_cases; [done|].
  by apply (inv_frames _ _ _ _ _ _ _ _ Inv).
Qed.

Lemma steal_children (x : nat) (fx : frame) (gx : ghost) :
  H' !! x = Some (fx, gx) → child_ok false H' x fx gx.
Proof.
  destruct steal_facts as (Hm & _).
  destruct Hlink as (Hl1 & Hl2 & Hl3 & Hl4 & Hl5 & Hl6).
  destruct Hghost as (Hg1 & Hg2 & Hg3 & Hg4).
  intros [(-> & -> & ->)|(Hxq & Hx)]%steal_cases.
  - pose proof (inv_children _ _ _ _ _ _ _ _ Inv q f g Hq) as Hchp.
    unfold child_ok in *. rewrite Hl1.
    destruct (m_parent f) as [pp|] eqn:Hpp; [|done].
    destruct Hchp as (fpp & gpp & Hfpp & Hlt' & Hr & Hcall & Hat).
    exists fpp, gpp. split; [|split; [done|]].
    { rewrite steal_lookup_other; [done|lia]. }
    rewrite Hl3, Hl2, Hl4, Hg1.
    rewrite (attached_same_child fpp gpp f fq') by done. done.
  - pose proof (inv_children _ _ _ _ _ _ _ _ Inv x fx gx Hx) as Hchx.
    unfold child_ok in *.
    destruct (m_parent fx) as [px|] eqn:Hpx; [|done].
    destruct Hchx as (fq & gq & Hfq & Hlt' & Hr & Hcall & Hat).
    destruct (decide (px = q)) as [->|Hpq].
    + rewrite Hq in Hfq. injection Hfq as <- <-.
      exists fq', gq'. split; [apply steal_lookup_q|]. split; [done|].
      assert (f_tag fx ≠ call) as Hnc.
      { intros Hcl. specialize (Hcall Hcl). congruence. }
      rewrite Hl6, Hg2, Hl5, Hg3. split; [done|]. split; [done|].
      intros [=].
    + exists fq, gq. split; [|done]. by rewrite steal_lookup_other.
Qed.

Lemma steal_unique : children_unique H'.
Proof.
  intros x x' fx gx fx' gx' p Hx Hx' Hp Hp' Hr.
  destruct (steal_new x fx gx Hx) as (fx0 & gx0 & Hx0 & Hp0 & _ & Hr0).
  destruct (steal_new x' fx' gx' Hx') as (fx0' & gx0' & Hx0' & Hp0' & _ & Hr0').
  apply (inv_unique _ _ _ _ _ _ _ _ Inv x x' fx0 gx0 fx0' gx0' p); congruence.
Qed.

Lemma steal_exist : children_exist H'.
Proof.
  destruct Hlink as (Hl1 & Hl2 & Hl3 & Hl4 & Hl5 & Hl6).
  assert (Hall : ∀ p fp gp, H !! p = Some (fp, gp) →
    (∀ i, f_locals fp !! i = Some None →
       ∃ c fc g, H' !! c = Some (fc, g) ∧ m_parent fc = Some p ∧ f_ret fc = ret_local i)
    ∧ ((∃ k, f_body fp = at_call k) →
       ∃ c fc g, H' !! c = Some (fc, g) ∧ m_parent fc = Some p ∧ f_ret fc = ret_call)).
  { intros p fp gp Hp. destruct (inv_exist _ _ _ _ _ _ _ _ Inv p fp gp Hp) as [E1 E2]. split.
    - intros i Hi. destruct (E1 i Hi) as (c0 & fc0 & gc1 & Hc0 & Hpc & Hrc).
      destruct (steal_old c0 fc0 gc1 Hc0) as (fc' & gc' & Hc' & X1 & _ & X3).
      exists c0, fc', gc'. split_and!; congruence.
    - intros Hk. destruct (E2 Hk) as (c0 & fc0 & gc1 & Hc0 & Hpc & Hrc).
      destruct (steal_old c0 fc0 gc1 Hc0) as (fc' & gc' & Hc' & X1 & _ & X3).
      exists c0, fc', gc'. split_and!; congruence. }
  intros p fp gp [(-> & -> & ->)|(Hxq & Hp)]%steal_cases.
  - rewrite Hl6, Hl5. by apply (Hall q f g).
  - by apply (Hall p fp gp).
Qed.

Lemma steal_ws_me : ws' !! me = Some wt'.
Proof.
  unfold ws'. apply list_lookup_insert_eq. rewrite length_insert.
  by eapply lookup_lt_Some.
Qed.

Lemma steal_ws_vi : ws' !! vi = Some wv'.
Proof.
  unfold ws'. rewrite list_lookup_insert_ne by done.
  apply list_lookup_insert_eq. by eapply lookup_lt_Some.
Qed.

Lemma steal_ws_other (w' : nat) : w' ≠ me → w' ≠ vi → ws' !! w' = ws !! w'.
Proof.
  intros H1 H2. unfold ws'. by rewrite !list_lookup_insert_ne.
Qed.

Lemma steal_oldest : chain H q [] ∧ ∀ x, x ∈ d → (q < x)%nat.
Proof.
  destruct steal_facts as (_ & _ & _ & r & fr & gr & _ & _ & _ & _ & Hch & _).
  apply (chain_oldest (stacks := false) H r (d ++ [q]) d q); try done.
  apply (inv_children _ _ _ _ _ _ _ _ Inv).
Qed.

Lemma steal_workers (w' : nat) (wk0 : worker) :
  ws' !! w' = Some wk0 → worker_ok false H' w' wk0.
Proof.
  destruct steal_facts as (Hm & Hdt & Hb & r & fr & gr & Hsv & Hr & Hmr & Hbr & Hch & Hasp).
  destruct steal_oldest as [Hcq Hlt].
  destruct Hlink as (Hl1 & Hl2 & Hl3 & Hl4 & Hl5 & Hl6).
  destruct Hghost as (Hg1 & Hg2 & Hg3 & Hg4).
  intros Hw'. destruct (decide (w' = me)) as [->|Hwm]; [|destruct (decide (w' = vi)) as [->|Hwv]].
  - rewrite steal_ws_me in Hw'. injection Hw' as <-. split.
    + intros x Hx. simpl in Hx. rewrite Hdt in Hx. by apply elem_of_nil in Hx.
    + simpl. exists fq', gq'. rewrite steal_lookup_q, Hdt, Hl5. split_and!; try done.
      apply steal_chain; [done|]. apply not_elem_of_nil.
  - rewrite steal_ws_vi in Hw'. injection Hw' as <-. split.
    + intros x Hx. simpl in Hx.
      destruct (deque_queued Inv vi wv x Hvi) as (fx & gx & Hfx & Hmx).
      { rewrite Hdq. apply elem_of_app. by left. }
      exists fx, gx. split; [|done]. rewrite steal_lookup_other; [done|].
      specialize (Hlt x Hx). lia.
    + simpl. rewrite Hsv. exists fr, gr. split_and!; try done.
      * rewrite steal_lookup_other; [done|]. intros ->.
        rewrite Hq in Hr. injection Hr as <- <-. congruence.
      * apply (chain_steal (stacks := false) H H' r (d ++ [q]) d q); try done.
        -- apply (inv_children _ _ _ _ _ _ _ _ Inv).
        -- intros y. apply steal_up.
        -- intros y. apply steal_up.
  - rewrite steal_ws_other in Hw' by done.
    pose proof (inv_workers _ _ _ _ _ _ _ _ Inv w' wk0 Hw') as Hok.
    apply (worker_ok_ext H H'); [done| |].
    + intros x fx gx Hx Hmx. exists fx, gx. split; [|done].
      rewrite steal_lookup_other; [done|]. intros ->.
      rewrite Hq in Hx. injection Hx as <- <-.
      rewrite Hm in Hmx. destruct Hmx as [[=]|[=]]. done.
    + intros x fx gx dq Hx Hmx Hcx. apply steal_chain; [done|].
      intros Hin. destruct (chain_queued H x dq Hcx q Hin) as (fq0 & gq0 & w0 & Hq0 & Hm0).
      destruct Hok as [Hd Hs].
      pose proof (inv_modes _ _ _ _ _ _ _ _ Inv x fx gx Hx) as Hmo. rewrite Hmx in Hmo.
      destruct Hmo as (wk1 & Hwk1 & Hst1). rewrite Hw' in Hwk1. injection Hwk1 as <-.
      destruct Hst1 as [Hst1|Hst1]; rewrite Hst1 in Hs.
      * destruct Hs as (f2 & g2 & Hx2 & _ & _ & Hc2 & _).
        pose proof (chain_inj H x _ _ Hcx Hc2) as E. rewrite E in Hin.
        destruct (Hd q Hin) as (f3 & g3 & Hq3 & Hm3).
        rewrite Hq in Hq3. injection Hq3 as <- <-. congruence.
      * assert (m_steal fx ≠ 0) as Hsx.
        { destruct Hs as (f2 & g2 & Hx2 & _ & _ & Hsx & _).
          rewrite Hx in Hx2. by injection Hx2 as <- <-. }
        pose proof (inv_stolen _ _ _ _ _ _ _ _ Inv x fx gx Hx Hsx) as Hc0.
        pose proof (chain_inj H x _ _ Hcx Hc0) as E. rewrite E in Hin.
        by apply elem_of_nil in Hin.
Qed.

Lemma steal_modes : modes_ok H' ws'.
Proof.
  destruct steal_facts as (Hm & Hdt & Hb & r & fr & gr & Hsv & Hr & Hmr & Hbr & Hch & Hasp).
  destruct Hghost as (Hg1 & Hg2 & Hg3 & Hg4).
  intros x fx gx [(-> & -> & ->)|(Hxq & Hx)]%steal_cases.
  - rewrite Hg4. exists wt'. split; [apply steal_ws_me|]. by left.
  - pose proof (inv_modes _ _ _ _ _ _ _ _ Inv x fx gx Hx) as Hmo.
    destruct (gm gx) as [w0|w0| |] eqn:Hgx; [| |done..].
    + destruct Hmo as (wk0 & Hwk0 & Hs).
      destruct (decide (w0 = me)) as [->|Hwm]; [|destruct (decide (w0 = vi)) as [->|Hwv]].
      * rewrite Hme in Hwk0. injection Hwk0 as <-. rewrite Hidle in Hs. by destruct Hs.
      * rewrite Hvi in Hwk0. injection Hwk0 as <-.
        exists wv'. split; [apply steal_ws_vi|]. done.
      * exists wk0. by rewrite steal_ws_other.
    + destruct Hmo as (wk0 & Hwk0 & Hs).
      destruct (decide (w0 = me)) as [->|Hwm]; [|destruct (decide (w0 = vi)) as [->|Hwv]].
      * rewrite Hme in Hwk0. injection Hwk0 as <-.
        exists wt'. split; [apply steal_ws_me|]. done.
      * rewrite Hvi in Hwk0. injection Hwk0 as <-.
        exists wv'. split; [apply steal_ws_vi|]. simpl.
        rewrite Hdq in Hs. apply elem_of_app in Hs as [Hs|Hs]; [done|].
        apply elem_of_cons in Hs as [Hs|Hs]; [done|]. by apply elem_of_nil in Hs.
      * exists wk0. by rewrite steal_ws_other.
Qed.

Lemma steal_stolen (x : nat) (fx : frame) (gx : ghost) :
  H' !! x = Some (fx, gx) → m_steal fx ≠ 0 → chain H' x [].
Proof.
  destruct steal_oldest as [Hcq _].
  intros [(-> & -> & ->)|(Hxq & Hx)]%steal_cases Hs.
  - apply steal_chain; [done|]. apply not_elem_of_nil.
  - apply steal_chain; [|apply not_elem_of_nil].
    by apply (inv_stolen _ _ _ _ _ _ _ _ Inv x fx gx Hx).
Qed.

Lemma steal_root : root_ok V H' sem res.
Proof.
  destruct Hlink as (Hl1 & Hl2 & Hl3 & Hl4 & Hl5 & Hl6).
  destruct Hghost as (Hg1 & Hg2 & Hg3 & Hg4).
  destruct (inv_root _ _ _ _ _ _ _ _ Inv) as [R1 R2]. split.
  - intros x fx gx [(-> & -> & ->)|(Hxq & Hx)]%steal_cases Ht.
    + apply (R1 q f g Hq). congruence.
    + by apply (R1 x fx gx Hx).
  - destruct (decide (q = 0%nat)) as [E|Hq0].
    + pose proof steal_lookup_q as L. pose proof Hq as Hq0. rewrite E in L, Hq0.
      rewrite L. rewrite Hq0 in R2. by rewrite Hl2, Hg1.
    + rewrite steal_lookup_other by lia.
      destruct (H !! 0%nat) as [[f0 g0]|] eqn:H0; [done|].
      destruct R2 as (-> & _). by rewrite lookup_empty in Hq.
Qed.

Lemma steal_potential : (potential H' ws' < potential H ws)%nat.
Proof.
  destruct Hlink as (Hl1 & Hl2 & Hl3 & Hl4 & Hl5 & Hl6).
  destruct Hghost as (Hg1 & Hg2 & Hg3 & Hg4).
  unfold potential, H', ws'.
  pose proof (heap_cost_update H q (f, g) (fq', gq') Hq) as E1.
  pose proof (workers_cost_update ws vi wv wv' Hvi) as E2.
  assert (<[vi := wv']> ws !! me = Some wt) as Hme'
    by (rewrite list_lookup_insert_ne by done; done).
  pose proof (workers_cost_update _ me wt wt' Hme') as E3.
  assert (frame_cost (fq', gq') = frame_cost (f, g)) as E4.
  { unfold frame_cost. simpl. by rewrite Hl5, Hg2, Hg3. }
  assert (worker_cost wt' = worker_cost wt) as E5.
  { unfold worker_cost. simpl. by rewrite Hidle. }
  assert (S (worker_cost wv') = worker_cost wv) as E6.
  { unfold worker_cost. simpl. rewrite Hdq, length_app. simpl. lia. }
  lia.
Qed.

Lemma inv_steal :
  invariant false single V H' ws' sem res next
  ∧ (potential H' ws' < potential H ws)%nat.
Proof.
  split; [split|].
  - apply steal_frames.
  - apply steal_children.
  - apply steal_unique.
  - apply steal_exist.
  - apply steal_workers.
  - apply steal_modes.
  - apply steal_stolen.
  - apply steal_root.
  - apply steal_potential.
Qed.

End steal.

(** * What one action does to the state *)





Ltac unfold_run :=
  unfold resume, finish_join, steal_from, stack_for_steal, run_code, transfer, return_value,
    set_root_result, set_status, await_transform, await_transform_fork,
    await_transform_call, invoke, allocate, awaitable_await_suspend,
    fork_awaitable_.await_suspend, call_awaitable_.await_suspend, rewrite_tag.


Ltac lk_side := first [done | lia | by eapply lookup_lt_Some].

Ltac lk :=
  repeat first
    [ rewrite lookup_insert_eq
    | rewrite lookup_insert_ne by lk_side
    | rewrite lookup_delete_ne by lk_side
    | rewrite list_lookup_insert_eq by (rewrite ?length_insert; lk_side)
    | rewrite list_lookup_insert_ne by lk_side
    | rewrite Z.eqb_refl
    | rewrite Nat.eqb_refl
    | match goal with
      | H : frames _ !! _ = Some _ |- _ => rewrite H
      | H : workers _ !! _ = Some _ |- _ => rewrite H
      | H : f_body _ = _ |- _ => rewrite H
      | H : f_ret _ = _ |- _ => rewrite H
      | H : f_tag _ = _ |- _ => rewrite H
      | H : m_parent _ = _ |- _ => rewrite H
      | H : m_steal _ = _ |- _ => rewrite H
      | H : m_join _ = _ |- _ => rewrite H
      | H : m_count _ = _ |- _ => rewrite H
      | H : w_deque _ = _ |- _ => rewrite H
      | H : w_asp _ = _ |- _ => rewrite H
      | H : read_locals _ = _ |- _ => rewrite H
      | H : (_ =? _) = _ |- _ => rewrite H
      | H : (_ =? _)%nat = _ |- _ => rewrite H
      | H : tag_is_root _ = _ |- _ => rewrite H
      | H : bool_decide _ = _ |- _ => rewrite H
      end
    | progress simpl_M ].

Ltac run_all := unfold_run; unfold_M; unfold_M; unfold is_root in *; lk.

Lemma insert_delete_insert {A} (m : gmap nat A) (c p : nat) (x y : A) :
  p ≠ c → <[p:=x]> (delete c (<[p:=y]> m)) = delete c (<[p:=x]> m).
Proof.
  intros Hne. rewrite <- delete_insert_ne by done. by rewrite insert_insert_eq.
Qed.

Ltac same_maps :=
  rewrite ?insert_insert_eq, ?list_insert_insert_eq;
  rewrite ?insert_delete_insert by done;
  rewrite ?insert_insert_eq;
  unfold joined_frame; simpl_M; lk; try done.

Ltac solve_result :=
  eexists; split; [run_all; reflexivity|];
  simpl; split_and!; try done; try same_maps.

(** ** Fork and call *)

Lemma resume_fork (σ : state) (me p : nat) (f : frame) (wk : worker) (child k : task) :
  frames σ !! p = Some f →
  f_body f = at_code (co_await_fork child k) →
  workers σ !! me = Some wk →
  p ≠ next_frame σ →
  result (resume false me p σ)
    (<[next_frame σ := new_frame p (w_asp wk) fork (ret_local (length (f_locals f))) child]>
       (<[p := with_count (m_count f + 1)
                 (with_body (at_code k) (with_locals (f_locals f ++ [None]) f))]>
          (frames σ)))
    (<[me := with_status (running (next_frame σ)) (with_deque (p :: w_deque wk) wk)]>
       (workers σ))
    (semaphore σ) (root_result σ) (S (next_frame σ)).
Proof.
  intros Hf Hb Hw Hne. solve_result.
  rewrite (insert_insert_ne _ p) by done. by rewrite insert_insert_eq.
Qed.

Lemma resume_fork_single (σ : state) (me p : nat) (f : frame) (wk : worker)
    (child k : task) :
  frames σ !! p = Some f →
  f_body f = at_code (co_await_fork child k) →
  workers σ !! me = Some wk →
  p ≠ next_frame σ →
  result (resume true me p σ)
    (<[next_frame σ := new_frame p (w_asp wk) call (ret_local (length (f_locals f))) child]>
       (<[p := with_body (at_code k) (with_locals (f_locals f ++ [None]) f)]>
          (frames σ)))
    (<[me := with_status (running (next_frame σ)) wk]> (workers σ))
    (semaphore σ) (root_result σ) (S (next_frame σ)).
Proof.
  intros Hf Hb Hw Hne. solve_result.
Qed.

Lemma resume_call (single : bool) (σ : state) (me p : nat) (f : frame) (wk : worker)
    (child : task) (k : Z → task) :
  frames σ !! p = Some f →
  f_body f = at_code (co_await_call child k) →
  workers σ !! me = Some wk →
  p ≠ next_frame σ →
  result (resume single me p σ)
    (<[next_frame σ := new_frame p (w_asp wk) call ret_call child]>
       (<[p := with_body (at_call k) f]> (frames σ)))
    (<[me := with_status (running (next_frame σ)) wk]> (workers σ))
    (semaphore σ) (root_result σ) (S (next_frame σ)).
Proof.
  intros Hf Hb Hw Hne. solve_result.
Qed.

(** ** Join *)

Lemma resume_join_fast (single : bool) (σ : state) (me p : nat) (f : frame)
    (wk : worker) (k : list Z → task) (rs : list Z) :
  frames σ !! p = Some f →
  f_body f = at_code (co_await_join k) →
  workers σ !! me = Some wk →
  m_steal f = 0 → m_join f = k_u32_max →
  read_locals (f_locals f) = Some rs →
  (tag_is_root (f_tag f) = false → w_asp wk = m_top f) →
  result (resume single me p σ)
    (<[p := joined_frame f (k rs)]> (frames σ))
    (<[me := with_status (running p) wk]> (workers σ))
    (semaphore σ) (root_result σ) (next_frame σ).
Proof.
  intros Hf Hb Hw Hs Hj Hr Hasp.
  destruct (tag_is_root (f_tag f)) eqn:Hroot; [|specialize (Hasp eq_refl)].
  - solve_result.
  - solve_result.
Qed.

(** The join of a task that runs off its stack stops at the check of
    [await_resume]. *)
Lemma resume_join_off_stack (single : bool) (σ : state) (me p : nat) (f : frame)
    (wk : worker) (k : list Z → task) :
  frames σ !! p = Some f →
  f_body f = at_code (co_await_join k) →
  workers σ !! me = Some wk →
  m_steal f = 0 → m_join f = k_u32_max →
  tag_is_root (f_tag f) = false → w_asp wk ≠ m_top f →
  resume single me p σ = Abort (assertion_failed assert_top_is_asp).
Proof.
  intros Hf Hb Hw Hs Hj Hroot Hoff.
  assert ((m_top f =? w_asp wk)%nat = false) as Hne by (apply Nat.eqb_neq; congruence).
  run_all. reflexivity.
Qed.

Lemma resume_join_ready (single : bool) (σ : state) (me p : nat) (f : frame)
    (wk : worker) (k : list Z → task) (rs : list Z) :
  frames σ !! p = Some f →
  f_body f = at_code (co_await_join k) →
  workers σ !! me = Some wk →
  (m_steal f =? 0) = false →
  (m_steal f =? u32_sub k_u32_max (m_join f)) = true →
  read_locals (f_locals f) = Some rs →
  result (resume single me p σ)
    (<[p := joined_frame (with_steal 0 (with_join k_u32_max f)) (k rs)]> (frames σ))
    (<[me := with_status (running p)
               (if tag_is_root (f_tag f) then wk else with_asp (m_top f) wk)]>
       (workers σ))
    (semaphore σ) (root_result σ) (next_frame σ).
Proof.
  intros Hf Hb Hw Hs Hj Hr.
  destruct (tag_is_root (f_tag f)) eqn:Hroot.
  - solve_result.
  - solve_result.
Qed.

Lemma resume_join_not_ready (single : bool) (σ : state) (me p : nat) (f : frame)
    (wk : worker) (k : list Z → task) :
  frames σ !! p = Some f →
  f_body f = at_code (co_await_join k) →
  workers σ !! me = Some wk →
  (m_steal f =? 0) = false →
  (m_steal f =? u32_sub k_u32_max (m_join f)) = false →
  result (resume single me p σ)
    (<[p := with_body (at_join k) f]> (frames σ))
    (<[me := with_status (suspending p) wk]> (workers σ))
    (semaphore σ) (root_result σ) (next_frame σ).
Proof.
  intros Hf Hb Hw Hs Hj. solve_result.
Qed.

Lemma finish_join_win (σ : state) (me p : nat) (f : frame)
    (wk : worker) (k : list Z → task) (rs : list Z) :
  frames σ !! p = Some f →
  f_body f = at_join k →
  workers σ !! me = Some wk →
  (m_steal f =? 0) = false →
  (m_steal f =? u32_sub k_u32_max (m_join f)) = true →
  read_locals (f_locals f) = Some rs →
  result (finish_join me p σ)
    (<[p := joined_frame (with_steal 0 (with_join k_u32_max f)) (k rs)]> (frames σ))
    (<[me := with_status (running p)
               (if tag_is_root (f_tag f) then wk else with_asp (m_top f) wk)]>
       (workers σ))
    (semaphore σ) (root_result σ) (next_frame σ).
Proof.
  intros Hf Hb Hw Hs Hj Hr.
  destruct (tag_is_root (f_tag f)) eqn:Hroot.
  - solve_result.
  - solve_result.
Qed.

Lemma finish_join_lose (σ : state) (me p : nat) (f : frame)
    (wk : worker) (k : list Z → task) :
  frames σ !! p = Some f →
  f_body f = at_join k →
  workers σ !! me = Some wk →
  (m_steal f =? u32_sub k_u32_max (m_join f)) = false →
  result (finish_join me p σ)
    (<[p := with_join (u32_sub (m_join f) (u32_sub k_u32_max (m_steal f))) f]> (frames σ))
    (<[me := with_status idle wk]> (workers σ))
    (semaphore σ) (root_result σ) (next_frame σ).
Proof.
  intros Hf Hb Hw Hj. solve_result.
Qed.

(** ** Return *)

Lemma resume_return_call (single : bool) (σ : state) (me c p : nat) (fc f : frame)
    (wk : worker) (v : Z) (k : Z → task) :
  frames σ !! c = Some fc → f_body fc = at_code (co_return v) →
  f_tag fc = call → f_ret fc = ret_call → m_parent fc = Some p →
  m_count fc = 0 → m_steal fc = 0 → m_join fc = k_u32_max →
  frames σ !! p = Some f → f_body f = at_call k → p ≠ c →
  workers σ !! me = Some wk →
  result (resume single me c σ)
    (delete c (<[p := with_body (at_code (k v)) f]> (frames σ)))
    (<[me := with_status (running p) wk]> (workers σ))
    (semaphore σ) (root_result σ) (next_frame σ).
Proof.
  intros Hc Hb Ht Hr Hpar Hcnt Hs Hj Hp Hbp Hne Hw. solve_result.
Qed.

Lemma resume_return_call_local (single : bool) (σ : state) (me c p : nat)
    (fc f : frame) (wk : worker) (v : Z) (i : nat) (cp : task) :
  frames σ !! c = Some fc → f_body fc = at_code (co_return v) →
  f_tag fc = call → f_ret fc = ret_local i → m_parent fc = Some p →
  m_count fc = 0 → m_steal fc = 0 → m_join fc = k_u32_max →
  frames σ !! p = Some f → f_body f = at_code cp → p ≠ c →
  workers σ !! me = Some wk →
  result (resume single me c σ)
    (delete c (<[p := with_locals (<[i := Some v]> (f_locals f)) f]> (frames σ)))
    (<[me := with_status (running p) wk]> (workers σ))
    (semaphore σ) (root_result σ) (next_frame σ).
Proof.
  intros Hc Hb Ht Hr Hpar Hcnt Hs Hj Hp Hbp Hne Hw. solve_result.
Qed.

Lemma resume_return_fork_pop (single : bool) (σ : state) (me c p : nat)
    (fc f : frame) (wk : worker) (v : Z) (i : nat) (cp : task) (d : list nat) :
  frames σ !! c = Some fc → f_body fc = at_code (co_return v) →
  f_tag fc = fork → f_ret fc = ret_local i → m_parent fc = Some p →
  m_count fc = 0 → m_steal fc = 0 → m_join fc = k_u32_max →
  frames σ !! p = Some f → f_body f = at_code cp → p ≠ c →
  workers σ !! me = Some wk → w_deque wk = p :: d →
  result (resume single me c σ)
    (delete c (<[p := with_locals (<[i := Some v]> (f_locals f)) f]> (frames σ)))
    (<[me := with_status (running p) (with_deque d wk)]> (workers σ))
    (semaphore σ) (root_result σ) (next_frame σ).
Proof.
  intros Hc Hb Ht Hr Hpar Hcnt Hs Hj Hp Hbp Hne Hw Hd. solve_result.
Qed.

Lemma resume_return_fork_not_last (single : bool) (σ : state) (me c p : nat)
    (fc f : frame) (wk : worker) (v : Z) (i : nat) :
  frames σ !! c = Some fc → f_body fc = at_code (co_return v) →
  f_tag fc = fork → f_ret fc = ret_local i → m_parent fc = Some p →
  m_count fc = 0 → m_steal fc = 0 → m_join fc = k_u32_max →
  frames σ !! p = Some f → p ≠ c →
  workers σ !! me = Some wk → w_deque wk = [] →
  (m_join f =? 1) = false →
  ∃ wk', w_status wk' = idle ∧ w_deque wk' = []
    ∧ result (resume single me c σ)
        (delete c (<[p := with_join (u32_sub (m_join f) 1)
                             (with_locals (<[i := Some v]> (f_locals f)) f)]> (frames σ)))
        (<[me := wk']> (workers σ))
        (semaphore σ) (root_result σ) (next_frame σ).
Proof.
  intros Hc Hb Ht Hr Hpar Hcnt Hs Hj Hp Hne Hw Hd Hold.
  destruct (is_root f) eqn:Hroot; [|destruct (m_top f =? w_asp wk)%nat eqn:Htop].
  - exists (with_status idle wk). split; [done|]. split; [done|]. solve_result.
  - exists (with_status idle (with_asp (next_stack σ) wk)).
    split; [done|]. split; [done|]. solve_result.
  - exists (with_status idle wk). split; [done|]. split; [done|]. solve_result.
Qed.

Lemma resume_return_fork_last (single : bool) (σ : state) (me c p : nat)
    (fc f : frame) (wk : worker) (v : Z) (i : nat) (k : list Z → task) (rs : list Z) :
  frames σ !! c = Some fc → f_body fc = at_code (co_return v) →
  f_tag fc = fork → f_ret fc = ret_local i → m_parent fc = Some p →
  m_count fc = 0 → m_steal fc = 0 → m_join fc = k_u32_max →
  frames σ !! p = Some f → f_body f = at_join k → p ≠ c →
  workers σ !! me = Some wk → w_deque wk = [] →
  m_join f = 1 →
  tag_is_root (f_tag f) = is_root f →
  read_locals (<[i := Some v]> (f_locals f)) = Some rs →
  ∃ wk', w_status wk' = running p ∧ w_deque wk' = []
    ∧ (is_root f = false → w_asp wk' = m_top f)
    ∧ result (resume single me c σ)
        (delete c (<[p := joined_frame (with_steal 0 (with_join k_u32_max f)) (k rs)]>
                     (frames σ)))
        (<[me := wk']> (workers σ))
        (semaphore σ) (root_result σ) (next_frame σ).
Proof.
  intros Hc Hb Ht Hr Hpar Hcnt Hs Hj Hp Hbp Hne Hw Hd Hold Htr Hrs.
  destruct (is_root f) eqn:Hroot; [|destruct (m_top f =? w_asp wk)%nat eqn:Htop].
  - exists (with_status (running p) wk). split_and!; [done..|]. solve_result.
  - exists (with_status (running p) wk). split_and!; [done|done| |].
    { intros _. symmetry. by apply Nat.eqb_eq. }
    solve_result.
  - exists (with_status (running p) (with_asp (m_top f) wk)).
    split_and!; [done..|]. solve_result.
Qed.

Lemma resume_return_root (single : bool) (σ : state) (me c : nat)
    (fc : frame) (wk : worker) (v : Z) :
  frames σ !! c = Some fc → f_body fc = at_code (co_return v) →
  f_tag fc = root → f_ret fc = ret_root →
  m_count fc = 0 → m_steal fc = 0 → m_join fc = k_u32_max →
  workers σ !! me = Some wk →
  result (resume single me c σ)
    (delete c (frames σ))
    (<[me := with_status idle wk]> (workers σ))
    (S (semaphore σ)) (Some v) (next_frame σ).
Proof.
  intros Hc Hb Ht Hr Hcnt Hs Hj Hw. solve_result.
Qed.

(** ** Steal *)

Lemma steal_from_result (σ : state) (me vi q : nat) (d : list nat) (f : frame)
    (wt wv : worker) (cq : task) :
  workers σ !! me = Some wt → workers σ !! vi = Some wv → me ≠ vi →
  frames σ !! q = Some f → f_body f = at_code cq →
  result (steal_from me vi q d σ)
    (<[q := with_steal (u32_add (m_steal f) 1) f]> (frames σ))
    (<[me := with_status (running q) (with_asp (w_asp wv) wt)]>
       (<[vi := with_asp (next_stack σ) (with_deque d wv)]> (workers σ)))
    (semaphore σ) (root_result σ) (next_frame σ).
Proof.
  intros Hme Hvi Hne Hq Hb. solve_result.
  rewrite (list_insert_insert_ne _ vi me) by done.
  by rewrite !list_insert_insert_eq.
Qed.

(** * Every action keeps the invariant and uses up potential *)



Lemma result_progress (stacks single : bool) (V : Z) (n nw : nat) (o : outcome unit)
    (fr : gmap nat frame) (ws : list worker) (sem : nat) (res : option Z) (next : nat)
    (H' : gmap nat (frame * ghost)) :
  result o fr ws sem res next →
  length ws = nw →
  fr = fst <$> H' →
  invariant stacks single V H' ws sem res next ∧ (potential H' ws < n)%nat →
  progress stacks single V n nw o.
Proof.
  intros (σ' & -> & Hf & Hw & Hs & Hr & Hn) Hlen -> [Hinv Hpot].
  exists σ', (potential H' ws). split; [done|]. split; [|by rewrite Hw].
  exists H'. rewrite Hw, Hs, Hr, Hn. done.
Qed.

Lemma fmap_insert_fst (H : gmap nat (frame * ghost)) (p : nat) (f : frame) (g : ghost) :
  <[p := f]> (fst <$> H) = fst <$> <[p := (f, g)]> H.
Proof. by rewrite fmap_insert. Qed.

Lemma with_deque_same (wk : worker) : with_deque (w_deque wk) wk = wk.
Proof. by destruct wk. Qed.

Lemma take_last_Some (dq : list nat) (q : nat) (d : list nat) :
  take_last dq = Some (q, d) → dq = d ++ [q].
Proof.
  unfold take_last. destruct (reverse dq) as [|x r] eqn:E; [done|].
  intros [= -> <-]. rewrite <- (reverse_involutive dq), E. by rewrite reverse_cons.
Qed.

Section step.

Context (stacks single : bool) (V : Z) (n : nat) (σ : state) (H : gmap nat (frame * ghost)).
Context (Hfr : frames σ = fst <$> H).
Context (Inv : invariant stacks single V H (workers σ) (semaphore σ) (root_result σ)
                 (next_frame σ)).
Context (Hpot : (potential H (workers σ) ≤ n)%nat).

Lemma frames_lookup (p : nat) (f : frame) (g : ghost) :
  H !! p = Some (f, g) → frames σ !! p = Some f.
Proof. intros Hp. by rewrite Hfr, lookup_fmap, Hp. Qed.

Lemma step_fork (me : nat) (wk : worker) (p : nat) (f : frame) (g : ghost)
    (child k : task) :
  single = false →
  workers σ !! me = Some wk → w_status wk = running p →
  H !! p = Some (f, g) → f_body f = at_code (co_await_fork child k) →
  progress stacks single V n (length (workers σ)) (resume single me p σ).
Proof.
  intros -> Hw Hst Hp Hb.
  destruct (running_frame Inv me wk p Hw Hst) as (f0 & g0 & Hp0 & Hm & _ & Hch & Hasp).
  rewrite Hp in Hp0. injection Hp0 as <- <-.
  destruct (inv_frames _ _ _ _ _ _ _ _ Inv p f g Hp)
    as (Hlt & Hag & Hbody & Hcnt & Hmode & Htags).
  rewrite Hb in Hbody. simpl in Hbody. destruct Hbody as [(Hlen & Hcs & Hks) Hseq].
  destruct (sequential child []) as [b|] eqn:Hcv; [|done].
  pose proof (frames_lookup p f g Hp) as Hf.
  assert (p ≠ next_frame σ) as Hne by lia.
  pose proof (resume_fork σ me p f wk child k Hf Hb Hw Hne) as Hres.
  set (gp' := {| gv := gv g; gl := gl g ++ [b]; gc := gc g; gm := queued me |}).
  eapply (result_progress _ _ _ _ _ _ _ _ _ _ _ _ Hres); [by rewrite ?length_insert| |].
  { rewrite Hfr. rewrite (fmap_insert_fst _ p _ gp').
    by rewrite (fmap_insert_fst _ _ _ (new_ghost b me)). }
  destruct Hag as [Hlen' Hag'].
  destruct Hcnt as (C1 & C2 & C3 & C4 & C5 & C6).
  unfold live, inline_pending in C2, C3, C6. rewrite Hm in C2, C3, C6.
  simpl in C2, C3, C6.
  edestruct (inv_spawn Inv me wk p f g Hw Hst Hp
               (with_count (m_count f + 1)
                  (with_body (at_code k) (with_locals (f_locals f ++ [None]) f)))
               gp' fork (ret_local (length (f_locals f))) child b (p :: w_deque wk)
               Hcs Hcv) as [I1 I2]; [..|split; [exact I1|lia]].
  - split_and!; simpl.
    + lia.
    + by apply agrees_snoc.
    + done.
    + unfold counters_ok, live, inline_pending. simpl.
      rewrite length_app, pending_app. simpl. split_and!; try done; lia.
    + split; [done|]. apply lookup_last_snoc.
    + done.
  - done.
  - intros i Hi. simpl. pose proof (lookup_lt_Some _ _ _ Hi) as Hi'.
    rewrite !lookup_app_l by lia. done.
  - intros fx i Hfx Hr Hi. unfold attached. rewrite Hfx, Hr. simpl.
    apply bool_decide_eq_false. intros [= ->].
    apply lookup_lt_Some in Hi. rewrite length_app in Hi. simpl in Hi. lia.
  - done.
  - left. exists (length (f_locals f)). simpl. split_and!; try done.
    + by rewrite lookup_app_r, Nat.sub_diag by lia.
    + by rewrite lookup_app_r, Hlen', Nat.sub_diag by lia.
    + by rewrite lookup_ge_None_2 by lia.
  - right. simpl. split_and!; try done. rewrite length_app. simpl. f_equal. lia.
  - simpl. split; [|intros [? ?]; done].
    intros i Hi. apply lookup_app_Some in Hi as [Hi|[Hge Hi]]; [by left|right].
    destruct (i - length (f_locals f))%nat eqn:E; simpl in Hi; [|done].
    f_equal. lia.
  - unfold frame_cost. simpl. rewrite Hb. simpl. rewrite Hcv. simpl. lia.
Qed.

Lemma step_fork_single (me : nat) (wk : worker) (p : nat) (f : frame) (g : ghost)
    (child k : task) :
  single = true →
  workers σ !! me = Some wk → w_status wk = running p →
  H !! p = Some (f, g) → f_body f = at_code (co_await_fork child k) →
  progress stacks single V n (length (workers σ)) (resume single me p σ).
Proof.
  intros -> Hw Hst Hp Hb.
  destruct (running_frame Inv me wk p Hw Hst) as (f0 & g0 & Hp0 & Hm & _ & Hch & Hasp).
  rewrite Hp in Hp0. injection Hp0 as <- <-.
  destruct (inv_frames _ _ _ _ _ _ _ _ Inv p f g Hp)
    as (Hlt & Hag & Hbody & Hcnt & Hmode & Htags).
  rewrite Hb in Hbody. simpl in Hbody. destruct Hbody as [(Hlen & Hcs & Hks) Hseq].
  destruct (sequential child []) as [b|] eqn:Hcv; [|done].
  pose proof (frames_lookup p f g Hp) as Hf.
  assert (p ≠ next_frame σ) as Hne by lia.
  pose proof (resume_fork_single σ me p f wk child k Hf Hb Hw Hne) as Hres.
  set (gp' := {| gv := gv g; gl := gl g ++ [b]; gc := gc g; gm := inline |}).
  eapply (result_progress _ _ _ _ _ _ _ _ _ _ _ _ Hres); [by rewrite ?length_insert| |].
  { rewrite Hfr. rewrite (fmap_insert_fst _ p _ gp').
    by rewrite (fmap_insert_fst _ _ _ (new_ghost b me)). }
  destruct Hag as [Hlen' Hag'].
  destruct Hcnt as (C1 & C2 & C3 & C4 & C5 & C6).
  unfold live, inline_pending in C2, C3, C6. rewrite Hm in C2, C3, C6.
  simpl in C2, C3, C6.
  edestruct (inv_spawn Inv me wk p f g Hw Hst Hp
               (with_body (at_code k) (with_locals (f_locals f ++ [None]) f))
               gp' call (ret_local (length (f_locals f))) child b (w_deque wk)
               Hcs Hcv) as [I1 I2];
    [..|rewrite with_deque_same in I1, I2; split; [exact I1|lia]].
  - split_and!; simpl.
    + lia.
    + by apply agrees_snoc.
    + done.
    + unfold counters_ok, live, inline_pending. simpl.
      rewrite length_app, pending_app. simpl. split_and!; try done; lia.
    + split; [done|]. apply lookup_last_snoc.
    + done.
  - done.
  - intros i Hi. simpl. pose proof (lookup_lt_Some _ _ _ Hi) as Hi'.
    rewrite !lookup_app_l by lia. done.
  - intros fx i Hfx Hr Hi. unfold attached. by rewrite Hfx.
  - done.
  - left. exists (length (f_locals f)). simpl. split_and!; try done.
    + by rewrite lookup_app_r, Nat.sub_diag by lia.
    + by rewrite lookup_app_r, Hlen', Nat.sub_diag by lia.
    + by rewrite lookup_ge_None_2 by lia.
    + intros _. split; [|by eexists]. rewrite length_app. simpl. lia.
  - left. done.
  - simpl. split; [|intros [? ?]; done].
    intros i Hi. apply lookup_app_Some in Hi as [Hi|[Hge Hi]]; [by left|right].
    destruct (i - length (f_locals f))%nat eqn:E; simpl in Hi; [|done].
    f_equal. lia.
  - unfold frame_cost. simpl. rewrite Hb. simpl. rewrite Hcv. simpl. lia.
Qed.

Lemma step_call (me : nat) (wk : worker) (p : nat) (f : frame) (g : ghost)
    (child : task) (k : Z → task) :
  workers σ !! me = Some wk → w_status wk = running p →
  H !! p = Some (f, g) → f_body f = at_code (co_await_call child k) →
  progress stacks single V n (length (workers σ)) (resume single me p σ).
Proof.
  intros Hw Hst Hp Hb.
  destruct (running_frame Inv me wk p Hw Hst) as (f0 & g0 & Hp0 & Hm & _ & Hch & Hasp).
  rewrite Hp in Hp0. injection Hp0 as <- <-.
  destruct (inv_frames _ _ _ _ _ _ _ _ Inv p f g Hp)
    as (Hlt & Hag & Hbody & Hcnt & Hmode & Htags).
  rewrite Hb in Hbody. simpl in Hbody. destruct Hbody as [(Hcs & Hks) Hseq].
  destruct (sequential child []) as [b|] eqn:Hcv; [|done].
  pose proof (frames_lookup p f g Hp) as Hf.
  assert (p ≠ next_frame σ) as Hne by lia.
  pose proof (resume_call single σ me p f wk child k Hf Hb Hw Hne) as Hres.
  set (gp' := {| gv := gv g; gl := gl g; gc := b; gm := inline |}).
  eapply (result_progress _ _ _ _ _ _ _ _ _ _ _ _ Hres); [by rewrite ?length_insert| |].
  { rewrite Hfr. rewrite (fmap_insert_fst _ p _ gp').
    by rewrite (fmap_insert_fst _ _ _ (new_ghost b me)). }
  destruct Hcnt as (C1 & C2 & C3 & C4 & C5 & C6).
  unfold live, inline_pending in C2, C3, C6. rewrite Hm in C2, C3, C6.
  simpl in C2, C3, C6.
  edestruct (inv_spawn Inv me wk p f g Hw Hst Hp
               (with_body (at_call k) f)
               gp' call ret_call child b (w_deque wk)
               Hcs Hcv) as [I1 I2];
    [..|rewrite with_deque_same in I1, I2; split; [exact I1|lia]].
  - split_and!; simpl; try done; try lia.
  - done.
  - intros i Hi. done.
  - intros fx i Hfx Hr Hi. unfold attached. by rewrite Hfx.
  - done.
  - right. simpl. split_and!; try done. by eexists.
  - left. done.
  - simpl. split; [by left|done].
  - unfold frame_cost. simpl. rewrite Hb. simpl. rewrite Hcv. simpl. lia.
Qed.

(** What the counters of a frame that its worker owns say. *)
Lemma own_counters (me : nat) (p : nat) (f : frame) (g : ghost) :
  H !! p = Some (f, g) → gm g = own me →
  Z.of_nat (length (f_locals f)) < k_u32_max
  ∧ 0 ≤ Z.of_nat (pending (f_locals f)) ≤ m_steal f
  ∧ m_steal f ≤ Z.of_nat (length (f_locals f))
  ∧ (single = true → m_steal f = 0)
  ∧ m_count f = (if single then 0 else Z.of_nat (length (f_locals f)))
  ∧ m_join f = k_u32_max - (m_steal f - Z.of_nat (pending (f_locals f)))
  ∧ u32_sub k_u32_max (m_join f) = m_steal f - Z.of_nat (pending (f_locals f)).
Proof.
  intros Hp Hm.
  destruct (inv_frames _ _ _ _ _ _ _ _ Inv p f g Hp) as (_ & _ & _ & Hcnt & _).
  destruct Hcnt as (C1 & C2 & C3 & C4 & C5 & C6).
  unfold live, inline_pending in C2, C3, C6. rewrite Hm in C2, C3, C6.
  simpl in C2, C3, C6.
  split_and!; try done; try lia.
  rewrite C6. rewrite u32_sub_small; unfold k_u32_max in *; lia.
Qed.

Lemma not_root_tag (f : frame) : tag_is_root (f_tag f) = false → f_tag f ≠ root.
Proof. unfold tag_is_root. intros Hb Ht. by rewrite bool_decide_eq_true_2 in Hb. Qed.

Lemma joined_frame_ok (p : nat) (f : frame) (g : ghost) (k : list Z → task) (me : nat) :
  H !! p = Some (f, g) →
  (∃ b, f_body f = b ∧ body_ok (at_join k) g) →
  frame_ok single (next_frame σ) p
    (joined_frame (with_steal 0 (with_join k_u32_max f)) (k (gl g)))
    {| gv := gv g; gl := []; gc := gc g; gm := own me |}.
Proof.
  intros Hp (b & _ & Hbody).
  destruct (inv_frames _ _ _ _ _ _ _ _ Inv p f g Hp)
    as (Hlt & Hag & _ & Hcnt & Hmode & Htags).
  split_and!; simpl; try done.
  unfold counters_ok, live, inline_pending. simpl.
  split_and!; try done. by destruct single.
Qed.

Lemma step_join (me : nat) (wk : worker) (p : nat) (f : frame) (g : ghost)
    (k : list Z → task) :
  workers σ !! me = Some wk → w_status wk = running p →
  H !! p = Some (f, g) → f_body f = at_code (co_await_join k) →
  progress stacks single V n (length (workers σ)) (resume single me p σ)
  ∨ (stacks = false
     ∧ resume single me p σ = Abort (assertion_failed assert_top_is_asp)).
Proof.
  intros Hw Hst Hp Hb.
  destruct (running_frame Inv me wk p Hw Hst) as (f0 & g0 & Hp0 & Hm & _ & Hch & Hasp).
  rewrite Hp in Hp0. injection Hp0 as <- <-.
  destruct (inv_frames _ _ _ _ _ _ _ _ Inv p f g Hp)
    as (Hlt & Hag & Hbody & _ & Hmode & Htags).
  rewrite Hb in Hbody. simpl in Hbody.
  destruct (own_counters me p f g Hp Hm) as (C1 & C2 & C3 & C4 & C5 & C6 & C7).
  pose proof (frames_lookup p f g Hp) as Hf.
  destruct (decide (pending (f_locals f) = 0%nat)) as [Hpend|Hpend].
  - (* every stolen child has returned *)
    pose proof (read_locals_agrees _ _ Hag Hpend) as Hrs.
    set (gp' := {| gv := gv g; gl := []; gc := gc g; gm := own me |}).
    assert (Hok' : frame_ok single (next_frame σ) p
                     (joined_frame (with_steal 0 (with_join k_u32_max f)) (k (gl g))) gp').
    { apply joined_frame_ok; [done|]. by eexists. }
    assert (Hnone : ∀ i, f_locals f !! i ≠ Some None).
    { intros i Hi. apply pending_lookup in Hi. lia. }
    destruct (decide (m_steal f = 0)) as [Hs|Hs].
    + assert (m_join f = k_u32_max) as Hj by lia.
      assert (joined_frame f (k (gl g))
              = joined_frame (with_steal 0 (with_join k_u32_max f)) (k (gl g))) as Hsame.
      { unfold joined_frame, with_body, with_locals, with_count, with_steal, with_join.
        simpl. by rewrite Hs, Hj. }
      assert ((tag_is_root (f_tag f) = false → w_asp wk = m_top f)
              ∨ (stacks = false ∧ tag_is_root (f_tag f) = false ∧ w_asp wk ≠ m_top f))
        as [Hasp'|(Hoff1 & Hoff2 & Hoff3)].
      { destruct (decide (stacks = true)) as [Hstk|Hstk%not_true_is_false].
        - left. intros Hr%not_root_tag. by apply Hasp.
        - destruct (tag_is_root (f_tag f)) eqn:Hr; [by left|].
          destruct (decide (w_asp wk = m_top f)) as [E|E]; [by left|by right]. }
      2: { right. split; [done|].
           by apply (resume_join_off_stack single σ me p f wk k). }
      left.
      pose proof (resume_join_fast single σ me p f wk k (gl g) Hf Hb Hw Hs Hj Hrs Hasp')
        as Hres.
      rewrite Hsame in Hres.
      eapply (result_progress _ _ _ _ _ _ _ _ _ _ _ _ Hres); [by rewrite ?length_insert| |].
      { rewrite Hfr. by rewrite (fmap_insert_fst _ p _ gp'). }
      edestruct (inv_update Inv me wk p f g Hw (or_introl Hst) Hp
                   (joined_frame (with_steal 0 (with_join k_u32_max f)) (k (gl g)))
                   gp' (with_status (running p) wk) Hok') as [I1 I2];
        [..|split; [exact I1|lia]]; try done.
      * intros i Hi. by destruct (Hnone i).
      * left. simpl. split_and!; try done; [by eexists|].
        intros Hstk Hr _. by apply Hasp.
      * unfold frame_cost, worker_cost. simpl. rewrite Hb, Hst. simpl. lia.
    + left.
      assert ((m_steal f =? 0) = false) as Hz by (by apply Z.eqb_neq).
      assert ((m_steal f =? u32_sub k_u32_max (m_join f)) = true) as Hall
        by (apply Z.eqb_eq; lia).
      pose proof (resume_join_ready single σ me p f wk k (gl g) Hf Hb Hw Hz Hall Hrs)
        as Hres.
      eapply (result_progress _ _ _ _ _ _ _ _ _ _ _ _ Hres); [by rewrite ?length_insert| |].
      { rewrite Hfr. by rewrite (fmap_insert_fst _ p _ gp'). }
      edestruct (inv_update Inv me wk p f g Hw (or_introl Hst) Hp
                   (joined_frame (with_steal 0 (with_join k_u32_max f)) (k (gl g)))
                   gp' (with_status (running p)
                          (if tag_is_root (f_tag f) then wk else with_asp (m_top f) wk))
                   Hok') as [I1 I2];
        [..|split; [exact I1|lia]]; try done.
      * intros i Hi. by destruct (Hnone i).
      * by destruct (tag_is_root (f_tag f)).
      * left. simpl. split_and!; try done.
        -- by eexists.
        -- intros _ Hr _. unfold tag_is_root. by rewrite bool_decide_eq_false_2.
      * unfold frame_cost, worker_cost. simpl. rewrite Hb.
        destruct (tag_is_root (f_tag f)); simpl; rewrite Hst; simpl; lia.
  - (* a stolen child still runs *)
    left.
    assert ((m_steal f =? 0) = false) as Hz by (apply Z.eqb_neq; lia).
    assert ((m_steal f =? u32_sub k_u32_max (m_join f)) = false) as Hnot
      by (apply Z.eqb_neq; lia).
    pose proof (resume_join_not_ready single σ me p f wk k Hf Hb Hw Hz Hnot) as Hres.
    eapply (result_progress _ _ _ _ _ _ _ _ _ _ _ _ Hres); [by rewrite ?length_insert| |].
    { rewrite Hfr. by rewrite (fmap_insert_fst _ p _ g). }
    edestruct (inv_update Inv me wk p f g Hw (or_introl Hst) Hp
                 (with_body (at_join k) f) g (with_status (suspending p) wk))
      as [I1 I2]; [..|split; [exact I1|lia]]; try done.
    + destruct (inv_frames _ _ _ _ _ _ _ _ Inv p f g Hp)
        as (_ & _ & _ & Hcnt & _).
      split_and!; simpl; try done.
      * unfold counters_ok, live, inline_pending in *. simpl.
        by rewrite Hm in *.
      * unfold mode_ok. by rewrite Hm.
    + right. left. simpl. split_and!; try done; [by eexists|lia].
    + unfold frame_cost, worker_cost. simpl. rewrite Hb, Hst. simpl. lia.
Qed.

Lemma step_finish_join (me : nat) (wk : worker) (p : nat) :
  workers σ !! me = Some wk → w_status wk = suspending p →
  progress stacks single V n (length (workers σ)) (finish_join me p σ).
Proof.
  intros Hw Hst.
  destruct (inv_workers _ _ _ _ _ _ _ _ Inv me wk Hw) as [_ Hs]. rewrite Hst in Hs.
  destruct Hs as (f & g & Hp & Hm & [k Hb] & Hsteal & Hdq).
  destruct (inv_frames _ _ _ _ _ _ _ _ Inv p f g Hp)
    as (Hlt & Hag & Hbody & Hcnt & Hmode & Htags).
  rewrite Hb in Hbody.
  destruct (own_counters me p f g Hp Hm) as (C1 & C2 & C3 & C4 & C5 & C6 & C7).
  pose proof (frames_lookup p f g Hp) as Hf.
  assert ((m_steal f =? 0) = false) as Hz by (by apply Z.eqb_neq).
  destruct (decide (pending (f_locals f) = 0%nat)) as [Hpend|Hpend].
  - pose proof (read_locals_agrees _ _ Hag Hpend) as Hrs.
    set (gp' := {| gv := gv g; gl := []; gc := gc g; gm := own me |}).
    assert (Hok' : frame_ok single (next_frame σ) p
                     (joined_frame (with_steal 0 (with_join k_u32_max f)) (k (gl g))) gp').
    { apply joined_frame_ok; [done|]. by eexists. }
    assert (Hnone : ∀ i, f_locals f !! i ≠ Some None).
    { intros i Hi. apply pending_lookup in Hi. lia. }
    assert ((m_steal f =? u32_sub k_u32_max (m_join f)) = true) as Hall
      by (apply Z.eqb_eq; lia).
    pose proof (finish_join_win σ me p f wk k (gl g) Hf Hb Hw Hz Hall Hrs) as Hres.
    eapply (result_progress _ _ _ _ _ _ _ _ _ _ _ _ Hres); [by rewrite ?length_insert| |].
    { rewrite Hfr. by rewrite (fmap_insert_fst _ p _ gp'). }
    edestruct (inv_update Inv me wk p f g Hw (or_intror Hst) Hp
                 (joined_frame (with_steal 0 (with_join k_u32_max f)) (k (gl g)))
                 gp' (with_status (running p)
                        (if tag_is_root (f_tag f) then wk else with_asp (m_top f) wk))
                 Hok') as [I1 I2];
      [..|split; [exact I1|lia]]; try done.
    + intros i Hi. by destruct (Hnone i).
    + by destruct (tag_is_root (f_tag f)).
    + left. simpl. split_and!; try done.
      * by eexists.
      * intros _ Hr _. unfold tag_is_root. by rewrite bool_decide_eq_false_2.
    + unfold frame_cost, worker_cost. simpl. rewrite Hb.
      destruct (tag_is_root (f_tag f)); simpl; rewrite Hst; simpl; lia.
  - assert ((m_steal f =? u32_sub k_u32_max (m_join f)) = false) as Hnot
      by (apply Z.eqb_neq; lia).
    pose proof (finish_join_lose σ me p f wk k Hf Hb Hw Hnot) as Hres.
    eapply (result_progress _ _ _ _ _ _ _ _ _ _ _ _ Hres); [by rewrite ?length_insert| |].
    { rewrite Hfr. by rewrite (fmap_insert_fst _ p _ (with_mode lost g)). }
    assert (u32_sub (m_join f) (u32_sub k_u32_max (m_steal f))
            = Z.of_nat (pending (f_locals f))) as Hrebase.
    { rewrite C6, rebase_joins; unfold k_u32_max in *; lia. }
    edestruct (inv_update Inv me wk p f g Hw (or_intror Hst) Hp
                 (with_join (u32_sub (m_join f) (u32_sub k_u32_max (m_steal f))) f)
                 (with_mode lost g) (with_status idle wk))
      as [I1 I2]; [..|split; [exact I1|lia]]; try done.
    + split_and!; simpl; try done.
      * by rewrite Hb.
      * unfold counters_ok, live, inline_pending. simpl.
        rewrite Hrebase. split_and!; try done; lia.
      * unfold mode_ok. simpl. by rewrite Hb.
    + simpl. intros k' Hk'. congruence.
    + right. right. done.
    + unfold frame_cost, worker_cost. simpl. rewrite Hb, Hst. simpl. lia.
Qed.

(** The frame of a task that returns. *)
Lemma return_facts (me : nat) (c : nat) (fc : frame) (gc0 : ghost) (v : Z) :
  H !! c = Some (fc, gc0) → gm gc0 = own me → f_body fc = at_code (co_return v) →
  f_locals fc = [] ∧ v = gv gc0 ∧ m_count fc = 0 ∧ m_steal fc = 0
  ∧ m_join fc = k_u32_max.
Proof.
  intros Hc Hm Hb.
  destruct (inv_frames _ _ _ _ _ _ _ _ Inv c fc gc0 Hc)
    as (Hlt & Hag & Hbody & _ & Hmode & Htags).
  rewrite Hb in Hbody. simpl in Hbody. destruct Hbody as [Hgl [= ->]].
  rewrite Hgl in Hag. apply agrees_nil_inv in Hag.
  destruct (own_counters me c fc gc0 Hc Hm) as (C1 & C2 & C3 & C4 & C5 & C6 & C7).
  rewrite Hag in *. simpl in *.
  split_and!; try done; try lia. by destruct single.
Qed.

Lemma step_return_root (me : nat) (wk : worker) (c : nat) (fc : frame) (gc0 : ghost)
    (v : Z) :
  workers σ !! me = Some wk → w_status wk = running c →
  H !! c = Some (fc, gc0) → f_body fc = at_code (co_return v) →
  f_tag fc = root →
  progress stacks single V n (length (workers σ)) (resume single me c σ).
Proof.
  intros Hw Hst Hc Hb Ht.
  destruct (running_frame Inv me wk c Hw Hst) as (f0 & g0 & Hc0 & Hm & _ & Hch & Hasp).
  rewrite Hc in Hc0. injection Hc0 as <- <-.
  destruct (return_facts me c fc gc0 v Hc Hm Hb) as (Hl & Hv & Hcnt & Hs & Hj).
  destruct (inv_frames _ _ _ _ _ _ _ _ Inv c fc gc0 Hc) as (_ & _ & _ & _ & _ & Htags).
  unfold tags_ok in Htags. rewrite Ht in Htags.
  destruct (f_ret fc) eqn:Hr; [|done..].
  destruct (inv_root _ _ _ _ _ _ _ _ Inv) as [R1 _].
  pose proof (R1 c fc gc0 Hc Ht) as Hc0. rewrite Hc0 in *.
  pose proof (frames_lookup _ fc gc0 Hc) as Hf.
  pose proof (resume_return_root single σ me _ fc wk v Hf Hb Ht Hr Hcnt Hs Hj Hw) as Hres.
  assert (Hleaf : f_locals fc = [] ∧ ∃ cd, f_body fc = at_code cd) by (split; [done|by eexists]).
  eapply (result_progress _ _ _ _ _ _ _ _ _ _ _ ∅ Hres); [by rewrite ?length_insert| |].
  { rewrite Hfr, fmap_empty. apply map_eq. intros x. rewrite lookup_empty.
    destruct (decide (x = 0%nat)) as [->|Hx]; [by rewrite lookup_delete_eq|].
    rewrite lookup_delete_ne, lookup_fmap by done.
    destruct (H !! x) as [y|] eqn:Hy; [|done].
    by pose proof (root_only Inv fc gc0 Hc Hleaf x y Hy). }
  destruct (inv_return_root Inv me wk fc gc0 Hw Hst Hc Hleaf) as [I1 I2].
  rewrite Hv. split; [exact I1|lia].
Qed.

Lemma step_return_call (me : nat) (wk : worker) (c : nat) (fc : frame) (gc0 : ghost)
    (v : Z) (p : nat) :
  workers σ !! me = Some wk → w_status wk = running c →
  H !! c = Some (fc, gc0) → f_body fc = at_code (co_return v) →
  f_tag fc = call → f_ret fc = ret_call → m_parent fc = Some p →
  progress stacks single V n (length (workers σ)) (resume single me c σ).
Proof.
  intros Hw Hst Hc Hb Ht Hr Hpar.
  destruct (running_frame Inv me wk c Hw Hst) as (f0 & g0 & Hc0 & Hm & _ & Hch & Hasp).
  rewrite Hc in Hc0. injection Hc0 as <- <-.
  destruct (return_facts me c fc gc0 v Hc Hm Hb) as (Hl & Hv & Hcnt & Hs & Hj).
  pose proof (inv_children _ _ _ _ _ _ _ _ Inv c fc gc0 Hc) as Hco.
  unfold child_ok in Hco. rewrite Hpar, Hr in Hco.
  destruct Hco as (f & g & Hp & Hlt & ([k Hk] & Hgc) & Hcall & HJ).
  specialize (Hcall Ht).
  pose proof (frames_lookup _ _ _ Hc) as Hfc.
  pose proof (frames_lookup _ _ _ Hp) as Hfp.
  assert (p ≠ c) as Hne by lia.
  pose proof (resume_return_call single σ me c p fc f wk v k
                Hfc Hb Ht Hr Hpar Hcnt Hs Hj Hfp Hk Hne Hw) as Hres.
  eapply (result_progress _ _ _ _ _ _ _ _ _ _ _
            (delete c (<[p := (with_body (at_code (k v)) f, with_mode (own me) g)]> H))
            Hres); [by rewrite ?length_insert| |].
  { rewrite Hfr. rewrite (fmap_insert_fst _ p _ (with_mode (own me) g)).
    by rewrite fmap_delete. }
  assert (Hup : up H c = Some (p, false)).
  { unfold up. by rewrite Hc, Hpar, Hp, Ht. }
  assert (Hleaf : f_locals fc = [] ∧ (∃ cd, f_body fc = at_code cd) ∧ m_steal fc = 0).
  { split_and!; try done. by eexists. }
  destruct (inv_frames _ _ _ _ _ _ _ _ Inv p f g Hp)
    as (Hltp & Hag & Hbody & Hcn & Hmode & Htags).
  edestruct (inv_return_attached Inv me wk c fc gc0 p f g false Hw Hst Hc Hp Hleaf Hup
               (with_body (at_code (k v)) f) (with_mode (own me) g) (w_deque wk))
    as [I1 I2]; [..|rewrite with_deque_same in I1, I2; split; [exact I1|lia]].
  - split_and!; simpl; try done.
    + rewrite Hk in Hbody. simpl in Hbody. by rewrite Hgc, <- Hv in Hbody.
    + unfold counters_ok, live, inline_pending in *. simpl.
      rewrite Hcall, Hk in Hcn. done.
  - done.
  - simpl. split; [done|by eexists].
  - done.
  - intros i Hi _. done.
  - intros i Hi. simpl in Hi. split; [done|]. by rewrite Hr.
  - unfold frame_cost. simpl. rewrite Hk, Hgc, <- Hv. done.
Qed.

(** The parent after a child wrote its result local and returned straight
    into it. *)
Lemma written_ok (me : nat) (p : nat) (f : frame) (g : ghost) (i : nat) (v : Z) :
  H !! p = Some (f, g) → f_locals f !! i = Some None → gl g !! i = Some v →
  inline_pending f g = 1%nat → (∃ cp, f_body f = at_code cp) →
  frame_ok single (next_frame σ) p
    (with_locals (<[i := Some v]> (f_locals f)) f) (with_mode (own me) g).
Proof.
  intros Hp Hi Hgi Hin [cp Hcp].
  destruct (inv_frames _ _ _ _ _ _ _ _ Inv p f g Hp)
    as (Hltp & Hag & Hbody & Hcn & Hmode & Htags).
  split_and!; simpl; try done.
  - by apply agrees_insert.
  - destruct Hcn as (C1 & C2 & C3 & C4 & C5 & C6).
    unfold live in *. rewrite Hin in *.
    pose proof (pending_insert _ _ v Hi) as Hpi.
    unfold counters_ok, live, inline_pending. simpl. rewrite length_insert.
    assert (gm g ≠ lost) as Hnl.
    { intros Hl. unfold inline_pending in Hin. by rewrite Hl in Hin. }
    split_and!; try done; try lia.
    destruct (gm g); try done; lia.
  - unfold mode_ok. simpl. by rewrite Hcp.
Qed.

Lemma return_local_attached (me : nat) (wk : worker) (c : nat) (fc : frame)
    (gc0 : ghost) (v : Z) (p : nat) (f : frame) (g : ghost) (i : nat) (b : bool)
    (dq' : list nat) :
  workers σ !! me = Some wk → w_status wk = running c →
  H !! c = Some (fc, gc0) → f_body fc = at_code (co_return v) →
  f_ret fc = ret_local i → H !! p = Some (f, g) →
  up H c = Some (p, b) → w_deque wk = (if b then p :: dq' else dq') →
  (∃ cp, f_body f = at_code cp)
  ∧ invariant stacks single V
      (delete c (<[p := (with_locals (<[i := Some v]> (f_locals f)) f,
                         with_mode (own me) g)]> H))
      (<[me := with_status (running p) (with_deque dq' wk)]> (workers σ))
      (semaphore σ) (root_result σ) (next_frame σ)
  ∧ (potential
       (delete c (<[p := (with_locals (<[i := Some v]> (f_locals f)) f,
                          with_mode (own me) g)]> H))
       (<[me := with_status (running p) (with_deque dq' wk)]> (workers σ))
     < potential H (workers σ))%nat.
Proof.
  intros Hw Hst Hc Hb Hr Hp Hup Hdq.
  destruct (running_frame Inv me wk c Hw Hst) as (f0 & g0 & Hc0 & Hm & _ & Hch & Hasp).
  rewrite Hc in Hc0. injection Hc0 as <- <-.
  destruct (return_facts me c fc gc0 v Hc Hm Hb) as (Hl & Hv & Hcnt & Hs & Hj).
  destruct (up_tag H c p b fc gc0 Hup Hc) as (Htag & Hpar & Hatt).
  specialize (Hatt f g Hp).
  pose proof (inv_children _ _ _ _ _ _ _ _ Inv c fc gc0 Hc) as Hco.
  unfold child_ok in Hco. rewrite Hpar, Hr in Hco.
  destruct Hco as (f1 & g1 & Hp1 & Hlt & (Hi & Hgi & Hcl) & Hcall & HJ).
  rewrite Hp in Hp1. injection Hp1 as <- <-.
  destruct (inv_frames _ _ _ _ _ _ _ _ Inv p f g Hp)
    as (Hltp & Hag & Hbody & Hcn & Hmode & Htags).
  assert (Hin : inline_pending f g = 1%nat ∧ ∃ cp, f_body f = at_code cp).
  { unfold inline_pending. destruct b.
    - apply (attached_fork_queued f g fc Htag) in Hatt as [[w0 Hq] _].
      rewrite Hq. split; [done|]. unfold mode_ok in Hmode. rewrite Hq in Hmode.
      destruct (f_body f); [by eexists|done..].
    - rewrite (Hcall Htag). destruct (Hcl Htag) as (_ & [cp Hcp]).
      rewrite Hcp. split; [done|by eexists]. }
  destruct Hin as [Hin Hcp]. split; [done|].
  assert (Hleaf : f_locals fc = [] ∧ (∃ cd, f_body fc = at_code cd) ∧ m_steal fc = 0).
  { split_and!; try done. by eexists. }
  apply (inv_return_attached Inv me wk c fc gc0 p f g b Hw Hst Hc Hp Hleaf Hup).
  - apply written_ok; try done. by rewrite Hv.
  - done.
  - done.
  - done.
  - intros j Hj' Hne. simpl. split; [|done].
    rewrite list_lookup_insert_ne; [done|]. intros ->. by rewrite Hr in Hne.
  - intros j Hj'. simpl in Hj'. rewrite Hr.
    destruct (decide (i = j)) as [->|Hne].
    + rewrite list_lookup_insert_eq in Hj' by (by eapply lookup_lt_Some). done.
    + rewrite list_lookup_insert_ne in Hj' by done. split; [done|]. congruence.
  - unfold frame_cost. simpl. done.
Qed.

Lemma step_return_call_local (me : nat) (wk : worker) (c : nat) (fc : frame)
    (gc0 : ghost) (v : Z) (p : nat) (i : nat) :
  workers σ !! me = Some wk → w_status wk = running c →
  H !! c = Some (fc, gc0) → f_body fc = at_code (co_return v) →
  f_tag fc = call → f_ret fc = ret_local i → m_parent fc = Some p →
  progress stacks single V n (length (workers σ)) (resume single me c σ).
Proof.
  intros Hw Hst Hc Hb Ht Hr Hpar.
  destruct (running_frame Inv me wk c Hw Hst) as (f0 & g0 & Hc0 & Hm & _ & Hch & Hasp).
  rewrite Hc in Hc0. injection Hc0 as <- <-.
  destruct (return_facts me c fc gc0 v Hc Hm Hb) as (Hl & Hv & Hcnt & Hs & Hj).
  destruct (inv_parent Inv c p fc gc0 Hc Hpar) as (f & g & Hp & Hlt).
  assert (Hup : up H c = Some (p, false)).
  { unfold up. by rewrite Hc, Hpar, Hp, Ht. }
  destruct (return_local_attached me wk c fc gc0 v p f g i false (w_deque wk)
              Hw Hst Hc Hb Hr Hp Hup eq_refl) as ([cp Hcp] & I1 & I2).
  pose proof (frames_lookup _ _ _ Hc) as Hfc.
  pose proof (frames_lookup _ _ _ Hp) as Hfp.
  assert (p ≠ c) as Hne by lia.
  pose proof (resume_return_call_local single σ me c p fc f wk v i cp
                Hfc Hb Ht Hr Hpar Hcnt Hs Hj Hfp Hcp Hne Hw) as Hres.
  eapply (result_progress _ _ _ _ _ _ _ _ _ _ _ _ Hres); [by rewrite ?length_insert| |].
  { rewrite Hfr. rewrite (fmap_insert_fst _ p _ (with_mode (own me) g)).
    by rewrite fmap_delete. }
  rewrite with_deque_same in I1, I2. split; [exact I1|lia].
Qed.

Lemma step_return_fork_pop (me : nat) (wk : worker) (c : nat) (fc : frame)
    (gc0 : ghost) (v : Z) (p : nat) (i : nat) (q : nat) (d : list nat) :
  workers σ !! me = Some wk → w_status wk = running c →
  H !! c = Some (fc, gc0) → f_body fc = at_code (co_return v) →
  f_tag fc = fork → f_ret fc = ret_local i → m_parent fc = Some p →
  w_deque wk = q :: d →
  progress stacks single V n (length (workers σ)) (resume single me c σ).
Proof.
  intros Hw Hst Hc Hb Ht Hr Hpar Hdq.
  destruct (running_frame Inv me wk c Hw Hst) as (f0 & g0 & Hc0 & Hm & _ & Hch & Hasp).
  rewrite Hc in Hc0. injection Hc0 as <- <-.
  destruct (return_facts me c fc gc0 v Hc Hm Hb) as (Hl & Hv & Hcnt & Hs & Hj).
  destruct (inv_parent Inv c p fc gc0 Hc Hpar) as (f & g & Hp & Hlt).
  assert (Hup : up H c = Some (p, true) ∧ q = p).
  { rewrite Hdq in Hch.
    inversion Hch as [|? p' ? U C'|? p' ? U C']; subst.
    - destruct (up_tag H c p' false fc gc0 U Hc) as (Htag & _). congruence.
    - destruct (up_tag H c q true fc gc0 U Hc) as (_ & Hpar' & _).
      assert (q = p) as -> by congruence. done. }
  destruct Hup as [Hup ->].
  destruct (return_local_attached me wk c fc gc0 v p f g i true d
              Hw Hst Hc Hb Hr Hp Hup Hdq) as ([cp Hcp] & I1 & I2).
  pose proof (frames_lookup _ _ _ Hc) as Hfc.
  pose proof (frames_lookup _ _ _ Hp) as Hfp.
  assert (p ≠ c) as Hne by lia.
  pose proof (resume_return_fork_pop single σ me c p fc f wk v i cp d
                Hfc Hb Ht Hr Hpar Hcnt Hs Hj Hfp Hcp Hne Hw Hdq) as Hres.
  eapply (result_progress _ _ _ _ _ _ _ _ _ _ _ _ Hres); [by rewrite ?length_insert| |].
  { rewrite Hfr. rewrite (fmap_insert_fst _ p _ (with_mode (own me) g)).
    by rewrite fmap_delete. }
  split; [exact I1|lia].
Qed.

Lemma tags_root (f : frame) :
  tags_ok single f → tag_is_root (f_tag f) = is_root f.
Proof.
  unfold tags_ok, tag_is_root, is_root.
  destruct (f_tag f), (f_ret f), (m_parent f); done.
Qed.

(** A stolen child that returns is not the only pending child when the
    parent also waits for a child that returns straight into it. *)
Lemma detached_live (c : nat) (fc : frame) (gc0 : ghost) (p : nat) (f : frame)
    (g : ghost) (i : nat) :
  H !! c = Some (fc, gc0) → H !! p = Some (f, g) →
  f_tag fc = fork → f_ret fc = ret_local i → m_parent fc = Some p →
  attached f g fc = false →
  f_locals f !! i = Some None ∧ gl g !! i = Some (gv gc0) ∧ single = false
  ∧ 1 ≤ live f g
  ∧ (inline_pending f g = 1%nat → i ≠ pred (length (f_locals f))).
Proof.
  intros Hc Hp Ht Hr Hpar Hatt.
  pose proof (inv_children _ _ _ _ _ _ _ _ Inv c fc gc0 Hc) as Hco.
  unfold child_ok in Hco. rewrite Hpar, Hr in Hco.
  destruct Hco as (f1 & g1 & Hp1 & Hlt & (Hi & Hgi & Hcl) & Hcall & HJ).
  rewrite Hp in Hp1. injection Hp1 as <- <-.
  destruct (inv_frames _ _ _ _ _ _ _ _ Inv c fc gc0 Hc) as (_ & _ & _ & _ & _ & Htc).
  unfold tags_ok in Htc. rewrite Ht, Hr, Hpar in Htc.
  destruct (inv_frames _ _ _ _ _ _ _ _ Inv p f g Hp)
    as (Hltp & Hag & Hbody & Hcn & Hmode & Htags).
  assert (Hlast : inline_pending f g = 1%nat →
            i ≠ pred (length (f_locals f))
            ∧ f_locals f !! pred (length (f_locals f)) = Some None).
  { unfold inline_pending, mode_ok, attached in *. rewrite Ht, Hr in Hatt.
    destruct (gm g) eqn:Hg; simpl in *; try done.
    - destruct (f_body f); try done. destruct Hmode as [_ Hm]. split; [|done].
      intros ->. by rewrite bool_decide_eq_true_2 in Hatt.
    - destruct (f_body f); try done. destruct Hmode as [Hm _]. congruence. }
  split_and!; try done; [|by intros Hin; apply Hlast].
  unfold live. pose proof (pending_lookup _ _ Hi) as H1.
  destruct (decide (inline_pending f g = 1%nat)) as [Hin|Hin].
  - destruct (Hlast Hin) as [Hne Hl].
    pose proof (pending_two _ _ _ Hi Hl Hne). lia.
  - assert (inline_pending f g = 0%nat) as ->; [|lia].
    unfold inline_pending in *. destruct (gm g); try done. by destruct (f_body f).
Qed.

Lemma step_return_fork_detached (me : nat) (wk : worker) (c : nat) (fc : frame)
    (gc0 : ghost) (v : Z) (p : nat) (i : nat) :
  workers σ !! me = Some wk → w_status wk = running c →
  H !! c = Some (fc, gc0) → f_body fc = at_code (co_return v) →
  f_tag fc = fork → f_ret fc = ret_local i → m_parent fc = Some p →
  w_deque wk = [] →
  progress stacks single V n (length (workers σ)) (resume single me c σ).
Proof.
  intros Hw Hst Hc Hb Ht Hr Hpar Hdq.
  destruct (running_frame Inv me wk c Hw Hst) as (f0 & g0 & Hc0 & Hm & _ & Hch & Hasp).
  rewrite Hc in Hc0. injection Hc0 as <- <-.
  destruct (return_facts me c fc gc0 v Hc Hm Hb) as (Hl & Hv & Hcnt & Hs & Hj).
  destruct (inv_parent Inv c p fc gc0 Hc Hpar) as (f & g & Hp & Hlt).
  pose proof (stolen_detached Inv me wk c p fc f gc0 g Hw Hst Hdq Hc Ht Hpar Hp) as Hatt.
  destruct (detached_live c fc gc0 p f g i Hc Hp Ht Hr Hpar Hatt)
    as (Hi & Hgi & Hsingle & Hlive & Hlast).
  destruct (inv_frames _ _ _ _ _ _ _ _ Inv p f g Hp)
    as (Hltp & Hag & Hbody & Hcn & Hmode & Htags).
  destruct Hcn as (C1 & C2 & C3 & C4 & C5 & C6).
  pose proof (pending_insert _ _ v Hi) as Hpi.
  pose proof (frames_lookup _ _ _ Hc) as Hfc.
  pose proof (frames_lookup _ _ _ Hp) as Hfp.
  assert (p ≠ c) as Hne by lia.
  assert (Hleaf : f_locals fc = [] ∧ (∃ cd, f_body fc = at_code cd)).
  { split; [done|by eexists]. }
  assert (Hagi : agrees (<[i := Some v]> (f_locals f)) (gl g)).
  { apply agrees_insert; [done|]. by rewrite Hv. }
  destruct (decide (gm g = lost ∧ pending (f_locals f) = 1%nat)) as [[Hlost Hone]|Hnot].
  - (* the last child: the parent goes on after its join *)
    assert (inline_pending f g = 0%nat) as Hip.
    { unfold inline_pending. by rewrite Hlost. }
    unfold live in *. rewrite Hip, Hlost in *.
    assert (∃ k, f_body f = at_join k) as [k Hk].
    { unfold mode_ok in Hmode. rewrite Hlost in Hmode.
      destruct (f_body f); [done..|by eexists]. }
    assert (m_join f = 1) as Hj1 by lia.
    assert (read_locals (<[i := Some v]> (f_locals f)) = Some (gl g)) as Hrs.
    { apply read_locals_agrees; [done|lia]. }
    destruct (resume_return_fork_last single σ me c p fc f wk v i k (gl g)
                Hfc Hb Ht Hr Hpar Hcnt Hs Hj Hfp Hk Hne Hw Hdq Hj1
                (tags_root f Htags) Hrs) as (wk' & Hst' & Hdq' & Hasp' & Hres).
    set (gp' := {| gv := gv g; gl := []; gc := gc g; gm := own me |}).
    eapply (result_progress _ _ _ _ _ _ _ _ _ _ _
              (delete c (<[p := (joined_frame (with_steal 0 (with_join k_u32_max f))
                                   (k (gl g)), gp')]> H)) Hres); [by rewrite ?length_insert| |].
    { rewrite Hfr. rewrite (fmap_insert_fst _ p _ gp'). by rewrite fmap_delete. }
    edestruct (inv_return_last Inv me wk c fc gc0 p f g i Hw Hst Hc Hp Hleaf Hpar Hr
                 Hdq Hlost Hone
                 (joined_frame (with_steal 0 (with_join k_u32_max f)) (k (gl g)))
                 gp' wk') as [I1 I2]; [..|split; [exact I1|lia]].
    + apply joined_frame_ok; [done|]. exists (f_body f). split; [done|].
      by rewrite Hk in Hbody.
    + done.
    + simpl. split_and!; try done. by eexists.
    + split_and!; try done. intros Hroot. apply Hasp'.
      rewrite <- (tags_root f Htags). unfold tag_is_root.
      by rewrite bool_decide_eq_false_2.
    + unfold frame_cost. simpl. rewrite Hk. lia.
  - (* other stolen children still run *)
    assert (m_join f ≠ 1 ∧ 1 ≤ m_join f ≤ k_u32_max) as [Hj1 Hj2].
    { unfold live in *. destruct (gm g) eqn:Hg.
      1-3: split; lia.
      destruct C6 as [C6 C7]. split; [|lia]. intros E.
      apply Hnot. split; [done|].
      unfold inline_pending in *. rewrite Hg in *. simpl in *. lia. }
    assert ((m_join f =? 1) = false) as Hold by (by apply Z.eqb_neq).
    destruct (resume_return_fork_not_last single σ me c p fc f wk v i
                Hfc Hb Ht Hr Hpar Hcnt Hs Hj Hfp Hne Hw Hdq Hold)
      as (wk' & Hst' & Hdq' & Hres).
    eapply (result_progress _ _ _ _ _ _ _ _ _ _ _
              (delete c (<[p := (with_join (u32_sub (m_join f) 1)
                                   (with_locals (<[i := Some v]> (f_locals f)) f), g)]> H))
              Hres); [by rewrite ?length_insert| |].
    { rewrite Hfr. rewrite (fmap_insert_fst _ p _ g). by rewrite fmap_delete. }
    edestruct (inv_return_detached Inv me wk c fc gc0 p f g i v Hw Hst Hc Hp Hleaf Hpar Hr
                 Hdq
                 (with_join (u32_sub (m_join f) 1)
                    (with_locals (<[i := Some v]> (f_locals f)) f))
                 wk') as [I1 I2]; [..|split; [exact I1|lia]]; try done.
    rewrite u32_sub_small by lia.
    split_and!; simpl; try done.
    + unfold counters_ok, live in *.
      assert (inline_pending
                (with_join (m_join f - 1) (with_locals (<[i:=Some v]> (f_locals f)) f)) g
              = inline_pending f g) as -> by done.
      simpl. rewrite length_insert.
      split_and!; try done; try lia.
      destruct (gm g); try lia.
    + unfold mode_ok in *. simpl.
      destruct (gm g) eqn:Hg; try done.
      * destruct (f_body f) eqn:Hbf; try done. destruct Hmode as [Hm1 Hm2].
        split; [done|]. rewrite length_insert.
        rewrite list_lookup_insert_ne; [done|]. apply Hlast.
        unfold inline_pending. by rewrite Hg.
      * destruct (f_body f) eqn:Hbf; try done. destruct Hmode as [Hm1 Hm2]. congruence.
Qed.

Lemma step_steal (me vi : nat) (wt wv : worker) (q : nat) (d : list nat) :
  workers σ !! me = Some wt → workers σ !! vi = Some wv → me ≠ vi →
  w_status wt = idle → take_last (w_deque wv) = Some (q, d) →
  progress false single V n (length (workers σ)) (steal_from me vi q d σ).
Proof.
  intros Hme Hvi Hne Hidle Htl. apply take_last_Some in Htl.
  pose proof (invariant_weaken _ _ _ _ _ _ _ _ Inv) as InvF.
  destruct (deque_queued Inv vi wv q Hvi) as (f & g & Hq & Hm).
  { rewrite Htl. apply elem_of_app. right. apply elem_of_cons. by left. }
  destruct (inv_frames _ _ _ _ _ _ _ _ Inv q f g Hq)
    as (Hlt & Hag & Hbody & Hcn & Hmode & Htags).
  unfold mode_ok in Hmode. rewrite Hm in Hmode.
  destruct (f_body f) as [cq| |] eqn:Hb; [|done..]. destruct Hmode as [Hsingle Hlast].
  destruct Hcn as (C1 & C2 & C3 & C4 & C5 & C6).
  unfold live, inline_pending in C2, C3, C6. rewrite Hm in C2, C3, C6.
  simpl in C2, C3, C6.
  pose proof (frames_lookup _ _ _ Hq) as Hfq.
  pose proof (steal_from_result σ me vi q d f wt wv cq Hme Hvi Hne Hfq Hb) as Hres.
  rewrite u32_add_small in Hres by lia.
  eapply (result_progress _ _ _ _ _ _ _ _ _ _ _
            (<[q := (with_steal (m_steal f + 1) f, with_mode (own me) g)]> H) Hres); [by rewrite ?length_insert| |].
  { rewrite Hfr. by rewrite (fmap_insert_fst _ q _ (with_mode (own me) g)). }
  edestruct (inv_steal InvF me vi wt wv q d f g (next_stack σ) (w_asp wv)
               Hme Hvi Hne Hidle Htl Hq
               (with_steal (m_steal f + 1) f) (with_mode (own me) g))
    as [I1 I2]; [..|split; [exact I1|lia]]; try done.
  - split_and!; simpl; try done.
    + by rewrite Hb.
    + unfold counters_ok, live, inline_pending. simpl.
      split_and!; try done; try lia. intros ->. done.
    + unfold mode_ok. simpl. by rewrite Hb.
Qed.

(** Every action that can happen keeps the invariant and uses up
    potential. *)
Lemma exec_progress (a : action) (o : outcome unit) :
  exec single a σ = Some o →
  match a with
  | act_step _ =>
      progress stacks single V n (length (workers σ)) o
      ∨ (stacks = false ∧ o = Abort (assertion_failed assert_top_is_asp))
  | act_steal _ _ => progress false single V n (length (workers σ)) o
  end.
Proof.
  destruct a as [me|me vi]; simpl.
  - destruct (workers σ !! me) as [wk|] eqn:Hw; [|done].
    destruct (w_status wk) as [|p|p] eqn:Hst; [done| |].
    + intros [= <-].
      destruct (running_frame Inv me wk p Hw Hst) as (f & g & Hp & Hm & [c Hb] & Hch & Hasp).
      destruct (inv_frames _ _ _ _ _ _ _ _ Inv p f g Hp)
        as (Hlt & Hag & Hbody & Hcn & Hmode & Htags).
      destruct c as [v| |child k|child k|k].
      * unfold tags_ok in Htags.
        destruct (f_tag f) eqn:Ht.
        -- left; by eapply step_return_root.
        -- destruct (f_ret f) eqn:Hr; [done| |];
             (destruct (m_parent f) as [pp|] eqn:Hpar; [|done]).
           ++ left; by eapply step_return_call_local.
           ++ left; by eapply step_return_call.
        -- destruct (f_ret f) eqn:Hr; [done| |done].
           destruct (m_parent f) as [pp|] eqn:Hpar; [|done].
           destruct (w_deque wk) as [|q d] eqn:Hdq.
           ++ left; by eapply step_return_fork_detached.
           ++ left; by eapply step_return_fork_pop.
      * rewrite Hb in Hbody. by destruct Hbody.
      * destruct (decide (single = true)) as [Hsingle|Hsingle%not_true_is_false].
        -- left; by eapply step_fork_single.
        -- left; by eapply step_fork.
      * left; by eapply step_call.
      * by eapply step_join.
    + intros [= <-]. left; by eapply step_finish_join.
  - destruct (workers σ !! me) as [wt|] eqn:Hme; [|done].
    destruct (workers σ !! vi) as [wv|] eqn:Hvi; [|done].
    destruct (w_status wt) eqn:Hidle; [|done..].
    destruct (take_last (w_deque wv)) as [[q d]|] eqn:Htl; [|done].
    case_bool_decide as Hne; [done|].
    intros [= <-]. by eapply step_steal.
Qed.

End step.

Theorem step_inv (stacks single : bool) (V : Z) (n : nat) (σ : state) (a : action)
    (o : outcome unit) :
  inv stacks single V n σ → exec single a σ = Some o →
  match a with
  | act_step _ =>
      progress stacks single V n (length (workers σ)) o
      ∨ (stacks = false ∧ o = Abort (assertion_failed assert_top_is_asp))
  | act_steal _ _ => progress false single V n (length (workers σ)) o
  end.
Proof.
  intros (H & Hfr & Inv & Hpot) Hex.
  by apply (exec_progress stacks single V n σ H Hfr Inv Hpot a o).
Qed.

(** * Runs *)



Lemma run_app (single : bool) (l1 l2 : list action) (σ : state) :
  run single (l1 ++ l2) σ
  = match run single l1 σ with
    | Ok _ σ' => run single l2 σ'
    | Abort why => Abort why
    end.
Proof.
  revert σ. induction l1 as [|a l1 IH]; intros σ; simpl; [done|].
  destruct (exec single a σ) as [[[] σ'|why]|]; by rewrite ?IH.
Qed.

Lemma run_disabled (single : bool) (l : list action) (σ : state) :
  (∀ a, a ∈ l → exec single a σ = None) → run single l σ = Ok () σ.
Proof.
  induction l as [|a l IH]; intros Hdis; simpl; [done|].
  rewrite Hdis by (apply elem_of_cons; by left).
  apply IH. intros b Hb. apply Hdis. apply elem_of_cons. by right.
Qed.

(** A run without a steal does not fail; the actions that happen use up
    the potential. *)
Lemma run_inv (single : bool) (V : Z) (sched : list action) (n : nat) (σ : state) :
  inv true single V n σ → thefts single sched σ = 0%nat →
  ∃ σ' n', run single sched σ = Ok () σ' ∧ inv true single V n' σ'
           ∧ (n' + effective single sched σ ≤ n)%nat
           ∧ length (workers σ') = length (workers σ)
           ∧ ((n' < n)%nat ∨ (σ' = σ ∧ ∀ a, a ∈ sched → exec single a σ = None)).
Proof.
  revert n σ. induction sched as [|a sched IH]; intros n σ Hinv Hcalm; simpl.
  - exists σ, n. split_and!; try done; [lia|]. right. split; [done|].
    intros a Ha. by apply elem_of_nil in Ha.
  - simpl in Hcalm. destruct (exec single a σ) as [o|] eqn:Hex.
    + pose proof (step_inv true single V n σ a o Hinv Hex) as Hstep.
      destruct a as [me|me vi].
      * destruct Hstep as [(σ1 & n1 & -> & Hinv1 & Hlt & Hlen)|[[=] _]].
        destruct (IH n1 σ1 Hinv1 Hcalm) as (σ' & n' & Hrun & Hinv' & Hle & Hlen' & _).
        exists σ', n'. split_and!; try done; [lia|congruence|]. left. lia.
      * by destruct Hstep as (σ1 & n1 & -> & _).
    + destruct (IH n σ Hinv Hcalm) as (σ' & n' & Hrun & Hinv' & Hle & Hlen' & Hcase).
      exists σ', n'. split_and!; try done.
      destruct Hcase as [Hlt|[-> Hdis]]; [by left|right]. split; [done|].
      intros b [->|Hb]%elem_of_cons; [done|by apply Hdis].
Qed.

(** A run with steals does not fail either, unless it stops at the check
    of the stack. *)
Lemma run_inv_any (stacks single : bool) (V : Z) (sched : list action) (n : nat)
    (σ : state) :
  inv stacks single V n σ →
  (∃ σ' n', run single sched σ = Ok () σ' ∧ inv false single V n' σ'
            ∧ (n' + effective single sched σ ≤ n)%nat
            ∧ length (workers σ') = length (workers σ)
            ∧ ((n' < n)%nat ∨ (σ' = σ ∧ ∀ a, a ∈ sched → exec single a σ = None)))
  ∨ off_stack (run single sched σ).
Proof.
  intros Hinv%inv_weaken. revert n σ Hinv.
  induction sched as [|a sched IH]; intros n σ Hinv; simpl.
  - left. exists σ, n. split_and!; try done; [lia|]. right. split; [done|].
    intros a Ha. by apply elem_of_nil in Ha.
  - destruct (exec single a σ) as [o|] eqn:Hex.
    + pose proof (step_inv false single V n σ a o Hinv Hex) as Hstep.
      assert (progress false single V n (length (workers σ)) o ∨ off_stack o)
        as [(σ1 & n1 & -> & Hinv1 & Hlt & Hlen)| ->].
      { destruct a; [|by left]. destruct Hstep as [?|[_ ?]]; [by left|by right]. }
      * destruct (IH n1 σ1 Hinv1) as [(σ' & n' & Hrun & Hinv' & Hle & Hlen' & _)|Hoff].
        -- left. exists σ', n'. split_and!; try done; [lia|congruence|]. left. lia.
        -- by right.
      * by right.
    + destruct (IH n σ Hinv) as [(σ' & n' & Hrun & Hinv' & Hle & Hlen' & Hcase)|Hoff].
      * left. exists σ', n'. split_and!; try done.
        destruct Hcase as [Hlt|[-> Hdis]]; [by left|right]. split; [done|].
        intros b [->|Hb]%elem_of_cons; [done|by apply Hdis].
      * by right.
Qed.

(** Steps steal nothing, and nothing can be stolen in a pool of one
    worker. *)
Lemma thefts_steps (single : bool) (l : list nat) (σ : state) :
  thefts single (act_step <$> l) σ = 0%nat.
Proof.
  revert σ. induction l as [|me l IH]; intros σ; [done|].
  cbn [fmap list_fmap thefts].
  destruct (exec single (act_step me) σ) as [[[] σ'|why]|]; [apply IH|done|apply IH].
Qed.

Lemma thefts_app (single : bool) (l1 l2 : list action) (σ σ1 : state) :
  run single l1 σ = Ok () σ1 →
  thefts single (l1 ++ l2) σ = (thefts single l1 σ + thefts single l2 σ1)%nat.
Proof.
  revert σ. induction l1 as [|a l1 IH]; intros σ; simpl.
  - by intros [= ->].
  - destruct (exec single a σ) as [[[] σ'|why]|]; [|done|by apply IH].
    intros Hrun. rewrite (IH σ' Hrun). by destruct a.
Qed.

Lemma steal_alone (single : bool) (me vi : nat) (σ : state) :
  length (workers σ) = 1%nat → exec single (act_steal me vi) σ = None.
Proof.
  intros Hlen. simpl.
  destruct (workers σ !! me) as [wt|] eqn:Hme; [|done].
  destruct (workers σ !! vi) as [wv|] eqn:Hvi; [|done].
  apply lookup_lt_Some in Hme, Hvi.
  destruct (w_status wt); [|done..]. destruct (take_last (w_deque wv)) as [[q d]|]; [|done].
  rewrite bool_decide_eq_true_2; [done|lia].
Qed.

Lemma thefts_alone (single : bool) (V : Z) (sched : list action) (n : nat) (σ : state) :
  inv true single V n σ → length (workers σ) = 1%nat → thefts single sched σ = 0%nat.
Proof.
  revert n σ. induction sched as [|a sched IH]; intros n σ Hinv Hlen; [done|].
  simpl. destruct (exec single a σ) as [o|] eqn:Hex; [|by eapply IH].
  destruct a as [me|me vi]; [|by rewrite steal_alone in Hex].
  destruct (step_inv true single V n σ _ o Hinv Hex)
    as [(σ1 & n1 & -> & Hinv1 & _ & Hlen1)|[[=] _]].
  apply (IH n1 σ1 Hinv1). congruence.
Qed.

(** ** The result *)

Lemma result_value (stacks single : bool) (V : Z) (n : nat) (σ : state) (r : Z) :
  inv stacks single V n σ → sync_wait_result σ = Some r → r = V.
Proof.
  intros (H & Hfr & Inv & _) Hres. unfold sync_wait_result in Hres.
  destruct (inv_root _ _ _ _ _ _ _ _ Inv) as [_ R2].
  destruct (H !! 0%nat) as [[f g]|].
  - destruct R2 as (_ & _ & Hs & _). by rewrite Hs in Hres.
  - destruct R2 as (_ & Hs & Hr). rewrite Hs, Hr in Hres. congruence.
Qed.

Section quiescent.

Context {stacks single : bool} {V : Z} {H : gmap nat (frame * ghost)} {ws : list worker}
  {sem : nat} {res : option Z} {next : nat}.
Context (Inv : invariant stacks single V H ws sem res next).
Context (Hidle : ∀ me wk, ws !! me = Some wk → w_status wk = idle).

(** When no worker runs, every frame waits for a child. *)
Lemma waits_for_child (p : nat) (f : frame) (g : ghost) :
  H !! p = Some (f, g) →
  ∃ c fc gc0, H !! c = Some (fc, gc0) ∧ (p < c)%nat.
Proof.
  intros Hp.
  assert (∃ c fc gc0, H !! c = Some (fc, gc0) ∧ m_parent fc = Some p)
    as (c & fc & gc0 & Hc & Hpar).
  { destruct (inv_frames _ _ _ _ _ _ _ _ Inv p f g Hp)
      as (_ & _ & _ & Hcnt & Hmode & _).
    pose proof (inv_modes _ _ _ _ _ _ _ _ Inv p f g Hp) as Hmo.
    destruct (inv_exist _ _ _ _ _ _ _ _ Inv p f g Hp) as [E1 E2].
    unfold mode_ok in Hmode.
    destruct (gm g) as [w|w| |] eqn:Hg.
    - destruct Hmo as (wk & Hw & Hs). rewrite (Hidle w wk Hw) in Hs. by destruct Hs.
    - destruct Hmo as (wk & Hw & Hin).
      destruct (inv_workers _ _ _ _ _ _ _ _ Inv w wk Hw) as [_ Hs].
      rewrite (Hidle w wk Hw) in Hs. rewrite Hs in Hin. by apply elem_of_nil in Hin.
    - destruct (f_body f) as [cd|k|k] eqn:Hb; [| |done].
      + destruct Hmode as [_ Hl]. destruct (E1 _ Hl) as (c & fc & gc0 & Hc & Hpar & _).
        eauto.
      + destruct E2 as (c & fc & gc0 & Hc & Hpar & _); [by eexists|]. eauto.
    - destruct Hcnt as (_ & _ & _ & _ & _ & Hj). rewrite Hg in Hj.
      destruct Hj as [_ Hlive]. unfold live, inline_pending in Hlive.
      rewrite Hg in Hlive. simpl in Hlive.
      destruct (pending_exists (f_locals f)) as [i Hi]; [lia|].
      destruct (E1 _ Hi) as (c & fc & gc0 & Hc & Hpar & _). eauto. }
  destruct (inv_parent Inv c p fc gc0 Hc Hpar) as (_ & _ & _ & Hlt). eauto.
Qed.

Lemma no_frames (k : nat) (p : nat) (y : frame * ghost) :
  H !! p = Some y → (next ≤ p + k)%nat → False.
Proof.
  revert p y. induction k as [|k IH]; intros p [f g] Hp Hle.
  - pose proof (inv_lt Inv p _ Hp). lia.
  - destruct (waits_for_child p f g Hp) as (c & fc & gc0 & Hc & Hlt).
    apply (IH c _ Hc). lia.
Qed.

Lemma quiescent_done : sem = 1%nat ∧ res = Some V.
Proof.
  destruct (inv_root _ _ _ _ _ _ _ _ Inv) as [_ R2].
  destruct (H !! 0%nat) as [[f g]|] eqn:H0.
  - exfalso. apply (no_frames next 0%nat _ H0). lia.
  - by destruct R2 as (_ & ? & ?).
Qed.

End quiescent.

(** When no worker has anything left to do the semaphore of the root has
    been released and the result is there. *)
Lemma quiescent_result (stacks single : bool) (V : Z) (n : nat) (σ : state) :
  inv stacks single V n σ →
  (∀ me, exec single (act_step me) σ = None) →
  sync_wait_result σ = Some V.
Proof.
  intros (H & Hfr & Inv & _) Hdis.
  assert (Hidle : ∀ me wk, workers σ !! me = Some wk → w_status wk = idle).
  { intros me wk Hw. specialize (Hdis me). simpl in Hdis. rewrite Hw in Hdis.
    by destruct (w_status wk). }
  destruct (quiescent_done Inv Hidle) as [Hs Hr].
  unfold sync_wait_result. by rewrite Hs, Hr.
Qed.

Lemma step_out_of_range (single : bool) (σ : state) (me : nat) :
  (length (workers σ) ≤ me)%nat → exec single (act_step me) σ = None.
Proof.
  intros Hle. simpl. by rewrite lookup_ge_None_2.
Qed.

(** ** A fair scheduler gets the result *)

Lemma round_robin_idle (single : bool) (nw rounds : nat) (σ : state) :
  (∀ a, a ∈ act_step <$> seq 0 nw → exec single a σ = None) →
  run single (round_robin nw rounds) σ = Ok () σ.
Proof.
  intros Hdis. unfold round_robin. induction rounds as [|rounds IH]; [done|].
  simpl. by rewrite run_app, run_disabled.
Qed.

Lemma idle_result (stacks single : bool) (V : Z) (nw n : nat) (σ : state) :
  inv stacks single V n σ → length (workers σ) = nw →
  (∀ a, a ∈ act_step <$> seq 0 nw → exec single a σ = None) →
  sync_wait_result σ = Some V.
Proof.
  intros Hinv Hlen Hdis. apply (quiescent_result stacks single V n σ Hinv). intros me.
  destruct (decide (me < nw)%nat) as [Hme|Hme].
  - apply Hdis. apply list_elem_of_fmap_2. apply elem_of_seq. lia.
  - apply step_out_of_range. lia.
Qed.

Lemma round_robin_result (single : bool) (V : Z) (nw : nat) (rounds : nat) (n : nat)
    (σ : state) :
  inv true single V n σ → length (workers σ) = nw → (n < rounds)%nat →
  ∃ σ', run single (round_robin nw rounds) σ = Ok () σ'
        ∧ sync_wait_result σ' = Some V.
Proof.
  revert n σ. induction rounds as [|rounds IH]; intros n σ Hinv Hlen Hlt; [lia|].
  destruct (run_inv single V (act_step <$> seq 0 nw) n σ Hinv (thefts_steps _ _ _))
    as (σ1 & n1 & Hrun & Hinv1 & _ & Hlen1 & Hcase).
  destruct Hcase as [Hlt1|[-> Hdis]].
  - unfold round_robin. simpl. rewrite run_app, Hrun.
    apply (IH n1 σ1 Hinv1); [congruence|lia].
  - exists σ. split; [by apply round_robin_idle|].
    by apply (idle_result _ _ _ _ _ _ Hinv1 Hlen Hdis).
Qed.

Lemma round_robin_any (stacks single : bool) (V : Z) (nw : nat) (rounds : nat) (n : nat)
    (σ : state) :
  inv stacks single V n σ → length (workers σ) = nw → (n < rounds)%nat →
  (∃ σ', run single (round_robin nw rounds) σ = Ok () σ'
         ∧ sync_wait_result σ' = Some V)
  ∨ off_stack (run single (round_robin nw rounds) σ).
Proof.
  intros Hinv%inv_weaken. revert n σ Hinv.
  induction rounds as [|rounds IH]; intros n σ Hinv Hlen Hlt; [lia|].
  destruct (run_inv_any false single V (act_step <$> seq 0 nw) n σ Hinv)
    as [(σ1 & n1 & Hrun & Hinv1 & _ & Hlen1 & Hcase)|Hoff].
  - destruct Hcase as [Hlt1|[-> Hdis]].
    + unfold round_robin. simpl. rewrite run_app, Hrun.
      apply (IH n1 σ1 Hinv1); [congruence|lia].
    + left. exists σ. split; [by apply round_robin_idle|].
      by apply (idle_result _ _ _ _ _ _ Hinv1 Hlen Hdis).
  - right. unfold round_robin, off_stack in *. simpl. by rewrite run_app, Hoff.
Qed.


(** * Whole runs of [sync_wait] *)

Lemma submit_workers (nworkers first : nat) (c : task) :
  length (workers (submit nworkers first c)) = nworkers.
Proof. simpl. by rewrite length_insert, length_fmap, length_seq. Qed.

(** Every state that a schedule without a steal reaches from [submit]
    satisfies the invariant. *)
Lemma reachable_inv (single : bool) (nworkers first : nat) (c : task) (v : Z)
    (sched : list action) :
  (first < nworkers)%nat → structured c [] → sequential c [] = Some v →
  thefts single sched (submit nworkers first c) = 0%nat →
  ∃ σ n, run single sched (submit nworkers first c) = Ok () σ
         ∧ inv true single v n σ
         ∧ (n + effective single sched (submit nworkers first c) ≤ cost c [])%nat
         ∧ length (workers σ) = nworkers.
Proof.
  intros Hfirst Hs Hv Hcalm.
  destruct (run_inv single v sched _ _
              (inv_submit true single nworkers first c v Hfirst Hs Hv) Hcalm)
    as (σ & n & Hrun & Hinv & Hle & Hlen & _).
  exists σ, n. split_and!; try done. by rewrite Hlen, submit_workers.
Qed.

(** With steals a schedule reaches such a state as well, without what is
    known about the stacks, or the run stops at the check of the stack. *)
Lemma reachable_any (single : bool) (nworkers first : nat) (c : task) (v : Z)
    (sched : list action) :
  (first < nworkers)%nat → structured c [] → sequential c [] = Some v →
  (∃ σ n, run single sched (submit nworkers first c) = Ok () σ
          ∧ inv false single v n σ
          ∧ (n + effective single sched (submit nworkers first c) ≤ cost c [])%nat
          ∧ length (workers σ) = nworkers)
  ∨ off_stack (run single sched (submit nworkers first c)).
Proof.
  intros Hfirst Hs Hv.
  destruct (run_inv_any true single v sched _ _
              (inv_submit true single nworkers first c v Hfirst Hs Hv))
    as [(σ & n & Hrun & Hinv & Hle & Hlen & _)|Hoff]; [left|by right].
  exists σ, n. split_and!; try done. by rewrite Hlen, submit_workers.
Qed.

(** Nothing is stolen in a pool of one worker. *)
Lemma alone (single : bool) (c : task) (v : Z) (sched : list action) :
  structured c [] → sequential c [] = Some v →
  thefts single sched (submit 1 0 c) = 0%nat.
Proof.
  intros Hs Hv.
  apply (thefts_alone single v sched _ _
           (inv_submit true single 1 0 c v Nat.lt_0_1 Hs Hv)).
  apply submit_workers.
Qed.

Lemma completes (single : bool) (nworkers first : nat) (c : task) (v : Z)
    (sched : list action) (rounds : nat) :
  (first < nworkers)%nat → structured c [] → sequential c [] = Some v →
  thefts single sched (submit nworkers first c) = 0%nat →
  (cost c [] < rounds)%nat →
  ∃ σ, run single (sched ++ round_robin nworkers rounds)
         (submit nworkers first c) = Ok () σ
       ∧ sync_wait_result σ = Some v.
Proof.
  intros Hfirst Hs Hv Hcalm Hr.
  destruct (reachable_inv single nworkers first c v sched Hfirst Hs Hv Hcalm)
    as (σ1 & n1 & Hrun & Hinv & Hle & Hlen).
  rewrite run_app, Hrun.
  apply (round_robin_result single v nworkers _ n1 σ1 Hinv Hlen). lia.
Qed.

Lemma completes_any (single : bool) (nworkers first : nat) (c : task) (v : Z)
    (sched : list action) (rounds : nat) :
  (first < nworkers)%nat → structured c [] → sequential c [] = Some v →
  (cost c [] < rounds)%nat →
  (∃ σ, run single (sched ++ round_robin nworkers rounds)
          (submit nworkers first c) = Ok () σ
        ∧ sync_wait_result σ = Some v)
  ∨ off_stack (run single (sched ++ round_robin nworkers rounds)
                 (submit nworkers first c)).
Proof.
  intros Hfirst Hs Hv Hr.
  destruct (reachable_any single nworkers first c v sched Hfirst Hs Hv)
    as [(σ1 & n1 & Hrun & Hinv & Hle & Hlen)|Hoff].
  - rewrite run_app, Hrun.
    apply (round_robin_any false single v nworkers _ n1 σ1 Hinv Hlen). lia.
  - right. unfold off_stack in *. by rewrite run_app, Hoff.
Qed.

(** ** Fibonacci *)

Lemma fib_task_rec_spec (fuel : nat) (n : Z) :
  structured (fib_task_rec fuel n) []
  ∧ sequential (fib_task_rec fuel n) [] = Some (fib_rec fuel n).
Proof.
  revert n. induction fuel as [|fuel IH]; intros n; simpl; [done|].
  destruct (n <? 2); [done|]. simpl.
  destruct (IH (int_sub n 1)) as [S1 V1]. destruct (IH (int_sub n 2)) as [S2 V2].
  rewrite V1. simpl. rewrite V2. simpl. by split_and!.
Qed.

Lemma fib_task_spec (n : Z) :
  structured (fib_task n) [] ∧ sequential (fib_task n) [] = Some (fib n).
Proof. apply fib_task_rec_spec. Qed.

Lemma wrap_int_small (z : Z) : is_int z → wrap_int z = z.
Proof.
  unfold is_int, wrap_int. intros Hz.
  rewrite Z.mod_small by lia. lia.
Qed.

Lemma fib_rec_fuel (fuel fuel' : nat) (n : Z) :
  n ≤ Z.of_nat fuel → n ≤ Z.of_nat fuel' → n ≤ 2147483647 →
  fib_rec fuel n = fib_rec fuel' n.
Proof.
  revert fuel' n. induction fuel as [|fuel IH]; intros fuel' n H1 H2 H3.
  - destruct fuel'; simpl; [done|]. destruct (n <? 2) eqn:E; [done|].
    apply Z.ltb_ge in E. lia.
  - destruct fuel'; simpl.
    + destruct (n <? 2) eqn:E; [done|]. apply Z.ltb_ge in E. lia.
    + destruct (n <? 2) eqn:E; [done|]. apply Z.ltb_ge in E.
      unfold int_sub. rewrite !wrap_int_small by (unfold is_int; lia).
      rewrite (IH fuel' (n - 1)), (IH fuel' (n - 2)) by lia. done.
Qed.


(** ** The life of a frame *)

Lemma lifecycle_state (stacks single : bool) (V : Z) (n : nat) (σ : state) (p : nat) (f : frame) :
  inv stacks single V n σ → frames σ !! p = Some f →
  (f_locals f = [] → m_steal f = 0 ∧ m_join f = k_u32_max)
  ∧ (∀ v, f_body f = at_code (co_return v) →
       m_steal f = 0 ∧ m_join f = k_u32_max
       ∧ ∃ σ', promise_type.final_suspend p σ = Ok () σ').
Proof.
  intros (H & Hfr & Inv & _) Hf.
  rewrite Hfr, lookup_fmap in Hf.
  destruct (H !! p) as [[f0 g]|] eqn:Hp; [|done]. simpl in Hf. injection Hf as ->.
  destruct (inv_frames _ _ _ _ _ _ _ _ Inv p f g Hp)
    as (Hlt & Hag & Hbody & Hcnt & Hmode & Htags).
  assert (Hnil : f_locals f = [] →
            m_steal f = 0 ∧ m_join f = k_u32_max ∧ m_count f = 0).
  { intros Hl. destruct Hcnt as (C1 & C2 & C3 & C4 & C5 & C6).
    unfold live in *. rewrite Hl in *. simpl in *.
    assert (inline_pending f g = 0%nat) as Hip by lia. rewrite Hip in *.
    assert (m_steal f = 0) as Hs by lia.
    split_and!; [done| |by destruct single].
    destruct (gm g); lia. }
  split; [intros Hl; by destruct (Hnil Hl) as (? & ? & _)|].
  intros v Hb. rewrite Hb in Hbody. simpl in Hbody. destruct Hbody as [Hgl _].
  rewrite Hgl in Hag. apply agrees_nil_inv in Hag.
  destruct (Hnil Hag) as (Hs & Hj & Hc). split_and!; [done..|].
  assert (frames σ !! p = Some f) as Hf by (by rewrite Hfr, lookup_fmap, Hp).
  eexists. unfold_M. rewrite Hf. simpl. rewrite Hc. simpl. rewrite Hf. simpl.
  rewrite Hs. simpl. rewrite Hf. simpl. rewrite Hj. reflexivity.
Qed.

Lemma invoke_fresh (me : nat) (parent : option frame_ptr) (pk : packet) (σ σ' : state)
    (c : frame_ptr) :
  invoke me parent pk σ = Ok c σ' →
  ∃ f, frames σ' !! c = Some f ∧ m_steal f = 0 ∧ m_join f = k_u32_max
       ∧ f_tag f = p_tag pk.
Proof.
  unfold invoke, allocate. unfold_M.
  destruct (workers σ !! me) as [wk|]; [|done]. intros [= <- <-]. simpl.
  rewrite lookup_insert_eq. by eexists.
Qed.

Lemma await_resume_checked (me : nat) (IsRoot : bool) (self : frame_ptr) (σ σ' : state) :
  join_awaitable.await_resume me IsRoot self σ = Ok () σ' →
  ∃ f, frames σ' !! self = Some f ∧ m_steal f = 0 ∧ m_join f = k_u32_max.
Proof.
  unfold_M. destruct (frames σ !! self) as [f|] eqn:Hf; [|done]. simpl.
  destruct (m_steal f =? 0) eqn:Hs; [|done]. simpl. rewrite Hf. simpl.
  destruct (m_join f =? k_u32_max) eqn:Hj; [|done]. simpl. rewrite Hf. simpl.
  apply Z.eqb_eq in Hs, Hj.
  assert (∀ τ, frames τ = <[self := with_count 0 f]> (frames σ) →
            ∃ f', frames τ !! self = Some f' ∧ m_steal f' = 0 ∧ m_join f' = k_u32_max)
    as Hdone.
  { intros τ ->. rewrite lookup_insert_eq. by eexists. }
  destruct IsRoot; simpl.
  - intros [= <-]. by apply Hdone.
  - rewrite lookup_insert_eq. simpl.
    destruct (workers σ !! me) as [wk|]; [|done]. simpl.
    destruct (m_top f =? w_asp wk)%nat; [|done]. intros [= <-]. by apply Hdone.
Qed.

Lemma final_suspend_checked (this : frame_ptr) (σ σ' : state) :
  promise_type.final_suspend this σ = Ok () σ' →
  ∃ f, frames σ !! this = Some f ∧ m_steal f = 0 ∧ m_join f = k_u32_max.
Proof.
  unfold_M. destruct (frames σ !! this) as [f|] eqn:Hf; [|done]. simpl.
  destruct (m_count f =? 0); [|done]. simpl. rewrite Hf. simpl.
  destruct (m_steal f =? 0) eqn:Hs; [|done]. simpl. rewrite Hf. simpl.
  destruct (m_join f =? k_u32_max) eqn:Hj; [|done]. intros _.
  apply Z.eqb_eq in Hs, Hj. by eexists.
Qed.

(** ** Joins that succeed *)

(** A join that is ready after steals, a join that wins the race at its
    suspension, and the last child that returns to a stolen parent leave
    the frame as it was made: [steals = 0] and [joins = k_u32_max]. *)
Lemma join_ready_resets (me : nat) (IsRoot : bool) (self : frame_ptr) (σ σ' : state)
    (f : frame) :
  frames σ !! self = Some f → m_steal f ≠ 0 →
  join_awaitable.await_ready me IsRoot self σ = Ok true σ' →
  frames σ' !! self = Some (with_steal 0 (with_join k_u32_max f)).
Proof.
  intros Hf Hs%Z.eqb_neq. unfold_M. simpl.
  repeat (first [rewrite Hf | rewrite Hs]; simpl).
  destruct (m_steal f =? u32_sub k_u32_max (m_join f)); [|done]. simpl.
  repeat (first [rewrite Hf | rewrite Hs]; simpl).
  destruct IsRoot; simpl.
  - repeat (first [rewrite Hf | rewrite Hs]; simpl). intros [= <-]. simpl.
    by rewrite lookup_insert_eq.
  - repeat (first [rewrite Hf | rewrite Hs]; simpl).
    destruct (workers σ !! me) as [wk|]; [|done]. simpl.
    repeat (first [rewrite Hf | rewrite Hs]; simpl). intros [= <-]. simpl.
    by rewrite lookup_insert_eq.
Qed.

Lemma join_suspend_resets (me : nat) (IsRoot : bool) (self : frame_ptr) (σ σ' : state)
    (f : frame) :
  frames σ !! self = Some f →
  join_awaitable.await_suspend me IsRoot self (coro self) σ = Ok (coro self) σ' →
  frames σ' !! self = Some (with_steal 0 (with_join k_u32_max f)).
Proof.
  intros Hf. unfold_M. simpl.
  repeat (first [rewrite Hf | rewrite lookup_insert_eq]; simpl).
  destruct (m_steal f =? u32_sub k_u32_max (m_join f)); [|done]. simpl.
  repeat (first [rewrite Hf | rewrite lookup_insert_eq]; simpl).
  destruct (m_steal f =? 0); [done|]. simpl.
  destruct IsRoot; simpl.
  - repeat (first [rewrite Hf | rewrite lookup_insert_eq]; simpl). intros [= <-]. simpl.
    by rewrite lookup_insert_eq.
  - repeat (first [rewrite Hf | rewrite lookup_insert_eq]; simpl).
    destruct (workers σ !! me) as [wk|]; [|done]. simpl.
    repeat (first [rewrite Hf | rewrite lookup_insert_eq]; simpl). intros [= <-]. simpl.
    by rewrite lookup_insert_eq.
Qed.

Lemma last_child_resets (me : nat) (parent : frame_ptr) (σ σ' : state) (f : frame)
    (wk : worker) :
  frames σ !! parent = Some f → workers σ !! me = Some wk → w_deque wk = [] →
  final_await_suspend me parent σ = Ok (coro parent) σ' →
  frames σ' !! parent = Some (with_steal 0 (with_join k_u32_max f)).
Proof.
  intros Hf Hw Hd. unfold_M. unfold is_root. simpl.
  repeat (first [rewrite Hf | rewrite Hw | rewrite Hd | rewrite lookup_insert_eq]; simpl).
  destruct (m_join f =? 1); simpl.
  - destruct (bool_decide (m_parent f = None)); simpl.
    + repeat (first [rewrite Hf | rewrite Hw | rewrite lookup_insert_eq]; simpl).
      intros [= <-]. simpl. by rewrite lookup_insert_eq.
    + repeat (first [rewrite Hf | rewrite Hw | rewrite lookup_insert_eq]; simpl).
      destruct (m_top f =? w_asp wk)%nat; simpl;
        repeat (first [rewrite Hf | rewrite Hw | rewrite lookup_insert_eq]; simpl);
        intros [= <-]; simpl; by rewrite lookup_insert_eq.
  - destruct (bool_decide (m_parent f = None)); simpl; [done|].
    repeat (first [rewrite Hf | rewrite Hw | rewrite lookup_insert_eq]; simpl).
    destruct (m_top f =? w_asp wk)%nat; simpl; [|done].
    by repeat (first [rewrite Hf | rewrite Hw | rewrite lookup_insert_eq]; simpl).
Qed.

(** ** [sync_wait] and the sequential value *)

(** When no continuation is stolen (in a pool of one worker, under every
    schedule) the run does not fail, a result that is there is the
    sequential value, the result is there when no worker has anything left
    to do, at most [cost c []] actions happen, and a fair scheduler gets
    the result. *)
Lemma sync_wait_without_steals (c : task) (v : Z) (single : bool) (nworkers first : nat)
    (sched : list action) :
  structured c [] → sequential c [] = Some v → (first < nworkers)%nat →
  thefts single sched (submit nworkers first c) = 0%nat →
  (∃ σ, run single sched (submit nworkers first c) = Ok () σ
        ∧ (∀ r, sync_wait_result σ = Some r → r = v)
        ∧ ((∀ me, exec single (act_step me) σ = None) → sync_wait_result σ = Some v)
        ∧ (effective single sched (submit nworkers first c) ≤ cost c [])%nat)
  ∧ (∃ σ, run single (sched ++ round_robin nworkers (S (cost c [])))
            (submit nworkers first c) = Ok () σ
          ∧ sync_wait_result σ = Some v).
Proof.
  intros Hs Hv Hfirst Hcalm. split.
  - destruct (reachable_inv single nworkers first c v sched Hfirst Hs Hv Hcalm)
      as (σ & n & Hrun & Hinv & Hle & Hlen).
    exists σ. split_and!; [done| | |lia].
    + intros r. apply (result_value true single v n σ r Hinv).
    + apply (quiescent_result true single v n σ Hinv).
  - apply completes; [done..|lia].
Qed.

(** With steals a run gives no other value than the sequential one, and
    fails in no other way than at the check of the stack in
    [await_resume]. *)
Lemma sync_wait_with_steals (c : task) (v : Z) (single : bool) (nworkers first : nat)
    (sched : list action) :
  structured c [] → sequential c [] = Some v → (first < nworkers)%nat →
  (off_stack (run single sched (submit nworkers first c))
   ∨ ∃ σ, run single sched (submit nworkers first c) = Ok () σ
          ∧ (∀ r, sync_wait_result σ = Some r → r = v)
          ∧ ((∀ me, exec single (act_step me) σ = None) → sync_wait_result σ = Some v)
          ∧ (effective single sched (submit nworkers first c) ≤ cost c [])%nat)
  ∧ (off_stack (run single (sched ++ round_robin nworkers (S (cost c [])))
                  (submit nworkers first c))
     ∨ ∃ σ, run single (sched ++ round_robin nworkers (S (cost c [])))
              (submit nworkers first c) = Ok () σ
            ∧ sync_wait_result σ = Some v).
Proof.
  intros Hs Hv Hfirst. split.
  - destruct (reachable_any single nworkers first c v sched Hfirst Hs Hv)
      as [(σ & n & Hrun & Hinv & Hle & Hlen)|Hoff]; [right|by left].
    exists σ. split_and!; [done| | |lia].
    + intros r. apply (result_value false single v n σ r Hinv).
    + apply (quiescent_result false single v n σ Hinv).
  - destruct (completes_any single nworkers first c v sched (S (cost c [])) Hfirst Hs Hv)
      as [?|?]; [lia|by right|by left].
Qed.

(** The steal of the spec takes the victim off the stack of the task that
    it runs: the join of that task stops at the check of [await_resume]. *)
Example steal_leaves_victim_off_stack :
  off_stack (run false [act_step 0; act_steal 1 0; act_step 0; act_step 0; act_step 0;
                        act_step 0; act_step 0]
               (submit 2 0 (fib_task 3))).
Proof. by vm_compute. Qed.

(** C7: the life of a frame.  A frame is made with [steals = 0] and
    [joins = k_u32_max].  A join that succeeds after steals (ready in
    [await_ready], winner of the race in [await_suspend], or resumed by the
    last child in [final_await_suspend]) leaves [steals = 0] and
    [joins = k_u32_max]; [await_resume], which ends every join, and
    [final_suspend], which comes before the frame is destroyed, go on only
    with these values.  In every state that a run reaches, with or without
    steals, every frame without a fork since it was made or since its last
    join has [steals = 0] and [joins = k_u32_max], and so has every frame
    that is about to return, whose [final_suspend] passes; the only check
    at which a run can stop is the one of the stack, after a steal. *)
Theorem frame_lifecycle :
  (∀ me parent pk σ σ' c,
     invoke me parent pk σ = Ok c σ' →
     ∃ f, frames σ' !! c = Some f ∧ m_steal f = 0 ∧ m_join f = k_u32_max
          ∧ f_tag f = p_tag pk)
  ∧ (∀ me IsRoot self σ σ' f,
       frames σ !! self = Some f → m_steal f ≠ 0 →
       join_awaitable.await_ready me IsRoot self σ = Ok true σ' →
       frames σ' !! self = Some (with_steal 0 (with_join k_u32_max f)))
  ∧ (∀ me IsRoot self σ σ' f,
       frames σ !! self = Some f →
       join_awaitable.await_suspend me IsRoot self (coro self) σ = Ok (coro self) σ' →
       frames σ' !! self = Some (with_steal 0 (with_join k_u32_max f)))
  ∧ (∀ me parent σ σ' f wk,
       frames σ !! parent = Some f → workers σ !! me = Some wk → w_deque wk = [] →
       final_await_suspend me parent σ = Ok (coro parent) σ' →
       frames σ' !! parent = Some (with_steal 0 (with_join k_u32_max f)))
  ∧ (∀ me IsRoot self σ σ',
       join_awaitable.await_resume me IsRoot self σ = Ok () σ' →
       ∃ f, frames σ' !! self = Some f ∧ m_steal f = 0 ∧ m_join f = k_u32_max)
  ∧ (∀ this σ σ',
       promise_type.final_suspend this σ = Ok () σ' →
       ∃ f, frames σ !! this = Some f ∧ m_steal f = 0 ∧ m_join f = k_u32_max)
  ∧ (∀ (c : task) (v : Z) (single : bool) (nworkers first : nat) (sched : list action),
       structured c [] → sequential c [] = Some v → (first < nworkers)%nat →
       off_stack (run single sched (submit nworkers first c))
       ∨ ∃ σ, run single sched (submit nworkers first c) = Ok () σ
              ∧ ∀ p f, frames σ !! p = Some f →
                  (f_locals f = [] → m_steal f = 0 ∧ m_join f = k_u32_max)
                  ∧ (∀ r, f_body f = at_code (co_return r) →
                       m_steal f = 0 ∧ m_join f = k_u32_max
                       ∧ ∃ σ', promise_type.final_suspend p σ = Ok () σ'))
  ∧ (∀ (c : task) (v : Z) (single : bool) (nworkers first : nat) (sched : list action),
       structured c [] → sequential c [] = Some v → (first < nworkers)%nat →
       thefts single sched (submit nworkers first c) = 0%nat →
       ∃ σ, run single sched (submit nworkers first c) = Ok () σ
            ∧ ∀ p f, frames σ !! p = Some f →
                (f_locals f = [] → m_steal f = 0 ∧ m_join f = k_u32_max)
                ∧ (∀ r, f_body f = at_code (co_return r) →
                     m_steal f = 0 ∧ m_join f = k_u32_max
                     ∧ ∃ σ', promise_type.final_suspend p σ = Ok () σ')).
Proof.
  split_and!.
  - apply invoke_fresh.
  - apply join_ready_resets.
  - apply join_suspend_resets.
  - apply last_child_resets.
  - apply await_resume_checked.
  - apply final_suspend_checked.
  - intros c v single nworkers first sched Hs Hv Hfirst.
    destruct (reachable_any single nworkers first c v sched Hfirst Hs Hv)
      as [(σ & n & Hrun & Hinv & _)|Hoff]; [right|by left].
    exists σ. split; [done|]. intros p f.
    apply (lifecycle_state false single v n σ p f Hinv).
  - intros c v single nworkers first sched Hs Hv Hfirst Hcalm.
    destruct (reachable_inv single nworkers first c v sched Hfirst Hs Hv Hcalm)
      as (σ & n & Hrun & Hinv & _).
    exists σ. split; [done|]. intros p f.
    apply (lifecycle_state true single v n σ p f Hinv).
Qed.

Lemma frame_lifecycle_witness :
  ∃ σ, run false [act_step 0; act_steal 1 0; act_step 1; act_step 1; act_step 1;
                  act_step 0; act_step 1]
         (submit 2 0 (fib_task 2)) = Ok () σ
       ∧ ∀ p f, frames σ !! p = Some f →
           (f_locals f = [] → m_steal f = 0 ∧ m_join f = k_u32_max)
           ∧ (∀ r, f_body f = at_code (co_return r) →
                m_steal f = 0 ∧ m_join f = k_u32_max
                ∧ ∃ σ', promise_type.final_suspend p σ = Ok () σ').
Proof.
  destruct (proj1 (proj2 (proj2 (proj2 (proj2 (proj2 (proj2 frame_lifecycle))))))
              (fib_task 2) 1 false 2%nat 0%nat
              [act_step 0; act_steal 1 0; act_step 1; act_step 1; act_step 1;
               act_step 0; act_step 1]) as [Hoff|Hok].
  - simpl. repeat split; unfold k_u32_max; lia.
  - reflexivity.
  - lia.
  - vm_compute in Hoff. discriminate Hoff.
  - exact Hok.
Defined.

(** C6: on a scheduler with one thread the transform of a fork is the
    transform of the same packet with the tag [call]: the child is made
    with the tag [call] and the awaitable is a call awaitable, nothing is
    pushed on the deque; and a fork followed by its join gives under every
    schedule the result that the call gives. *)
Theorem single_thread_fork_is_call :
  (∀ (me : nat) (this : frame_ptr) (pk : packet) (σ : state),
     p_tag pk = fork →
     await_transform true me this pk σ = await_transform true me this (rewrite_tag pk) σ
     ∧ await_transform true me this pk σ = await_transform_call me this (rewrite_tag pk) σ
     ∧ ∀ wk, workers σ !! me = Some wk →
         ∃ σ', await_transform true me this pk σ = Ok (call_awaitable (next_frame σ)) σ'
               ∧ frames σ' !! next_frame σ
                 = Some (new_frame this (w_asp wk) call (p_ret pk) (p_body pk))
               ∧ workers σ' = workers σ
               ∧ awaitable_await_suspend me (call_awaitable (next_frame σ)) σ'
                 = Ok (coro (next_frame σ)) σ')
  ∧ (∀ (child : task) (k : list Z → task) (v : Z) (sched : list action),
       structured (co_await_fork child (co_await_join k)) [] →
       sequential (co_await_fork child (co_await_join k)) [] = Some v →
       sequential (co_await_call child (λ r, k [r])) [] = Some v
       ∧ (∃ σf σc,
            run true sched (submit 1 0 (co_await_fork child (co_await_join k))) = Ok () σf
            ∧ run true sched (submit 1 0 (co_await_call child (λ r, k [r]))) = Ok () σc
            ∧ (∀ r, sync_wait_result σf = Some r → r = v)
            ∧ (∀ r, sync_wait_result σc = Some r → r = v))
       ∧ (∃ σf σc,
            run true (sched ++ round_robin 1
                                 (S (cost (co_await_fork child (co_await_join k)) [])))
              (submit 1 0 (co_await_fork child (co_await_join k))) = Ok () σf
            ∧ run true (sched ++ round_robin 1
                                   (S (cost (co_await_fork child (co_await_join k)) [])))
                (submit 1 0 (co_await_call child (λ r, k [r]))) = Ok () σc
            ∧ sync_wait_result σf = Some v
            ∧ sync_wait_result σc = Some v)).
Proof.
  split.
  - intros me this pk σ Ht. unfold await_transform. rewrite Ht. simpl.
    split_and!; [done..|]. intros wk Hw.
    unfold await_transform_call, invoke, allocate. unfold_M. rewrite Hw. simpl.
    eexists. split; [reflexivity|]. simpl. rewrite lookup_insert_eq. done.
  - intros child k v sched Hs Hv. simpl in Hs, Hv.
    destruct Hs as (_ & Hcs & Hks).
    destruct (sequential child []) as [a|] eqn:Hcv; [|done]. simpl in Hks, Hv.
    assert (Hs' : structured (co_await_fork child (co_await_join k)) []).
    { simpl. rewrite Hcv. split_and!; [unfold k_u32_max; lia|done..]. }
    assert (Hv' : sequential (co_await_fork child (co_await_join k)) [] = Some v).
    { simpl. by rewrite Hcv. }
    assert (Hsc : structured (co_await_call child (λ r, k [r])) []).
    { simpl. by rewrite Hcv. }
    assert (Hvc : sequential (co_await_call child (λ r, k [r])) [] = Some v).
    { simpl. by rewrite Hcv. }
    assert (Hcost : (cost (co_await_call child (λ r, k [r])) []
                     < S (cost (co_await_fork child (co_await_join k)) []))%nat).
    { simpl. rewrite Hcv. simpl. lia. }
    pose proof (alone true _ v sched Hs' Hv') as Hcalm.
    pose proof (alone true _ v sched Hsc Hvc) as Hcalmc.
    split; [done|]. split.
    + destruct (reachable_inv true 1 0 _ v sched (Nat.lt_0_1) Hs' Hv' Hcalm)
        as (σf & nf & Hrf & Hif & _).
      destruct (reachable_inv true 1 0 _ v sched (Nat.lt_0_1) Hsc Hvc Hcalmc)
        as (σc & nc & Hrc & Hic & _).
      exists σf, σc. split_and!; [done..| |].
      * intros r. apply (result_value true true v nf σf r Hif).
      * intros r. apply (result_value true true v nc σc r Hic).
    + destruct (completes true 1 0 _ v sched
                  (S (cost (co_await_fork child (co_await_join k)) []))
                  (Nat.lt_0_1) Hs' Hv' Hcalm) as (σf & Hrf & Hvf); [lia|].
      destruct (completes true 1 0 _ v sched
                  (S (cost (co_await_fork child (co_await_join k)) []))
                  (Nat.lt_0_1) Hsc Hvc Hcalmc) as (σc & Hrc & Hvc'); [done|].
      exists σf, σc. done.
Qed.

Lemma single_thread_fork_is_call_witness :
  sequential (co_await_call (co_return 5) (λ r, (λ l, co_return (foldr Z.add 0 l)) [r])) []
  = Some 5
  ∧ (∃ σf σc,
       run true [act_step 0; act_step 0]
         (submit 1 0 (co_await_fork (co_return 5)
                        (co_await_join (λ l, co_return (foldr Z.add 0 l))))) = Ok () σf
       ∧ run true [act_step 0; act_step 0]
           (submit 1 0 (co_await_call (co_return 5)
                          (λ r, (λ l, co_return (foldr Z.add 0 l)) [r]))) = Ok () σc
       ∧ (∀ r, sync_wait_result σf = Some r → r = 5)
       ∧ (∀ r, sync_wait_result σc = Some r → r = 5))
  ∧ (∃ σf σc,
       run true ([act_step 0; act_step 0] ++ round_robin 1
          (S (cost (co_await_fork (co_return 5)
                      (co_await_join (λ l, co_return (foldr Z.add 0 l)))) [])))
         (submit 1 0 (co_await_fork (co_return 5)
                        (co_await_join (λ l, co_return (foldr Z.add 0 l))))) = Ok () σf
       ∧ run true ([act_step 0; act_step 0] ++ round_robin 1
            (S (cost (co_await_fork (co_return 5)
                        (co_await_join (λ l, co_return (foldr Z.add 0 l)))) [])))
           (submit 1 0 (co_await_call (co_return 5)
                          (λ r, (λ l, co_return (foldr Z.add 0 l)) [r]))) = Ok () σc
       ∧ sync_wait_result σf = Some 5
       ∧ sync_wait_result σc = Some 5).
Proof.
  apply (proj2 single_thread_fork_is_call (co_return 5)
           (λ l, co_return (foldr Z.add 0 l)) 5 [act_step 0; act_step 0]).
  - simpl. repeat split; unfold k_u32_max; lia.
  - reflexivity.
Defined.




(** ** The semaphore of the root *)

Lemma semaphore_once (stacks single : bool) (V : Z) (n : nat) (σ : state) :
  inv stacks single V n σ →
  (semaphore σ ≤ 1)%nat
  ∧ (semaphore σ = 1%nat ↔ frames σ !! 0%nat = None)
  ∧ (semaphore σ = 1%nat → frames σ = ∅ ∧ root_result σ = Some V).
Proof.
  intros (H & Hfr & Inv & _).
  destruct (inv_root _ _ _ _ _ _ _ _ Inv) as [_ R2].
  rewrite Hfr, lookup_fmap.
  destruct (H !! 0%nat) as [[f g]|] eqn:H0; simpl.
  - destruct R2 as (_ & _ & -> & _). split_and!; [lia|split; done|done].
  - destruct R2 as (-> & -> & ->). split_and!; [lia|split; done|].
    intros _. by rewrite fmap_empty.
Qed.

(** C8: the final suspend of a root task releases the semaphore of the
    task once, destroys the frame and hands the no-op handle to the
    executor; nothing else happens. *)
Theorem final_suspend_of_root (me : nat) (child : frame_ptr) (σ : state) (f : frame) :
  frames σ !! child = Some f →
  ∃ σ',
    promise_type.final_awaitable.await_suspend me root child σ = Ok noop_coroutine σ'
    ∧ semaphore σ' = S (semaphore σ)
    ∧ frames σ' = delete child (frames σ)
    ∧ trace σ' = trace σ ++ [ev_semaphore_release; ev_destroy child]
    ∧ workers σ' = workers σ
    ∧ root_result σ' = root_result σ.
Proof.
  intros Hf. eexists. split.
  - unfold_M. simpl. rewrite Hf. reflexivity.
  - simpl. rewrite <- app_assoc. done.
Qed.

Lemma final_suspend_of_root_witness :
  ∃ σ',
    promise_type.final_awaitable.await_suspend 0 root 1 (example_state 0 k_u32_max [])
    = Ok noop_coroutine σ'
    ∧ semaphore σ' = 1%nat
    ∧ frames σ' = delete 1%nat (frames (example_state 0 k_u32_max []))
    ∧ trace σ' = [ev_semaphore_release; ev_destroy 1%nat]
    ∧ workers σ' = workers (example_state 0 k_u32_max [])
    ∧ root_result σ' = None.
Proof.
  apply (final_suspend_of_root 0%nat 1%nat (example_state 0 k_u32_max [])
           (example_frame 0 k_u32_max (Some 0%nat))).
  reflexivity.
Defined.
